(** * Firewall rule optimizer: analyzer, recommender and plan applier

    A shallow embedding of [optimizer/parser.py] (the rule model),
    [optimizer/analyzer.py] (range predicates, issue detection, scores) and
    [optimizer/recommender.py] (default-policy pass, plan application),
    together with the properties of these functions.

    Conventions.
    - Python [str] is [string]; a character stands for the code point of
      the same number (0..255).
    - [Optional[str]] is [option string]; [None] is Python's [None].
    - Exceptions are explicit: a computation returns [res A], either a
      value or the class of the exception it raises.
    - The two scores are Python floats that only ever hold 100.0 minus a
      sum of small integers, so they are integers here (exact while the
      magnitude stays below 2^53).
    - Detection and recommendation only read the policy, so they take the
      policy's contents by value, insertion-ordered dictionaries being
      association lists.  The plan applier mutates dictionaries and lists
      in place; for it the containers live in a store and are referred to
      by location. *)

From Stdlib Require Import ZArith Lia Ascii String.
From stdpp Require Import base option list strings gmap pretty.

Local Open Scope string_scope.
Local Open Scope list_scope.
Local Open Scope Z_scope.

(** ** Exceptions *)

Inductive exn :=
| ValueError | TypeError | AttributeError | IndexError | KeyError.

#[global] Instance exn_eq_dec : EqDecision exn.
Proof. solve_decision. Defined.

Inductive res (A : Type) : Type :=
| Ok (a : A)
| Raise (e : exn).
Arguments Ok {A} a.
Arguments Raise {A} e.

#[global] Instance res_ret : MRet res := fun A a => Ok a.
#[global] Instance res_bind : MBind res := fun A B f m =>
  match m with
  | Ok a => f a
  | Raise e => Raise e
  end.

(** [try: body except ValueError: handler] *)
Definition try_except_ValueError {A} (body handler : res A) : res A :=
  match body with
  | Raise ValueError => handler
  | r => r
  end.

(** [for x in xs: body] over a state [s]. *)
Fixpoint for_each {A S : Type} (xs : list A) (body : A -> S -> res S) (s : S)
  : res S :=
  match xs with
  | [] => Ok s
  | x :: xs' => s' ← body x s; for_each xs' body s'
  end.

(** A loop body either falls through to the next iteration or breaks. *)
Inductive flow (S : Type) : Type :=
| Next (s : S)
| Break (s : S).
Arguments Next {S} s.
Arguments Break {S} s.

Fixpoint for_each_break {A S : Type} (xs : list A)
    (body : A -> S -> res (flow S)) (s : S) : res S :=
  match xs with
  | [] => Ok s
  | x :: xs' =>
      f ← body x s;
      match f with
      | Next s' => for_each_break xs' body s'
      | Break s' => Ok s'
      end
  end.

(** [enumerate(xs)] and [range(n)] *)
Definition enumerate {A} (xs : list A) : list (nat * A) :=
  zip (seq 0 (length xs)) xs.

Definition range (n : nat) : list nat := seq 0 n.

(** [xs[j]] *)
Definition getitem {A} (xs : list A) (j : nat) : res A :=
  match xs !! j with
  | Some x => Ok x
  | None => Raise IndexError
  end.

(** ** Strings *)

(** Truth value of an [Optional[str]]: [None] and the empty string are
    false. *)
Definition truthy (o : option string) : bool :=
  match o with
  | None => false
  | Some s => negb (bool_decide (s = ""))
  end.

(** [o or ""] *)
Definition or_empty (o : option string) : string :=
  match o with
  | Some s => s
  | None => ""
  end.

(** [sep.join(parts)] *)
Fixpoint join (sep : string) (parts : list string) : string :=
  match parts with
  | [] => ""
  | [p] => p
  | p :: ps => p +:+ sep +:+ join sep ps
  end.

(** [c in s] for a one-character [c] *)
Fixpoint has_char (c : ascii) (s : string) : bool :=
  match s with
  | EmptyString => false
  | String a s' => if bool_decide (a = c) then true else has_char c s'
  end.

(** [sub in s] *)
Fixpoint has_substring (sub s : string) : bool :=
  if String.prefix sub s then true
  else match s with
       | EmptyString => false
       | String _ s' => has_substring sub s'
       end.

(** [s.split(c)] for a one-character separator: the pieces between the
    separators, in order (always at least one piece). *)
Fixpoint split_on (c : ascii) (s : string) : list string :=
  match s with
  | EmptyString => [""]
  | String a s' =>
      if bool_decide (a = c) then "" :: split_on c s'
      else match split_on c s' with
           | p :: ps => String a p :: ps
           | [] => [String a ""]
           end
  end.

(** Code points below 256 that [int] skips at either end of its
    argument: the C white space 9-13 and 32, and the two spaces 133 and
    160, which [int] turns into a space first.  (The separators 28-31,
    white space for [str.strip], are not skipped by [int].) *)
Definition is_space (a : ascii) : bool :=
  let n := nat_of_ascii a in
  ((9 <=? n) && (n <=? 13) || (n =? 32) || (n =? 133) || (n =? 160))%nat.

Fixpoint lstrip (s : string) : string :=
  match s with
  | String a s' => if is_space a then lstrip s' else s
  | EmptyString => ""
  end.

Fixpoint rstrip (s : string) : string :=
  match s with
  | EmptyString => ""
  | String a s' =>
      match rstrip s' with
      | EmptyString => if is_space a then "" else String a ""
      | t => String a t
      end
  end.

Definition strip (s : string) : string := rstrip (lstrip s).

Definition digit_of (a : ascii) : option Z :=
  let n := nat_of_ascii a in
  if ((48 <=? n) && (n <=? 57))%nat then Some (Z.of_nat n - 48) else None.

(** The digits of a decimal literal after its sign: at least one digit,
    single underscores allowed between digits only.  [acc] is the value
    read so far and [prev] tells whether the previous character was a
    digit. *)
Fixpoint int_digits (s : string) (acc : Z) (prev : bool) : res Z :=
  match s with
  | EmptyString => if prev then Ok acc else Raise ValueError
  | String a s' =>
      match digit_of a with
      | Some d => int_digits s' (10 * acc + d) true
      | None =>
          if bool_decide (a = "_"%char) && prev then int_digits s' acc false
          else Raise ValueError
      end
  end.

(** The number of digits in a literal, underscores apart. *)
Fixpoint count_digits (s : string) : nat :=
  match s with
  | EmptyString => 0
  | String a s' =>
      match digit_of a with
      | Some _ => S (count_digits s')
      | None => count_digits s'
      end
  end.

(** [sys.get_int_max_str_digits()] at its default: a decimal literal
    with more digits is refused with ValueError. *)
Definition max_str_digits : nat := 4300.

Definition int_literal (s : string) : res Z :=
  n ← int_digits s 0 false;
  if (max_str_digits <? count_digits s)%nat then Raise ValueError else Ok n.

(** [int(s)] for a string argument, base ten: surrounding white space,
    an optional sign, then the digits.  Anything else is a ValueError. *)
Definition int (s : string) : res Z :=
  match strip s with
  | String "-" s' => n ← int_literal s'; Ok (- n)
  | String "+" s' => int_literal s'
  | s' => int_literal s'
  end.

(** [str(n)] for an integer *)
Definition str_of_int (n : Z) : string := pretty n.

(** ** The rule model ([parser.py]) *)

(** A value of the free-form [parameters] dictionary: the flag's argument,
    or [True] for a flag without one. *)
Inductive param_value :=
| PTrue
| PStr (s : string).

#[global] Instance param_value_eq_dec : EqDecision param_value.
Proof. solve_decision. Defined.

(** [FirewallRule].  [action] is not a dataclass field (it is set after
    construction from [target]), so it takes no part in [==]; see
    [rule_action]. *)
Record FirewallRule := {
  table : string;
  chain : string;
  target : string;
  protocol : option string;
  source_ip : option string;
  destination_ip : option string;
  source_port : option string;
  destination_port : option string;
  interface_in : option string;
  interface_out : option string;
  state : option string;
  module : option string;
  jump_target : option string;
  line_number : Z;
  raw_rule : string;
  parameters : gmap string param_value
}.

(** Dataclass equality compares the fields one by one; with dictionaries
    as [gmap] that is equality of records. *)
#[global] Instance FirewallRule_eq_dec : EqDecision FirewallRule.
Proof. solve_decision. Defined.

Inductive RuleAction :=
| ACCEPT | DROP | REJECT | LOG | RETURN | REDIRECT | MASQUERADE | JUMP.

(** [__post_init__]: the action a target string stands for. *)
Definition rule_action (tgt : string) : RuleAction :=
  if bool_decide (tgt = "ACCEPT") then ACCEPT
  else if bool_decide (tgt = "DROP") then DROP
  else if bool_decide (tgt = "REJECT") then REJECT
  else if bool_decide (tgt = "LOG") then LOG
  else if bool_decide (tgt = "RETURN") then RETURN
  else JUMP.

(** [FirewallRule(table=.., chain=.., target=.., raw_rule=..)] with the
    other fields at their defaults, [__post_init__] included. *)
Definition new_FirewallRule (tbl chn tgt raw : string) : FirewallRule :=
  {| table := tbl; chain := chn; target := tgt;
     protocol := None; source_ip := None; destination_ip := None;
     source_port := None; destination_port := None;
     interface_in := None; interface_out := None;
     state := None; module := None;
     jump_target :=
       match rule_action tgt with JUMP => Some tgt | _ => None end;
     line_number := 0; raw_rule := raw; parameters := ∅ |}.

(** The contents of [FirewallConfig.tables]: table name to chain name to
    the chain's rules, both dictionaries in insertion order. *)
Definition Chains := list (string * list FirewallRule).
Definition Tables := list (string * Chains).

(** Dictionary lookup in an insertion-ordered dictionary. *)
Fixpoint dict_get {V} (d : list (string * V)) (k : string) : option V :=
  match d with
  | [] => None
  | (k', v) :: d' => if bool_decide (k' = k) then Some v else dict_get d' k
  end.

(** ** The address library

    [ipaddress] is the Python standard library, not code of this
    repository.  What the analyzer relies on is collected in an
    interface: parsing with [ip_network(s, strict=False)], which for a
    string raises nothing but ValueError; [overlaps]; [supernet_of], which
    may raise (TypeError when the two networks are of different IP
    versions); and [==] on networks.  A network overlaps itself. *)
Class IpLib := {
  network : Type;
  ip_network : string -> res network;
  overlaps : network -> network -> bool;
  supernet_of : network -> network -> res bool;
  network_eqb : network -> network -> bool;
  ip_network_raises : forall s e, ip_network s = Raise e -> e = ValueError;
  overlaps_refl : forall n, overlaps n n = true
}.

(** ** Issues and analysis results ([analyzer.py]) *)

Inductive IssueType :=
| REDUNDANT | CONFLICTING | UNREACHABLE | INEFFICIENT_ORDER
| SECURITY_RISK | OVERLY_PERMISSIVE | MISSING_LOG.

Inductive IssueSeverity := SEV_LOW | SEV_MEDIUM | SEV_HIGH | SEV_CRITICAL.

#[global] Instance IssueType_eq_dec : EqDecision IssueType.
Proof. solve_decision. Defined.
#[global] Instance IssueSeverity_eq_dec : EqDecision IssueSeverity.
Proof. solve_decision. Defined.

(** [RuleIssue]; [confidence] always keeps its default 1.0 and is left
    out. *)
Record RuleIssue := {
  issue_type : IssueType;
  severity : IssueSeverity;
  description : string;
  affected_rules : list FirewallRule;
  recommendation : string
}.

#[global] Instance RuleIssue_eq_dec : EqDecision RuleIssue.
Proof. solve_decision. Defined.

Record AnalysisResult := {
  issues : list RuleIssue;
  statistics : gmap string Z;
  rule_efficiency_score : Z;
  security_score : Z
}.

(** [AnalysisResult()] *)
Definition new_AnalysisResult : AnalysisResult :=
  {| issues := []; statistics := ∅;
     rule_efficiency_score := 0; security_score := 0 |}.

Definition add_issue (result : AnalysisResult) (issue : RuleIssue)
  : AnalysisResult :=
  {| issues := issues result ++ [issue];
     statistics := statistics result;
     rule_efficiency_score := rule_efficiency_score result;
     security_score := security_score result |}.

Definition get_issues_by_type (result : AnalysisResult) (t : IssueType)
  : list RuleIssue :=
  filter (fun issue => issue_type issue = t) (issues result).

Definition get_issues_by_severity (result : AnalysisResult)
    (s : IssueSeverity) : list RuleIssue :=
  filter (fun issue => severity issue = s) (issues result).

(** [tgt in ["ACCEPT", "DROP", "REJECT"]] *)
Definition is_terminal (tgt : string) : bool :=
  bool_decide (tgt ∈ ["ACCEPT"; "DROP"; "REJECT"]).

(** The attribute names the pairwise checks walk over with [getattr]. *)
Inductive criterion :=
| c_protocol | c_source_ip | c_destination_ip | c_source_port
| c_destination_port | c_interface_in | c_interface_out.

#[global] Instance criterion_eq_dec : EqDecision criterion.
Proof. solve_decision. Defined.

Definition getattr (rule : FirewallRule) (c : criterion) : option string :=
  match c with
  | c_protocol => protocol rule
  | c_source_ip => source_ip rule
  | c_destination_ip => destination_ip rule
  | c_source_port => source_port rule
  | c_destination_port => destination_port rule
  | c_interface_in => interface_in rule
  | c_interface_out => interface_out rule
  end.

(** [criterion in ['source_ip', 'destination_ip']] *)
Definition is_ip_criterion (c : criterion) : bool :=
  match c with
  | c_source_ip | c_destination_ip => true
  | _ => false
  end.

(** The start and end of a port specification:
    [map(int, p.split(':'))] unpacked into two names when there is a
    colon, the single port twice otherwise. *)
Definition port_bounds (p : string) : res (Z * Z) :=
  if has_char ":" p then
    match split_on ":" p with
    | [a; b] => x ← int a; y ← int b; Ok (x, y)
    | a :: b :: _ => _ ← int a; _ ← int b; Raise ValueError
    | [a] => _ ← int a; Raise ValueError
    | [] => Raise ValueError
    end
  else x ← int p; Ok (x, x).

(** [_port_contains] *)
Definition _port_contains (general specific : option string) : res bool :=
  match general with
  | None => Ok true
  | Some g =>
      match specific with
      | None => Ok false
      | Some s =>
          try_except_ValueError
            ('(g_start, g_end) ← port_bounds g;
             '(s_start, s_end) ← port_bounds s;
             Ok ((g_start <=? s_start) && (s_end <=? g_end)))
            (Ok (bool_decide (general = specific)))
      end
  end.

Section Analyzer.
Context {L : IpLib}.

(** [_ip_ranges_overlap] *)
Definition _ip_ranges_overlap (ip1 ip2 : string) : res bool :=
  try_except_ValueError
    (net1 ← ip_network ip1;
     net2 ← ip_network ip2;
     Ok (overlaps net1 net2))
    (Ok true).

(** [_ip_contains] *)
Definition _ip_contains (general specific : option string) : res bool :=
  try_except_ValueError
    (match general with
     | None => Ok true
     | Some g =>
         match specific with
         | None => Ok false
         | Some s =>
             general_net ← ip_network g;
             specific_net ← ip_network s;
             sup ← supernet_of general_net specific_net;
             Ok (sup || network_eqb general_net specific_net)
         end
     end)
    (Ok (bool_decide (general = specific))).

(** [_create_rule_signature] *)
Definition _create_rule_signature (rule : FirewallRule) : string :=
  join "|" [chain rule; target rule;
            or_empty (protocol rule); or_empty (source_ip rule);
            or_empty (destination_ip rule); or_empty (source_port rule);
            or_empty (destination_port rule); or_empty (interface_in rule);
            or_empty (interface_out rule); or_empty (state rule)].

(** [_rules_match_same_traffic]: the loop over the criteria, leaving with
    [False] at the first criterion that tells the two rules apart. *)
Fixpoint match_criteria (criteria : list criterion)
    (rule1 rule2 : FirewallRule) : res bool :=
  match criteria with
  | [] => Ok true
  | c :: criteria' =>
      match getattr rule1 c, getattr rule2 c with
      | Some val1, Some val2 =>
          if bool_decide (val1 ≠ val2) then
            if is_ip_criterion c then
              ov ← _ip_ranges_overlap val1 val2;
              if negb ov then Ok false
              else match_criteria criteria' rule1 rule2
            else Ok false
          else match_criteria criteria' rule1 rule2
      | _, _ => match_criteria criteria' rule1 rule2
      end
  end.

Definition same_traffic_criteria : list criterion :=
  [c_protocol; c_source_ip; c_destination_ip; c_source_port;
   c_destination_port; c_interface_in; c_interface_out].

Definition _rules_match_same_traffic (rule1 rule2 : FirewallRule)
  : res bool :=
  match_criteria same_traffic_criteria rule1 rule2.

(** [_rules_conflict] *)
Definition _rules_conflict (rule1 rule2 : FirewallRule) : res bool :=
  if bool_decide (target rule1 = target rule2) then Ok false
  else
    same ← _rules_match_same_traffic rule1 rule2;
    Ok (same && bool_decide (target rule1 ≠ target rule2)
        && is_terminal (target rule1) && is_terminal (target rule2)).

(** [_is_more_general] *)
Definition restriction_count (rule : FirewallRule) : nat :=
  length (filter (fun c => getattr rule c ≠ None)
            [c_protocol; c_source_ip; c_destination_ip; c_source_port;
             c_destination_port]).

Definition _is_more_general (rule1 rule2 : FirewallRule) : bool :=
  bool_decide (restriction_count rule1 < restriction_count rule2)%nat.

(** [_rule_covers_completely]: each attribute with its check; the loop
    leaves with [False] at the first check that fails. *)
Definition covers_check (c : criterion) (g s : option string) : res bool :=
  match c with
  | c_source_ip | c_destination_ip =>
      match g with None => Ok true | Some _ => _ip_contains g s end
  | c_source_port | c_destination_port =>
      match g with None => Ok true | Some _ => _port_contains g s end
  | c_protocol | c_interface_in | c_interface_out =>
      Ok (bool_decide (g = None) || bool_decide (g = s))
  end.

Fixpoint covers_criteria (criteria : list criterion)
    (general_rule specific_rule : FirewallRule) : res bool :=
  match criteria with
  | [] => Ok true
  | c :: criteria' =>
      ok ← covers_check c (getattr general_rule c) (getattr specific_rule c);
      if negb ok then Ok false
      else covers_criteria criteria' general_rule specific_rule
  end.

Definition _rule_covers_completely (general_rule specific_rule : FirewallRule)
  : res bool :=
  covers_criteria same_traffic_criteria general_rule specific_rule.

(** [_check_redundant_rules]; the loop state is the [seen_rules]
    dictionary and the result. *)
Definition redundant_issue (original_rule rule : FirewallRule) : RuleIssue :=
  {| issue_type := REDUNDANT;
     severity := SEV_MEDIUM;
     description := "Redundant rule found: duplicate of rule at line "
                    +:+ str_of_int (line_number original_rule);
     affected_rules := [original_rule; rule];
     recommendation := "Remove the duplicate rule to improve performance and reduce complexity" |}.

Definition redundant_step (st : gmap string FirewallRule * AnalysisResult)
    (rule : FirewallRule) : gmap string FirewallRule * AnalysisResult :=
  let '(seen_rules, result) := st in
  let signature := _create_rule_signature rule in
  match seen_rules !! signature with
  | Some original_rule =>
      (seen_rules, add_issue result (redundant_issue original_rule rule))
  | None => (<[signature := rule]> seen_rules, result)
  end.

Definition _check_redundant_rules (rules : list FirewallRule)
    (result : AnalysisResult) : AnalysisResult :=
  snd (fold_left redundant_step rules (∅, result)).

(** [_check_conflicting_rules] *)
Definition conflict_severity (rule1 rule2 : FirewallRule) : IssueSeverity :=
  if bool_decide (target rule1 = "DROP") || bool_decide (target rule2 = "DROP")
  then SEV_HIGH else SEV_MEDIUM.

Definition conflicting_issue (rule1 rule2 : FirewallRule) : RuleIssue :=
  {| issue_type := CONFLICTING;
     severity := conflict_severity rule1 rule2;
     description := "Conflicting rules: " +:+ target rule1 +:+ " vs "
                    +:+ target rule2 +:+ " for same traffic";
     affected_rules := [rule1; rule2];
     recommendation := "Review rule order and consolidate conflicting rules" |}.

(** The inner loop, [for rule2 in rules[i+1:]]. *)
Definition conflicts_with_later (rule1 : FirewallRule)
    (later : list FirewallRule) (result : AnalysisResult)
  : res AnalysisResult :=
  for_each later (fun rule2 (result : AnalysisResult) =>
    conflict ← _rules_conflict rule1 rule2;
    if (conflict : bool)
    then Ok (add_issue result (conflicting_issue rule1 rule2))
    else Ok result) result.

Definition _check_conflicting_rules (rules : list FirewallRule)
    (result : AnalysisResult) : res AnalysisResult :=
  for_each (enumerate rules) (fun '(i, rule1) (result : AnalysisResult) =>
    conflicts_with_later rule1 (drop (S i) rules) result) result.

(** [_check_rule_ordering] *)
Definition ordering_issue (earlier_rule rule : FirewallRule) : RuleIssue :=
  {| issue_type := INEFFICIENT_ORDER;
     severity := SEV_MEDIUM;
     description := "Specific rule at line " +:+ str_of_int (line_number rule)
                    +:+ " comes after general rule at line "
                    +:+ str_of_int (line_number earlier_rule);
     affected_rules := [earlier_rule; rule];
     recommendation := "Move more specific rules before general ones for better performance" |}.

Definition _check_rule_ordering (rules : list FirewallRule)
    (result : AnalysisResult) : res AnalysisResult :=
  for_each (enumerate rules) (fun '(i, rule) (result : AnalysisResult) =>
    for_each (range i) (fun j (result : AnalysisResult) =>
      earlier_rule ← getitem rules j;
      if _is_more_general earlier_rule rule
         && bool_decide (target rule ≠ target earlier_rule)
      then Ok (add_issue result (ordering_issue earlier_rule rule))
      else Ok result) result) result.

(** [_check_unreachable_rules] *)
Definition unreachable_issue (earlier_rule rule : FirewallRule) : RuleIssue :=
  {| issue_type := UNREACHABLE;
     severity := SEV_MEDIUM;
     description := "Rule at line " +:+ str_of_int (line_number rule)
                    +:+ " is unreachable due to rule at line "
                    +:+ str_of_int (line_number earlier_rule);
     affected_rules := [earlier_rule; rule];
     recommendation := "Remove unreachable rule or reorder rules" |}.

(** The inner loop, [for j in range(i)], left at the first earlier rule
    that covers [rule] and is terminal. *)
Definition scan_earlier_rules (rules : list FirewallRule) (js : list nat)
    (rule : FirewallRule) (result : AnalysisResult) : res AnalysisResult :=
  for_each_break js (fun j (result : AnalysisResult) =>
    earlier_rule ← getitem rules j;
    covers ← _rule_covers_completely earlier_rule rule;
    if covers && is_terminal (target earlier_rule)
    then Ok (Break (add_issue result (unreachable_issue earlier_rule rule)))
    else Ok (Next result)) result.

Definition _check_unreachable_rules (rules : list FirewallRule)
    (result : AnalysisResult) : res AnalysisResult :=
  for_each (enumerate rules) (fun '(i, rule) (result : AnalysisResult) =>
    scan_earlier_rules rules (range i) rule result) result.

(** [_check_security_issues] *)
Definition admin_port_issue (rule : FirewallRule) : RuleIssue :=
  {| issue_type := SECURITY_RISK;
     severity := SEV_HIGH;
     description := "Administrative port "
                    +:+ or_empty (destination_port rule)
                    +:+ " open to all sources";
     affected_rules := [rule];
     recommendation := "Restrict access to administrative ports to specific source IPs" |}.

Definition missing_log_issue (rule : FirewallRule) : RuleIssue :=
  {| issue_type := MISSING_LOG;
     severity := SEV_LOW;
     description := "DROP rule without logging";
     affected_rules := [rule];
     recommendation := "Consider adding logging to DROP rules for security monitoring" |}.

Definition security_step (result : AnalysisResult) (rule : FirewallRule)
  : AnalysisResult :=
  let result :=
    if bool_decide (target rule = "ACCEPT")
       && bool_decide (source_ip rule ∈ [None; Some "0.0.0.0/0"; Some "any"])
       && bool_decide (destination_port rule ∈ [Some "22"; Some "3389"; Some "23"])
    then add_issue result (admin_port_issue rule)
    else result in
  if bool_decide (target rule = "DROP")
     && negb (has_substring "LOG" (raw_rule rule))
  then add_issue result (missing_log_issue rule)
  else result.

Definition _check_security_issues (rules : list FirewallRule)
    (result : AnalysisResult) : AnalysisResult :=
  fold_left security_step rules result.

(** [_check_permissive_rules] *)
Definition permissive_issue (rule : FirewallRule) : RuleIssue :=
  {| issue_type := OVERLY_PERMISSIVE;
     severity := SEV_HIGH;
     description := "Rule accepts all traffic without restrictions";
     affected_rules := [rule];
     recommendation := "Add specific restrictions to limit the scope of this rule" |}.

Definition permissive_step (result : AnalysisResult) (rule : FirewallRule)
  : AnalysisResult :=
  if bool_decide (target rule = "ACCEPT")
     && negb (truthy (source_ip rule))
     && negb (truthy (destination_ip rule))
     && negb (truthy (destination_port rule))
     && negb (truthy (protocol rule))
  then add_issue result (permissive_issue rule)
  else result.

Definition _check_permissive_rules (rules : list FirewallRule)
    (result : AnalysisResult) : AnalysisResult :=
  fold_left permissive_step rules result.

(** [_calculate_statistics] *)
Definition stat_add (k : string) (n : Z) (stats : gmap string Z)
  : gmap string Z :=
  <[k := default 0 (stats !! k) + n]> stats.

Definition builtin_chains : list string :=
  ["INPUT"; "OUTPUT"; "FORWARD"; "PREROUTING"; "POSTROUTING"].

Definition count_rule (stats : gmap string Z) (rule : FirewallRule)
  : gmap string Z :=
  if bool_decide (target rule = "ACCEPT") then stat_add "accept_rules" 1 stats
  else if bool_decide (target rule = "DROP") then stat_add "drop_rules" 1 stats
  else if bool_decide (target rule = "REJECT")
       then stat_add "reject_rules" 1 stats
  else stats.

Definition count_chain (stats : gmap string Z)
    (entry : string * list FirewallRule) : gmap string Z :=
  let '(chain_name, rules) := entry in
  let stats := stat_add "total_rules" (Z.of_nat (length rules)) stats in
  let stats :=
    if bool_decide (chain_name ∉ builtin_chains)
    then stat_add "custom_chains" 1 stats else stats in
  fold_left count_rule rules stats.

Definition count_table (stats : gmap string Z) (entry : string * Chains)
  : gmap string Z :=
  let '(table_name, chains) := entry in
  let stats := stat_add "total_chains" (Z.of_nat (length chains)) stats in
  fold_left count_chain chains stats.

Definition _calculate_statistics (tables : Tables) : gmap string Z :=
  let stats : gmap string Z :=
    {[ "total_rules" := 0; "total_chains" := 0;
       "total_tables" := Z.of_nat (length tables);
       "accept_rules" := 0; "drop_rules" := 0; "reject_rules" := 0;
       "custom_chains" := 0 ]} in
  fold_left count_table tables stats.

(** [_calculate_efficiency_score] *)
Definition efficiency_step (base_score : Z) (issue : RuleIssue) : Z :=
  match issue_type issue with
  | REDUNDANT => base_score - 5
  | INEFFICIENT_ORDER => base_score - 3
  | UNREACHABLE => base_score - 4
  | _ => base_score
  end.

Definition _calculate_efficiency_score (result : AnalysisResult) : Z :=
  let base_score := fold_left efficiency_step (issues result) 100 in
  Z.max 0 (Z.min 100 base_score).

(** [_calculate_security_score] *)
Definition security_score_step (base_score : Z) (issue : RuleIssue) : Z :=
  match issue_type issue with
  | SECURITY_RISK =>
      match severity issue with
      | SEV_CRITICAL => base_score - 20
      | SEV_HIGH => base_score - 15
      | SEV_MEDIUM => base_score - 10
      | SEV_LOW => base_score
      end
  | OVERLY_PERMISSIVE => base_score - 8
  | _ => base_score
  end.

Definition _calculate_security_score (result : AnalysisResult) : Z :=
  let base_score := fold_left security_score_step (issues result) 100 in
  Z.max 0 (Z.min 100 base_score).

(** [analyze_configuration]: the body run for one chain, then the whole
    function on the contents of [config.tables]. *)
Definition analyze_chain (rules : list FirewallRule) (result : AnalysisResult)
  : res AnalysisResult :=
  if bool_decide (rules = []) then Ok result
  else
    let result := _check_redundant_rules rules result in
    result ← _check_conflicting_rules rules result;
    result ← _check_rule_ordering rules result;
    result ← _check_unreachable_rules rules result;
    let result := _check_security_issues rules result in
    Ok (_check_permissive_rules rules result).

Definition analyze_tables (tables : Tables) : res AnalysisResult :=
  result ← for_each tables (fun '(table_name, chains) (result : AnalysisResult) =>
              for_each chains (fun '(chain_name, rules) (result : AnalysisResult) =>
                analyze_chain rules result) result) new_AnalysisResult;
  let result := {| issues := issues result;
                   statistics := _calculate_statistics tables;
                   rule_efficiency_score := rule_efficiency_score result;
                   security_score := security_score result |} in
  let result := {| issues := issues result;
                   statistics := statistics result;
                   rule_efficiency_score := _calculate_efficiency_score result;
                   security_score := security_score result |} in
  Ok {| issues := issues result;
        statistics := statistics result;
        rule_efficiency_score := rule_efficiency_score result;
        security_score := _calculate_security_score result |}.

End Analyzer.

Inductive ChainPolicy := POLICY_ACCEPT | POLICY_DROP | POLICY_REJECT.

Record ChainInfo := {
  name : string;
  policy : ChainPolicy;
  packet_count : Z;
  byte_count : Z;
  is_user_defined : bool
}.

(** [FirewallConfig], by value. *)
Record FirewallConfig := {
  tables : Tables;
  chains : list (string * ChainInfo);
  comments : list string
}.

(** The argument of [analyze_configuration] is a reference that may be
    [None]; the first thing the function does with it is read
    [config.tables], which on [None] raises AttributeError. *)
Definition analyze_configuration {L : IpLib} (config : option FirewallConfig)
  : res AnalysisResult :=
  match config with
  | None => Raise AttributeError
  | Some cfg => analyze_tables (tables cfg)
  end.

(** ** Recommendations and plans ([recommender.py]) *)

Inductive RecommendationType :=
| DELETE_RULE | REORDER_RULES | MERGE_RULES | SPLIT_RULE
| MODIFY_RULE | ADD_RULE | ADD_LOGGING | RESTRICT_SOURCE.

Inductive RecommendationPriority :=
| PRIO_LOW | PRIO_MEDIUM | PRIO_HIGH | PRIO_CRITICAL.

#[global] Instance RecommendationType_eq_dec : EqDecision RecommendationType.
Proof. solve_decision. Defined.
#[global] Instance RecommendationPriority_eq_dec :
  EqDecision RecommendationPriority.
Proof. solve_decision. Defined.

(** [priority.value] *)
Definition priority_value (p : RecommendationPriority) : Z :=
  match p with
  | PRIO_LOW => 1 | PRIO_MEDIUM => 2 | PRIO_HIGH => 3 | PRIO_CRITICAL => 4
  end.

Record Recommendation := {
  rec_type : RecommendationType;
  priority : RecommendationPriority;
  title : string;
  rec_description : string;
  rec_affected_rules : list FirewallRule;
  new_rules : list FirewallRule;
  implementation_notes : string;
  risk_level : string;
  estimated_impact : string
}.

(** [OptimizationPlan]; [estimated_savings] holds float percentages that
    no function modelled here reads, and is left out. *)
Record OptimizationPlan := {
  recommendations : list Recommendation;
  backup_required : bool
}.

Definition new_OptimizationPlan : OptimizationPlan :=
  {| recommendations := []; backup_required := true |}.

Definition add_recommendation (plan : OptimizationPlan)
    (recommendation : Recommendation) : OptimizationPlan :=
  {| recommendations := recommendations plan ++ [recommendation];
     backup_required := backup_required plan |}.

Definition get_by_type (plan : OptimizationPlan) (t : RecommendationType)
  : list Recommendation :=
  filter (fun rec => rec_type rec = t) (recommendations plan).

(** The recommendation [_handle_unreachable_rules] builds for a shadowed
    rule. *)
Definition unreachable_delete_recommendation (unreachable_rule : FirewallRule)
  : Recommendation :=
  {| rec_type := DELETE_RULE;
     priority := PRIO_MEDIUM;
     title := "Remove unreachable rule at line "
              +:+ str_of_int (line_number unreachable_rule);
     rec_description := "This rule will never be executed due to previous rules matching all its traffic.";
     rec_affected_rules := [unreachable_rule];
     new_rules := [];
     implementation_notes := "Remove rule: " +:+ raw_rule unreachable_rule;
     risk_level := "low";
     estimated_impact := "Reduced rule set complexity" |}.

(** [_check_default_policies] *)
Definition default_drop_recommendation (table_name chain_name : string)
  : Recommendation :=
  let new_rule :=
    new_FirewallRule table_name chain_name "DROP"
      ("-A " +:+ chain_name +:+ " -j DROP") in
  {| rec_type := ADD_RULE;
     priority := PRIO_MEDIUM;
     title := "Add explicit default DROP policy to " +:+ chain_name;
     rec_description := "Add an explicit default DROP rule at the end of the chain for better security.";
     rec_affected_rules := [];
     new_rules := [new_rule];
     implementation_notes := "Add rule: -A " +:+ chain_name +:+ " -j DROP";
     risk_level := "medium";
     estimated_impact := "Improved security posture with explicit default policy" |}.

Definition default_policy_step (table_name : string) (chains : Chains)
    (plan : OptimizationPlan) (chain_name : string) : OptimizationPlan :=
  match dict_get chains chain_name with
  | Some rules =>
      match last rules with
      | Some last_rule =>
          if bool_decide (target last_rule ≠ "DROP")
             || truthy (protocol last_rule)
             || truthy (source_ip last_rule)
             || truthy (destination_ip last_rule)
          then add_recommendation plan
                 (default_drop_recommendation table_name chain_name)
          else plan
      | None => plan
      end
  | None => plan
  end.

Definition _check_default_policies (tables : Tables) (plan : OptimizationPlan)
  : OptimizationPlan :=
  fold_left (fun plan '(table_name, chains) =>
    if bool_decide (table_name = "filter")
    then fold_left (default_policy_step table_name chains)
           ["INPUT"; "FORWARD"; "OUTPUT"] plan
    else plan) tables plan.

(** [sorted(recs, key=lambda x: x.priority.value, reverse=True)]: a stable
    sort, highest priority first; recommendations of equal priority keep
    their order. *)
Fixpoint insert_by_priority (rec : Recommendation) (sorted : list Recommendation)
  : list Recommendation :=
  match sorted with
  | [] => [rec]
  | r :: sorted' =>
      if priority_value (priority rec) <? priority_value (priority r)
      then r :: insert_by_priority rec sorted'
      else rec :: sorted
  end.

Definition sorted_by_priority (recs : list Recommendation)
  : list Recommendation :=
  foldr insert_by_priority [] recs.

(** ** The store

    The plan applier works on dictionaries and lists that are shared and
    updated in place.  A store holds these containers; a location is the
    identity of one of them.  New containers are added at the end, and
    nothing is ever freed.  Rules are never modified once built, so a
    list holds them by value. *)
Abbreviation loc := nat (only parsing).

Inductive obj :=
| ODict (entries : list (string * loc))
| OList (items : list FirewallRule).

Abbreviation store := (list obj) (only parsing).

Definition get_dict (h : store) (l : loc) : res (list (string * loc)) :=
  match h !! l with
  | Some (ODict entries) => Ok entries
  | _ => Raise TypeError
  end.

Definition get_list (h : store) (l : loc) : res (list FirewallRule) :=
  match h !! l with
  | Some (OList items) => Ok items
  | _ => Raise TypeError
  end.

(** A fresh container. *)
Definition alloc (h : store) (o : obj) : loc * store :=
  (length h, h ++ [o]).

(** [d[k]] *)
Definition dict_getitem {V} (d : list (string * V)) (k : string) : res V :=
  match dict_get d k with
  | Some v => Ok v
  | None => Raise KeyError
  end.

(** [d[k] = v]: the value of an existing key is replaced where it stands,
    a new key goes to the end. *)
Fixpoint dict_set {V} (d : list (string * V)) (k : string) (v : V)
  : list (string * V) :=
  match d with
  | [] => [(k, v)]
  | (k', v') :: d' =>
      if bool_decide (k' = k) then (k, v) :: d'
      else (k', v') :: dict_set d' k v
  end.

(** [k in d] *)
Definition dict_has {V} (d : list (string * V)) (k : string) : bool :=
  bool_decide (is_Some (dict_get d k)).

(** [FirewallConfig] as an object: [tables] refers to a dictionary in the
    store.  [chains] and [comments] are copied by [deepcopy] and never
    written to by the applier, so they are held by value. *)
Record FirewallConfigRef := {
  tables_ref : loc;
  chains_info : list (string * ChainInfo);
  comment_lines : list string
}.

(** The contents of a stored policy, read out by value. *)
Fixpoint read_entries {V} (read_value : loc -> res V)
    (entries : list (string * loc)) : res (list (string * V)) :=
  match entries with
  | [] => Ok []
  | (k, l) :: entries' =>
      v ← read_value l;
      rest ← read_entries read_value entries';
      Ok ((k, v) :: rest)
  end.

Definition read_chains (h : store) (d : loc) : res Chains :=
  entries ← get_dict h d; read_entries (get_list h) entries.

Definition read_tables (h : store) (t : loc) : res Tables :=
  entries ← get_dict h t; read_entries (read_chains h) entries.

Definition read_config (h : store) (config : FirewallConfigRef)
  : res FirewallConfig :=
  tbls ← read_tables h (tables_ref config);
  Ok {| tables := tbls; chains := chains_info config;
        comments := comment_lines config |}.

(** [config.tables[table_name][chain_name]], if both keys are there. *)
Definition lookup_chain (h : store) (config : FirewallConfigRef)
    (table_name chain_name : string) : option (list FirewallRule) :=
  match get_dict h (tables_ref config) with
  | Ok table_entries =>
      match dict_get table_entries table_name with
      | Some d =>
          match get_dict h d with
          | Ok chain_entries =>
              match dict_get chain_entries chain_name with
              | Some l =>
                  match get_list h l with
                  | Ok rules => Some rules
                  | Raise _ => None
                  end
              | None => None
              end
          | Raise _ => None
          end
      | None => None
      end
  | Raise _ => None
  end.

(** ** [copy.deepcopy]

    Every container reachable from the policy is copied into a fresh one;
    the memo maps a container already copied to its copy, so that sharing
    inside the original is reproduced in the copy.  (A policy is a
    dictionary of dictionaries of lists, so no container holds itself.) *)
Abbreviation copy_state := (list obj * gmap nat nat)%type (only parsing).

Definition copy_list (l : loc) (st : copy_state) : res (loc * copy_state) :=
  let '(h, memo) := st in
  match memo !! l with
  | Some l' => Ok (l', st)
  | None =>
      rules ← get_list h l;
      Ok (length h, (h ++ [OList rules], <[l := length h]> memo))
  end.

Fixpoint copy_entries (copy_value : loc -> copy_state -> res (loc * copy_state))
    (entries : list (string * loc)) (st : copy_state)
  : res (list (string * loc) * copy_state) :=
  match entries with
  | [] => Ok ([], st)
  | (k, v) :: entries' =>
      '(v', st) ← copy_value v st;
      '(rest, st) ← copy_entries copy_value entries' st;
      Ok ((k, v') :: rest, st)
  end.

Definition copy_dict (copy_value : loc -> copy_state -> res (loc * copy_state))
    (d : loc) (st : copy_state) : res (loc * copy_state) :=
  let '(h, memo) := st in
  match memo !! d with
  | Some d' => Ok (d', st)
  | None =>
      entries ← get_dict h d;
      '(entries', (h', memo')) ← copy_entries copy_value entries st;
      Ok (length h', (h' ++ [ODict entries'], <[d := length h']> memo'))
  end.

Definition deepcopy (config : FirewallConfigRef) (h : store)
  : res (FirewallConfigRef * store) :=
  '(t', (h', _)) ← copy_dict (copy_dict copy_list) (tables_ref config) (h, ∅);
  Ok ({| tables_ref := t'; chains_info := chains_info config;
         comment_lines := comment_lines config |}, h').

(** ** The plan applier ([recommender.py]) *)

(** [xs.remove(x)]: the first element equal to [x] goes; ValueError if
    there is none. *)
Fixpoint list_remove_first (x : FirewallRule) (xs : list FirewallRule)
  : res (list FirewallRule) :=
  match xs with
  | [] => Raise ValueError
  | y :: xs' =>
      if bool_decide (y = x) then Ok xs'
      else rest ← list_remove_first x xs'; Ok (y :: rest)
  end.

(** [_apply_delete_recommendation]: for each table, the loop over its
    chains stops at the first chain that holds the rule. *)
Definition delete_from_chains (rule : FirewallRule)
    (chain_entries : list (string * loc)) (h : store) : res store :=
  for_each_break chain_entries (fun '(chain_name, l) (h : store) =>
    rules ← get_list h l;
    if bool_decide (rule ∈ rules) then
      rules' ← list_remove_first rule rules;
      Ok (Break (<[l := OList rules']> h))
    else Ok (Next h)) h.

Definition delete_from_tables (rule : FirewallRule)
    (table_entries : list (string * loc)) (h : store) : res store :=
  for_each table_entries (fun '(table_name, d) (h : store) =>
    chain_entries ← get_dict h d;
    delete_from_chains rule chain_entries h) h.

Definition delete_rule (config : FirewallConfigRef) (rule : FirewallRule)
    (h : store) : res store :=
  table_entries ← get_dict h (tables_ref config);
  delete_from_tables rule table_entries h.

Definition _apply_delete_recommendation (config : FirewallConfigRef)
    (rec : Recommendation) (h : store) : res store :=
  for_each (rec_affected_rules rec) (delete_rule config) h.

(** [_apply_add_recommendation] *)
Definition add_rule (config : FirewallConfigRef) (new_rule : FirewallRule)
    (h : store) : res store :=
  let table := table new_rule in
  let chain := chain new_rule in
  table_entries ← get_dict h (tables_ref config);
  h ← (if negb (dict_has table_entries table) then
         let '(d, h) := alloc h (ODict []) in
         Ok (<[tables_ref config := ODict (dict_set table_entries table d)]> h)
       else Ok h);
  table_entries ← get_dict h (tables_ref config);
  d ← dict_getitem table_entries table;
  chain_entries ← get_dict h d;
  h ← (if negb (dict_has chain_entries chain) then
         let '(l, h) := alloc h (OList []) in
         Ok (<[d := ODict (dict_set chain_entries chain l)]> h)
       else Ok h);
  chain_entries ← get_dict h d;
  l ← dict_getitem chain_entries chain;
  rules ← get_list h l;
  Ok (<[l := OList (rules ++ [new_rule])]> h).

Definition _apply_add_recommendation (config : FirewallConfigRef)
    (rec : Recommendation) (h : store) : res store :=
  for_each (new_rules rec) (add_rule config) h.

(** [generate_optimized_config]: the loop over the sorted
    recommendations, and the whole function. *)
Definition apply_recommendation (config : FirewallConfigRef)
    (rec : Recommendation) (h : store) : res store :=
  match rec_type rec with
  | DELETE_RULE => _apply_delete_recommendation config rec h
  | ADD_RULE => _apply_add_recommendation config rec h
  | _ => Ok h
  end.

Definition apply_recommendations (config : FirewallConfigRef)
    (recs : list Recommendation) (h : store) : res store :=
  for_each recs (apply_recommendation config) h.

Definition generate_optimized_config (original_config : FirewallConfigRef)
    (plan : OptimizationPlan) (h : store) : res (FirewallConfigRef * store) :=
  '(optimized_config, h) ← deepcopy original_config h;
  let sorted_recs := sorted_by_priority (recommendations plan) in
  h ← apply_recommendations optimized_config sorted_recs h;
  Ok (optimized_config, h).

(** ** Stored policies used in examples *)
Module StoredScenario.

(** A policy object whose [tables] is container 0: one table, one chain. *)
Definition config : FirewallConfigRef :=
  {| tables_ref := 0%nat; chains_info := []; comment_lines := [] |}.

Definition store_of (rules : list FirewallRule) : store :=
  [ODict [("filter", 1%nat)]; ODict [("INPUT", 2%nat)]; OList rules].

Definition plan_of (recs : list Recommendation) : OptimizationPlan :=
  {| recommendations := recs; backup_required := true |}.

End StoredScenario.

(** ** A reference instance of the address library

    The IPv4 fragment of [ipaddress.ip_network(s, strict=False)]: a dotted
    quad of decimal octets without leading zeros, optionally followed by
    [/] and a decimal prefix length of at most 32; every other string is
    rejected with ValueError.  A network is its (masked) network address
    and its prefix length.  The theorems of this file hold for every
    implementation of the interface; this one serves to run the analyzer
    on concrete policies. *)
Module IPv4.

Fixpoint decimal (s : string) (acc : Z) : option Z :=
  match s with
  | EmptyString => Some acc
  | String a s' =>
      match digit_of a with
      | Some d => decimal s' (10 * acc + d)
      | None => None
      end
  end.

Definition octet (s : string) : option Z :=
  match s with
  | EmptyString => None
  | String a s' =>
      if (3 <? String.length s)%nat then None
      else if bool_decide (a = "0"%char) && negb (bool_decide (s' = ""))
      then None
      else match decimal s 0 with
           | Some n => if n <=? 255 then Some n else None
           | None => None
           end
  end.

Definition address (s : string) : option Z :=
  match split_on "." s with
  | [a; b; c; d] =>
      a ← octet a; b ← octet b; c ← octet c; d ← octet d;
      Some (Z.lor (Z.shiftl a 24)
              (Z.lor (Z.shiftl b 16) (Z.lor (Z.shiftl c 8) d)))
  | _ => None
  end.

Definition prefix_length (s : string) : option Z :=
  match s with
  | EmptyString => None
  | _ => match decimal s 0 with
         | Some n => if n <=? 32 then Some n else None
         | None => None
         end
  end.

Record net := { net_addr : Z; prefixlen : Z }.

Definition hostmask (n : net) : Z := Z.ones (32 - prefixlen n).
Definition netmask (n : net) : Z := Z.lxor (Z.ones 32) (hostmask n).
(** [strict=False]: the host bits of the given address are dropped. *)
Definition network_address (n : net) : Z := Z.land (net_addr n) (netmask n).
Definition broadcast_address (n : net) : Z :=
  Z.lor (network_address n) (hostmask n).

Definition parse (s : string) : res net :=
  match split_on "/" s with
  | [a] =>
      match address a with
      | Some addr => Ok {| net_addr := addr; prefixlen := 32 |}
      | None => Raise ValueError
      end
  | [a; p] =>
      match address a, prefix_length p with
      | Some addr, Some len => Ok {| net_addr := addr; prefixlen := len |}
      | _, _ => Raise ValueError
      end
  | _ => Raise ValueError
  end.

(** [addr in n] *)
Definition contains (n : net) (addr : Z) : bool :=
  Z.land addr (netmask n) =? network_address n.

Definition net_overlaps (a b : net) : bool :=
  contains b (network_address a) || contains b (broadcast_address a)
  || contains a (network_address b) || contains a (broadcast_address b).

Definition net_supernet_of (a b : net) : res bool :=
  Ok ((network_address a <=? network_address b)
      && (broadcast_address b <=? broadcast_address a)).

Definition net_eqb (a b : net) : bool :=
  (network_address a =? network_address b) && (prefixlen a =? prefixlen b).

End IPv4.

#[global, refine] Instance ipv4_lib : IpLib := {|
  network := IPv4.net;
  ip_network := IPv4.parse;
  overlaps := IPv4.net_overlaps;
  supernet_of := IPv4.net_supernet_of;
  network_eqb := IPv4.net_eqb
|}.
Proof.
  - intros s e. unfold IPv4.parse. repeat case_match; congruence.
  - intros n. unfold IPv4.net_overlaps, IPv4.contains, IPv4.network_address.
    rewrite <- Z.land_assoc, Z.land_diag, Z.eqb_refl. reflexivity.
Defined.

(** ** Concrete policies

    Rules as [parse_iptables_save] builds them: the constructor runs with
    an empty target, so [jump_target] is the empty string, and the fields
    are then assigned from the text. *)
Module Scenario.

(** [-A INPUT -p tcp --dport <port> -j <target>] read at line [n] *)
Definition tcp_dport_rule (n : Z) (port tgt : string) : FirewallRule :=
  {| table := "filter"; chain := "INPUT"; target := tgt;
     protocol := Some "tcp"; source_ip := None; destination_ip := None;
     source_port := None; destination_port := Some port;
     interface_in := None; interface_out := None;
     state := None; module := None; jump_target := Some "";
     line_number := n;
     raw_rule := "-A INPUT -p tcp --dport " +:+ port +:+ " -j " +:+ tgt;
     parameters := {[ "p" := PStr "tcp"; "dport" := PStr port;
                      "j" := PStr tgt ]} |}.

(** [-A INPUT -j DROP] read at line [n] *)
Definition drop_all_rule (n : Z) : FirewallRule :=
  {| table := "filter"; chain := "INPUT"; target := "DROP";
     protocol := None; source_ip := None; destination_ip := None;
     source_port := None; destination_port := None;
     interface_in := None; interface_out := None;
     state := None; module := None; jump_target := Some "";
     line_number := n; raw_rule := "-A INPUT -j DROP";
     parameters := {[ "j" := PStr "DROP" ]} |}.

Definition config_of (rules : list FirewallRule) : FirewallConfig :=
  {| tables := [("filter", [("INPUT", rules)])];
     chains := []; comments := [] |}.

(** Two identical SSH rules, then a catch-all drop. *)
Definition ssh1 := tcp_dport_rule 1 "22" "ACCEPT".
Definition ssh2 := tcp_dport_rule 2 "22" "ACCEPT".
Definition drop3 := drop_all_rule 3.
Definition duplicate_policy : FirewallConfig := config_of [ssh1; ssh2; drop3].

(** Two catch-all drops, then a web rule that both of them shadow. *)
Definition drop1 := drop_all_rule 1.
Definition drop2 := drop_all_rule 2.
Definition web3 := tcp_dport_rule 3 "80" "ACCEPT".
Definition shadowed_chain : list FirewallRule := [drop1; drop2; web3].

(** [-A INPUT -i eth0 -j DROP] read at line [n]: a drop restricted to
    one ingress interface. *)
Definition eth0_drop_rule (n : Z) : FirewallRule :=
  {| table := "filter"; chain := "INPUT"; target := "DROP";
     protocol := None; source_ip := None; destination_ip := None;
     source_port := None; destination_port := None;
     interface_in := Some "eth0"; interface_out := None;
     state := None; module := None; jump_target := Some "";
     line_number := n; raw_rule := "-A INPUT -i eth0 -j DROP";
     parameters := {[ "i" := PStr "eth0"; "j" := PStr "DROP" ]} |}.

(** A web rule, then a drop for a port range that includes its port. *)
Definition web1 := tcp_dport_rule 1 "80" "ACCEPT".
Definition range2 := tcp_dport_rule 2 "80:90" "DROP".

End Scenario.

(** A result with one issue of each kind that the scores tell apart, and
    two that they pass over. *)
Module ScoredResult.

Definition issue_of (t : IssueType) (s : IssueSeverity) : RuleIssue :=
  {| issue_type := t; severity := s; description := "";
     affected_rules := []; recommendation := "" |}.

Definition result : AnalysisResult :=
  {| issues := [issue_of REDUNDANT SEV_MEDIUM;
                issue_of INEFFICIENT_ORDER SEV_MEDIUM;
                issue_of UNREACHABLE SEV_MEDIUM;
                issue_of SECURITY_RISK SEV_CRITICAL;
                issue_of SECURITY_RISK SEV_HIGH;
                issue_of SECURITY_RISK SEV_MEDIUM;
                issue_of SECURITY_RISK SEV_LOW;
                issue_of OVERLY_PERMISSIVE SEV_HIGH;
                issue_of CONFLICTING SEV_HIGH];
     statistics := ∅; rule_efficiency_score := 0; security_score := 0 |}.

End ScoredResult.

(** ** Rule validation ([parser.py]) *)

(** [s.split(c, 1)]: at most one split, at the first separator. *)
Fixpoint split_once (c : ascii) (s : string) : list string :=
  match s with
  | EmptyString => [""]
  | String a s' =>
      if bool_decide (a = c) then [""; s']
      else match split_once c s' with
           | p :: ps => String a p :: ps
           | [] => [String a ""]
           end
  end.

(** [_is_valid_port] ([validate_port] of [utils.py] has the same body). *)
Definition _is_valid_port (port_str : string) : res bool :=
  try_except_ValueError
    (if has_char ":" port_str then
       match split_once ":" port_str with
       | [start; end_] =>
           s1 ← int start;
           if negb ((1 <=? s1) && (s1 <=? 65535)) then Ok false
           else
             e1 ← int end_;
             if negb ((1 <=? e1) && (e1 <=? 65535)) then Ok false
             else Ok (s1 <=? e1)
       | _ => Raise ValueError
       end
     else port ← int port_str; Ok ((1 <=? port) && (port <=? 65535)))
    (Ok false).

(** [_is_valid_ip_or_network] *)
Definition _is_valid_ip_or_network {L : IpLib} (ip_str : string) : res bool :=
  try_except_ValueError (_ ← ip_network ip_str; Ok true) (Ok false).

(** One of the four guarded checks of [validate_rule]:
    [if value and not valid(value): errors.append(message + value)]. *)
Definition check_field (value : option string) (valid : string -> res bool)
    (message : string) (errors : list string) : res (list string) :=
  if truthy value then
    ok ← valid (or_empty value);
    if negb ok then Ok (errors ++ [message +:+ or_empty value])
    else Ok errors
  else Ok errors.

(** [validate_rule] *)
Definition validate_rule {L : IpLib} (rule : FirewallRule)
  : res (bool * list string) :=
  let errors : list string := [] in
  let errors :=
    if bool_decide (chain rule = "")
    then errors ++ ["Rule missing chain specification"] else errors in
  let errors :=
    if bool_decide (target rule = "")
    then errors ++ ["Rule missing target/action"] else errors in
  errors ← check_field (source_ip rule) _is_valid_ip_or_network
             "Invalid source IP: " errors;
  errors ← check_field (destination_ip rule) _is_valid_ip_or_network
             "Invalid destination IP: " errors;
  errors ← check_field (source_port rule) _is_valid_port
             "Invalid source port: " errors;
  errors ← check_field (destination_port rule) _is_valid_port
             "Invalid destination port: " errors;
  Ok (bool_decide (length errors = 0%nat), errors).

(** ** Recommendation handlers ([recommender.py]) *)

(** [str(x)] of an [Optional[str]], as an f-string prints it. *)
Definition str_of_option (o : option string) : string :=
  match o with
  | Some s => s
  | None => "None"
  end.

(** [xs[-1]] *)
Definition getitem_last {A} (xs : list A) : res A :=
  match last xs with
  | Some x => Ok x
  | None => Raise IndexError
  end.

(** [_handle_redundant_rules] *)
Definition redundant_delete_recommendation (primary_rule duplicate : FirewallRule)
  : Recommendation :=
  {| rec_type := DELETE_RULE;
     priority := PRIO_MEDIUM;
     title := "Remove redundant rule at line "
              +:+ str_of_int (line_number duplicate);
     rec_description := "This rule is identical to the rule at line "
                        +:+ str_of_int (line_number primary_rule)
                        +:+ " and can be safely removed.";
     rec_affected_rules := [duplicate];
     new_rules := [];
     implementation_notes := "Delete rule: " +:+ raw_rule duplicate;
     risk_level := "low";
     estimated_impact := "Improved performance, reduced complexity" |}.

Definition _handle_redundant_rules (analysis : AnalysisResult)
    (plan : OptimizationPlan) : OptimizationPlan :=
  fold_left (fun plan issue =>
    match affected_rules issue with
    | primary_rule :: ((_ :: _) as duplicate_rules) =>
        fold_left (fun plan duplicate =>
          add_recommendation plan
            (redundant_delete_recommendation primary_rule duplicate))
          duplicate_rules plan
    | _ => plan
    end) (get_issues_by_type analysis REDUNDANT) plan.

(** [_handle_conflicting_rules] *)
Definition conflict_recommendation (issue : RuleIssue)
    (rule1 rule2 : FirewallRule) : Recommendation :=
  let drop := bool_decide (target rule1 = "DROP")
              || bool_decide (target rule2 = "DROP") in
  {| rec_type := MODIFY_RULE;
     priority := if drop then PRIO_HIGH else PRIO_MEDIUM;
     title := "Resolve conflicting rules";
     rec_description :=
       if drop
       then "Conflicting rules detected with security implications. Consider keeping the more restrictive rule."
       else "Conflicting rules detected. Review and consolidate to ensure intended behavior.";
     rec_affected_rules := affected_rules issue;
     new_rules := [];
     implementation_notes := "Review rules and determine intended behavior, then modify or remove as needed";
     risk_level := "medium";
     estimated_impact := "Predictable firewall behavior" |}.

Definition _handle_conflicting_rules (analysis : AnalysisResult)
    (plan : OptimizationPlan) : OptimizationPlan :=
  fold_left (fun plan issue =>
    match affected_rules issue with
    | rule1 :: rule2 :: _ =>
        add_recommendation plan (conflict_recommendation issue rule1 rule2)
    | _ => plan
    end) (get_issues_by_type analysis CONFLICTING) plan.

(** [_handle_ordering_issues] *)
Definition reorder_recommendation (issue : RuleIssue)
    (general_rule specific_rule : FirewallRule) : Recommendation :=
  {| rec_type := REORDER_RULES;
     priority := PRIO_MEDIUM;
     title := "Reorder rules for better performance";
     rec_description := "Move specific rule (line "
                        +:+ str_of_int (line_number specific_rule)
                        +:+ ") before general rule (line "
                        +:+ str_of_int (line_number general_rule) +:+ ")";
     rec_affected_rules := affected_rules issue;
     new_rules := [];
     implementation_notes := "Move more specific rules earlier in the chain for better performance";
     risk_level := "low";
     estimated_impact := "Improved packet processing performance" |}.

Definition _handle_ordering_issues (analysis : AnalysisResult)
    (plan : OptimizationPlan) : OptimizationPlan :=
  fold_left (fun plan issue =>
    match affected_rules issue with
    | general_rule :: specific_rule :: _ =>
        add_recommendation plan
          (reorder_recommendation issue general_rule specific_rule)
    | _ => plan
    end) (get_issues_by_type analysis INEFFICIENT_ORDER) plan.

(** [_handle_unreachable_rules]; [affected_rules[-1]] raises on an issue
    without rules. *)
Definition _handle_unreachable_rules (analysis : AnalysisResult)
    (plan : OptimizationPlan) : res OptimizationPlan :=
  for_each (get_issues_by_type analysis UNREACHABLE)
    (fun issue (plan : OptimizationPlan) =>
       unreachable_rule ← getitem_last (affected_rules issue);
       Ok (add_recommendation plan
             (unreachable_delete_recommendation unreachable_rule))) plan.

(** [_handle_security_issues]: the security-risk issues, then the
    missing-log issues. *)
Definition restrict_source_recommendation (rule : FirewallRule)
  : Recommendation :=
  {| rec_type := RESTRICT_SOURCE;
     priority := PRIO_HIGH;
     title := "Restrict access to administrative port "
              +:+ str_of_option (destination_port rule);
     rec_description := "Port " +:+ str_of_option (destination_port rule)
                        +:+ " is open to all sources. Limit access to specific trusted IPs.";
     rec_affected_rules := [rule];
     new_rules := [];
     implementation_notes := "Add source IP restriction like '-s 192.168.1.0/24' to rule";
     risk_level := "high";
     estimated_impact := "Reduced attack surface, improved security" |}.

Definition add_logging_recommendation (rule : FirewallRule) : Recommendation :=
  {| rec_type := ADD_LOGGING;
     priority := PRIO_LOW;
     title := "Add logging to DROP rule at line "
              +:+ str_of_int (line_number rule);
     rec_description := "Enable logging for this DROP rule to improve security monitoring.";
     rec_affected_rules := [rule];
     new_rules := [];
     implementation_notes := "Add a LOG rule before the DROP rule with appropriate log prefix";
     risk_level := "low";
     estimated_impact := "Better security monitoring and incident response" |}.

Definition _handle_security_issues (analysis : AnalysisResult)
    (plan : OptimizationPlan) : res OptimizationPlan :=
  plan ← for_each (get_issues_by_type analysis SECURITY_RISK)
           (fun issue (plan : OptimizationPlan) =>
              rule ← getitem (affected_rules issue) 0;
              if has_substring "Administrative port" (description issue)
              then Ok (add_recommendation plan
                         (restrict_source_recommendation rule))
              else Ok plan) plan;
  for_each (get_issues_by_type analysis MISSING_LOG)
    (fun issue (plan : OptimizationPlan) =>
       rule ← getitem (affected_rules issue) 0;
       Ok (add_recommendation plan (add_logging_recommendation rule))) plan.

(** [_handle_permissive_rules] *)
Definition restrict_permissive_recommendation (rule : FirewallRule)
  : Recommendation :=
  {| rec_type := MODIFY_RULE;
     priority := PRIO_HIGH;
     title := "Add restrictions to overly permissive rule";
     rec_description := "This rule accepts all traffic without restrictions. Add specific criteria.";
     rec_affected_rules := [rule];
     new_rules := [];
     implementation_notes := "Add protocol, port, or source IP restrictions to limit rule scope";
     risk_level := "high";
     estimated_impact := "Improved security posture" |}.

Definition _handle_permissive_rules (analysis : AnalysisResult)
    (plan : OptimizationPlan) : res OptimizationPlan :=
  for_each (get_issues_by_type analysis OVERLY_PERMISSIVE)
    (fun issue (plan : OptimizationPlan) =>
       rule ← getitem (affected_rules issue) 0;
       Ok (add_recommendation plan
             (restrict_permissive_recommendation rule))) plan.

(** [get_by_priority] *)
Definition get_by_priority (plan : OptimizationPlan)
    (p : RecommendationPriority) : list Recommendation :=
  filter (fun rec => priority rec = p) (recommendations plan).

(** [_find_mergeable_rules].  The key of [pattern_groups] is the tuple
    (protocol, target, source_ip, interface_in, interface_out); the
    dictionary keeps its keys in the order of their first rule. *)
Definition merge_pattern : Type :=
  option string * string * option string * option string * option string.

Definition pattern_of (rule : FirewallRule) : merge_pattern :=
  (protocol rule, target rule, source_ip rule,
   interface_in rule, interface_out rule).

(** [pattern_groups[pattern].append(rule)], with a new empty group first
    when the pattern is not yet a key. *)
Fixpoint group_append (groups : list (merge_pattern * list FirewallRule))
    (pattern : merge_pattern) (rule : FirewallRule)
  : list (merge_pattern * list FirewallRule) :=
  match groups with
  | [] => [(pattern, [rule])]
  | (p, g) :: groups' =>
      if bool_decide (p = pattern) then (p, g ++ [rule]) :: groups'
      else (p, g) :: group_append groups' pattern rule
  end.

Definition pattern_groups (rules : list FirewallRule)
  : list (merge_pattern * list FirewallRule) :=
  fold_left (fun groups rule =>
    if negb (is_terminal (target rule)) then groups
    else group_append groups (pattern_of rule) rule) rules [].

(** The set of the truthy destination ports of a group. *)
Definition group_ports (group_rules : list FirewallRule) : gset string :=
  fold_left (fun (ports : gset string) rule =>
    if truthy (destination_port rule)
    then {[ or_empty (destination_port rule) ]} ∪ ports
    else ports) group_rules ∅.

Definition _find_mergeable_rules (rules : list FirewallRule)
  : list (list FirewallRule) :=
  fold_left (fun groups '(pattern, group_rules) =>
    if bool_decide (1 < length group_rules)%nat then
      let ports := group_ports group_rules in
      if bool_decide (size ports = length group_rules)
         && bool_decide (1 < size ports)%nat
      then groups ++ [group_rules] else groups
    else groups) (pattern_groups rules) [].

(** [_add_general_optimizations] *)
Definition merge_recommendation (group : list FirewallRule) : Recommendation :=
  {| rec_type := MERGE_RULES;
     priority := PRIO_LOW;
     title := "Consider merging "
              +:+ str_of_int (Z.of_nat (length group)) +:+ " similar rules";
     rec_description := "These rules have similar patterns and might be merged for efficiency.";
     rec_affected_rules := group;
     new_rules := [];
     implementation_notes := "Review rules and merge if they serve the same purpose";
     risk_level := "low";
     estimated_impact := "Simplified rule set" |}.

Definition all_rules_of (tables : Tables) : list FirewallRule :=
  mjoin ((fun '(table_name, chains) => mjoin (snd <$> chains)) <$> tables).

Definition _add_general_optimizations (tables : Tables)
    (plan : OptimizationPlan) : OptimizationPlan :=
  let all_rules := all_rules_of tables in
  let mergeable_groups := _find_mergeable_rules all_rules in
  let plan :=
    fold_left (fun plan group =>
      if bool_decide (1 < length group)%nat
      then add_recommendation plan (merge_recommendation group)
      else plan) mergeable_groups plan in
  _check_default_policies tables plan.

(** [generate_recommendations].  The savings estimate it computes in
    between only fills [estimated_savings], which is not modelled. *)
Definition generate_recommendations (config : FirewallConfig)
    (analysis : AnalysisResult) : res OptimizationPlan :=
  let plan := new_OptimizationPlan in
  let plan := _handle_redundant_rules analysis plan in
  let plan := _handle_conflicting_rules analysis plan in
  let plan := _handle_ordering_issues analysis plan in
  plan ← _handle_unreachable_rules analysis plan;
  plan ← _handle_security_issues analysis plan;
  plan ← _handle_permissive_rules analysis plan;
  let plan := _add_general_optimizations (tables config) plan in
  Ok {| recommendations := sorted_by_priority (recommendations plan);
        backup_required := backup_required plan |}.

(** The [rules_reduced] entry of [_calculate_estimated_savings]: the
    number of rules named by the delete-rule recommendations.  (The two
    percentages the function also estimates are floating-point numbers
    and are not modelled.) *)
Definition rules_reduced (recs : list Recommendation) : Z :=
  fold_left (fun n rec =>
    if bool_decide (rec_type rec = DELETE_RULE)
    then n + Z.of_nat (length (rec_affected_rules rec)) else n) recs 0.

(** * Vocabulary of the properties

    Predicates and reference functions the statements below are written
    with. *)

(** [max(0, min(100, x))] *)
Definition clamp (x : Z) : Z := Z.max 0 (Z.min 100 x).

(** The number of issues of a list that pass a test. *)
Definition count_issues (P : RuleIssue -> bool) (l : list RuleIssue) : Z :=
  Z.of_nat (length (filter (fun i => P i = true) l)).

(** [earlier_rule] covers [rule] completely and is terminal: the test
    the scan runs on each earlier rule. *)
Definition covers_and_terminal {L : IpLib} (rule earlier_rule : FirewallRule)
  : bool :=
  match _rule_covers_completely earlier_rule rule with
  | Ok covers => covers && is_terminal (target earlier_rule)
  | Raise _ => false
  end.

(** The first rule of [earlier], in chain order, that passes the test. *)
Definition first_cover {L : IpLib} (earlier : list FirewallRule)
    (rule : FirewallRule) : option FirewallRule :=
  snd <$> list_find (fun E => covers_and_terminal rule E = true) earlier.

(** What the check is to report for a chain: for each rule in turn, at
    most one issue, naming the first earlier rule that covers it. *)
Definition unreachable_findings {L : IpLib} (rules : list FirewallRule)
  : list RuleIssue :=
  omap (fun '(i, rule) =>
          (fun E => unreachable_issue E rule) <$> first_cover (take i rules) rule)
       (enumerate rules).

(** The two rules agree on criterion [c] as far as the check can tell:
    one side is absent, or the values are the same string, or, for an
    address, the two networks overlap. *)
Definition fields_compatible {L : IpLib} (rule1 rule2 : FirewallRule)
    (c : criterion) : bool :=
  match getattr rule1 c, getattr rule2 c with
  | Some val1, Some val2 =>
      bool_decide (val1 = val2)
      || is_ip_criterion c
         && match _ip_ranges_overlap val1 val2 with
            | Ok b => b
            | Raise _ => false
            end
  | _, _ => true
  end.

Definition conflicts {L : IpLib} (rule1 rule2 : FirewallRule) : bool :=
  negb (bool_decide (target rule1 = target rule2))
  && forallb (fields_compatible rule1 rule2) same_traffic_criteria
  && is_terminal (target rule1) && is_terminal (target rule2).

(** What the check is to report for a chain: each rule against each
    later one, in order. *)
Definition conflict_findings {L : IpLib} (rules : list FirewallRule)
  : list RuleIssue :=
  mjoin ((fun '(i, rule1) =>
            conflicting_issue rule1
              <$> filter (fun rule2 => conflicts rule1 rule2 = true)
                    (drop (S i) rules)) <$> enumerate rules).

(** The conflict condition in the words of the specification: different
    terminal targets, and every matching field present on both sides
    overlaps.  Port specifications denote inclusive integer intervals;
    two of them overlap when the intervals share a port. *)
Definition ports_overlap_as_specified (p q : string) : Prop :=
  exists a b c d, port_bounds p = Ok (a, b) /\ port_bounds q = Ok (c, d) /\
                  Z.max a c <= Z.min b d.

Definition field_overlaps_as_specified {L : IpLib} (c : criterion)
    (val1 val2 : string) : Prop :=
  match c with
  | c_source_ip | c_destination_ip => _ip_ranges_overlap val1 val2 = Ok true
  | c_source_port | c_destination_port => ports_overlap_as_specified val1 val2
  | c_protocol | c_interface_in | c_interface_out => val1 = val2
  end.

Definition conflict_as_specified {L : IpLib} (rule1 rule2 : FirewallRule)
  : Prop :=
  target rule1 <> target rule2 /\
  is_terminal (target rule1) = true /\ is_terminal (target rule2) = true /\
  forall c val1 val2,
    getattr rule1 c = Some val1 -> getattr rule2 c = Some val2 ->
    field_overlaps_as_specified c val1 val2.

(** The container at [l] is a list of rules. *)
Definition is_list (h : store) (l : loc) : Prop :=
  exists rules, h !! l = Some (OList rules).

(** A stored policy is well formed when [tables] is a dictionary of
    dictionaries of lists of rules. *)
Definition wf_chains (h : store) (d : loc) : Prop :=
  exists chain_entries,
    h !! d = Some (ODict chain_entries) /\
    forall cn l, (cn, l) ∈ chain_entries -> is_list h l.

Definition wf_tables (h : store) (t : loc) : Prop :=
  exists table_entries,
    h !! t = Some (ODict table_entries) /\
    forall tn d, (tn, d) ∈ table_entries -> wf_chains h d.

Definition wf_config (h : store) (config : FirewallConfigRef) : Prop :=
  wf_tables h (tables_ref config).

(** The rules of the list at [l]; the rules held by the chains of one
    table, chain after chain. *)
Definition rules_at (h : store) (l : loc) : list FirewallRule :=
  match h !! l with
  | Some (OList rules) => rules
  | _ => []
  end.

Definition chain_rules (h : store) (chain_entries : list (string * loc))
  : list FirewallRule :=
  mjoin ((fun e => rules_at h e.2) <$> chain_entries).

Definition table_rules (h : store) (d : loc) : list FirewallRule :=
  match h !! d with
  | Some (ODict chain_entries) => chain_rules h chain_entries
  | _ => []
  end.

(** No rule occurs twice among the rules of one table. *)
Definition distinct_rules (h : store) (config : FirewallConfigRef) : Prop :=
  forall table_entries tn d,
    h !! tables_ref config = Some (ODict table_entries) ->
    (tn, d) ∈ table_entries -> NoDup (table_rules h d).

(** [h'] is [h] with some rules taken out of some lists. *)
Definition shrinks (h h' : store) : Prop :=
  length h' = length h /\
  forall l o, h !! l = Some o ->
    match o with
    | ODict entries => h' !! l = Some (ODict entries)
    | OList rules =>
        exists rules', h' !! l = Some (OList rules') /\
                       rules' `sublist_of` rules
    end.

(** The rule is in no chain of any table of the policy. *)
Definition rule_absent (h : store) (config : FirewallConfigRef)
    (rule : FirewallRule) : Prop :=
  forall table_entries tn d,
    h !! tables_ref config = Some (ODict table_entries) ->
    (tn, d) ∈ table_entries -> rule ∉ table_rules h d.

(** [e'] is the entry [e] with its value replaced by its copy. *)
Definition entry_copied (memo : gmap nat nat) (e e' : string * loc) : Prop :=
  e.1 = e'.1 /\ memo !! e.2 = Some e'.2.

(** [o'] is a copy of [o]: the same rules, or the same keys with copied
    values. *)
Definition obj_copied (memo : gmap nat nat) (o o' : obj) : Prop :=
  match o, o' with
  | OList rules, OList rules' => rules = rules'
  | ODict entries, ODict entries' => Forall2 (entry_copied memo) entries entries'
  | _, _ => False
  end.

(** While a copy of containers of [h0] is under way: [h0] is untouched,
    every memo entry leads from a container of [h0] to a copy of it
    outside [h0], and the containers outside [h0] refer to containers
    outside [h0] only. *)
Record copy_inv (h0 h : store) (memo : gmap nat nat) : Prop := {
  ci_prefix : h0 `prefix_of` h;
  ci_memo : forall x x', memo !! x = Some x' ->
    (length h0 <= x' < length h)%nat /\
    exists o o', h0 !! x = Some o /\ h !! x' = Some o' /\ obj_copied memo o o';
  ci_closed : forall x entries k v,
    (length h0 <= x)%nat -> h !! x = Some (ODict entries) ->
    (k, v) ∈ entries -> (length h0 <= v)%nat
}.

(** What it takes for [copy_value] to copy the containers that satisfy
    [ok]: it succeeds, keeps the invariant, only extends the memo, has
    the value in the memo afterwards, and adds only keys that satisfy
    [K]. *)
Definition copies (h0 : store) (K ok : loc -> Prop)
    (copy_value : loc -> copy_state -> res (loc * copy_state)) : Prop :=
  forall v h memo, ok v -> copy_inv h0 h memo ->
    exists v' h' memo',
      copy_value v (h, memo) = Ok (v', (h', memo')) /\
      copy_inv h0 h' memo' /\ memo ⊆ memo' /\ memo' !! v = Some v' /\
      forall x, is_Some (memo' !! x) -> is_Some (memo !! x) \/ K x.

(** The dictionaries [copy_dict copy_value] copies: their values satisfy
    [ok], and they are not themselves among what copying the values adds
    to the memo. *)
Definition dict_ok (h0 : store) (K ok : loc -> Prop) (d : loc) : Prop :=
  exists entries,
    h0 !! d = Some (ODict entries) /\ Forall (fun e => ok e.2) entries /\
    (entries <> [] -> ~ K d).

Definition chains_ok (h0 : store) : loc -> Prop :=
  dict_ok h0 (is_list h0) (is_list h0).

Definition tables_ok (h0 : store) : loc -> Prop :=
  dict_ok h0 (fun x => is_list h0 x \/ chains_ok h0 x) (chains_ok h0).

(** [rules'] is [rules] with some rules removed and rules of [News]
    appended. *)
Definition grown (News rules rules' : list FirewallRule) : Prop :=
  exists kept added,
    rules' = kept ++ added /\ kept `sublist_of` rules /\
    Forall (fun r => r ∈ News) added.

(** One step of the applier on a list: a removal, or a new rule at the
    end. *)
Definition list_step (News rules rules' : list FirewallRule) : Prop :=
  rules' `sublist_of` rules \/ exists r, r ∈ News /\ rules' = rules ++ [r].

(** The store [h] while a plan is applied to the copy made in [h1];
    the original policy lives below [n0].  What was there before the copy
    is as it was; the containers from [n0] on refer to containers from
    [n0] on; the lists of the copy have lost rules and gained new ones at
    the end; its dictionaries have gained keys, for containers made
    since; and the lists made since hold new rules only. *)
Record applied (n0 : nat) (News : list FirewallRule) (h1 h : store) : Prop := {
  ap_n0 : (n0 <= length h1)%nat;
  ap_len : (length h1 <= length h)%nat;
  ap_old : forall x, (x < n0)%nat -> h !! x = h1 !! x;
  ap_closed : forall x es k v,
    (n0 <= x)%nat -> h !! x = Some (ODict es) -> (k, v) ∈ es -> (n0 <= v)%nat;
  ap_list : forall x rules,
    h1 !! x = Some (OList rules) ->
    exists rules', h !! x = Some (OList rules') /\ grown News rules rules';
  ap_dict : forall x es,
    h1 !! x = Some (ODict es) ->
    exists es', h !! x = Some (ODict (es ++ es')) /\
                forall k v, (k, v) ∈ es' ->
                            dict_get es k = None /\ (length h1 <= v)%nat;
  ap_new_list : forall x rules,
    (length h1 <= x)%nat -> h !! x = Some (OList rules) ->
    Forall (fun r => r ∈ News) rules;
  ap_new_dict : forall x es k v,
    (length h1 <= x)%nat -> h !! x = Some (ODict es) -> (k, v) ∈ es ->
    (length h1 <= v)%nat
}.

(** A new, empty container of either kind. *)
Definition empty_obj (o : obj) : Prop := o = ODict [] \/ o = OList [].

(** The rules a plan brings in: the new rules of its add-rule
    recommendations. *)
Definition plan_new_rules (plan : OptimizationPlan) : list FirewallRule :=
  mjoin (new_rules <$> get_by_type plan ADD_RULE).

(** ** Vocabulary for the further properties *)

(** The message [validate_rule] adds for one optional field: none when
    the field is empty or passes its check. *)
Definition field_errors (value : option string) (valid : string -> res bool)
    (message : string) : list string :=
  if truthy value then
    match valid (or_empty value) with
    | Ok true => []
    | _ => [message +:+ or_empty value]
    end
  else [].

(** The field is empty, or an address the library parses. *)
Definition address_field_ok {L : IpLib} (value : option string) : Prop :=
  truthy value = true -> exists n, ip_network (or_empty value) = Ok n.

(** The field is empty, or a port or port range within 1..65535. *)
Definition port_field_ok (value : option string) : Prop :=
  truthy value = true ->
  exists a b, port_bounds (or_empty value) = Ok (a, b) /\
              1 <= a /\ a <= b /\ b <= 65535.

(** The first rule of [earlier], in chain order, with the signature of
    [rule]. *)
Definition first_same_signature (earlier : list FirewallRule)
    (rule : FirewallRule) : option FirewallRule :=
  snd <$> list_find (fun E => _create_rule_signature E
                              = _create_rule_signature rule) earlier.

(** What the redundancy check is to report for a chain: for each rule in
    turn, an issue when an earlier rule has its signature, naming the
    first such rule. *)
Definition redundant_findings (rules : list FirewallRule) : list RuleIssue :=
  omap (fun '(i, rule) =>
          (fun E => redundant_issue E rule)
            <$> first_same_signature (take i rules) rule)
       (enumerate rules).

(** The signatures that occur in a chain. *)
Definition signatures (rules : list FirewallRule) : gset string :=
  list_to_set (_create_rule_signature <$> rules).

(** What the ordering check is to report for a chain: each rule against
    each earlier one, in order. *)
Definition ordering_findings (rules : list FirewallRule) : list RuleIssue :=
  mjoin ((fun '(i, rule) =>
            (fun E => ordering_issue E rule)
              <$> filter (fun E => (restriction_count E < restriction_count rule)%nat
                                   /\ target rule <> target E)
                    (take i rules)) <$> enumerate rules).

(** The three security tests on a single rule: an accept from any source
    to an administrative port; a drop whose text does not mention LOG;
    an accept without protocol, addresses or destination port. *)
Definition is_admin_port_rule (rule : FirewallRule) : bool :=
  bool_decide (target rule = "ACCEPT")
  && bool_decide (source_ip rule ∈ [None; Some "0.0.0.0/0"; Some "any"])
  && bool_decide (destination_port rule ∈ [Some "22"; Some "3389"; Some "23"]).

Definition is_unlogged_drop (rule : FirewallRule) : bool :=
  bool_decide (target rule = "DROP")
  && negb (has_substring "LOG" (raw_rule rule)).

Definition is_unrestricted_accept (rule : FirewallRule) : bool :=
  bool_decide (target rule = "ACCEPT")
  && negb (truthy (source_ip rule))
  && negb (truthy (destination_ip rule))
  && negb (truthy (destination_port rule))
  && negb (truthy (protocol rule)).

(** What the security check and the permissive check are to report for a
    chain, rule by rule. *)
Definition security_findings_of (rule : FirewallRule) : list RuleIssue :=
  (if is_admin_port_rule rule then [admin_port_issue rule] else [])
  ++ (if is_unlogged_drop rule then [missing_log_issue rule] else []).

Definition security_findings (rules : list FirewallRule) : list RuleIssue :=
  mjoin (security_findings_of <$> rules).

Definition permissive_findings (rules : list FirewallRule) : list RuleIssue :=
  permissive_issue
    <$> filter (fun rule => is_unrestricted_accept rule = true) rules.

(** The findings of the six checks on one chain, in the order the checks
    run; the chains of a policy, table after table; and the findings of
    a whole policy. *)
Definition chain_findings {L : IpLib} (rules : list FirewallRule)
  : list RuleIssue :=
  redundant_findings rules ++ conflict_findings rules
  ++ ordering_findings rules ++ unreachable_findings rules
  ++ security_findings rules ++ permissive_findings rules.

Definition all_chains_of (tables : Tables) : list (list FirewallRule) :=
  mjoin ((fun '(table_name, chains) => snd <$> chains) <$> tables).

Definition policy_findings {L : IpLib} (tables : Tables) : list RuleIssue :=
  mjoin (chain_findings <$> all_chains_of tables).

(** The number of rules of a list with a given target. *)
Definition count_target (tgt : string) (rules : list FirewallRule) : Z :=
  Z.of_nat (length (filter (fun rule => target rule = tgt) rules)).

(** The chains of a policy with their names, table after table. *)
Definition all_chain_entries (tables : Tables)
  : list (string * list FirewallRule) :=
  mjoin (snd <$> tables).

(** The counts [_calculate_statistics] is to return. *)
Definition stats_map (total_rules total_chains total_tables accept_rules
    drop_rules reject_rules custom_chains : Z) : gmap string Z :=
  {[ "total_rules" := total_rules; "total_chains" := total_chains;
     "total_tables" := total_tables;
     "accept_rules" := accept_rules; "drop_rules" := drop_rules;
     "reject_rules" := reject_rules; "custom_chains" := custom_chains ]}.

Definition policy_statistics (tables : Tables) : gmap string Z :=
  let rules := mjoin (snd <$> all_chain_entries tables) in
  stats_map (Z.of_nat (length rules))
    (Z.of_nat (length (all_chain_entries tables)))
    (Z.of_nat (length tables))
    (count_target "ACCEPT" rules) (count_target "DROP" rules)
    (count_target "REJECT" rules)
    (Z.of_nat (length (filter (fun entry => entry.1 ∉ builtin_chains)
                         (all_chain_entries tables)))).

(** The rules of a list that [_find_mergeable_rules] files under one
    pattern: those with a terminal target and that pattern, in order. *)
Definition in_pattern (pattern : merge_pattern) (rule : FirewallRule) : Prop :=
  is_terminal (target rule) = true /\ pattern_of rule = pattern.

#[global] Instance in_pattern_dec pattern rule : Decision (in_pattern pattern rule).
Proof. unfold in_pattern. apply _. Defined.

Definition pattern_class (pattern : merge_pattern) (rules : list FirewallRule)
  : list FirewallRule :=
  filter (in_pattern pattern) rules.

(** A merge candidate: at least two rules, each with a destination port,
    no two with the same one. *)
Definition mergeable (group : list FirewallRule) : Prop :=
  (2 <= length group)%nat /\
  Forall (fun rule => truthy (destination_port rule) = true) group /\
  NoDup (destination_port <$> group).

(** A plan with more recommendations at the end. *)
Definition extend_plan (plan : OptimizationPlan) (recs : list Recommendation)
  : OptimizationPlan :=
  {| recommendations := recommendations plan ++ recs;
     backup_required := backup_required plan |}.

(** What each handler adds for one issue of its type, when the evidence
    it reads is there. *)
Definition redundant_recommendations (issue : RuleIssue)
  : list Recommendation :=
  match affected_rules issue with
  | primary_rule :: ((_ :: _) as duplicate_rules) =>
      redundant_delete_recommendation primary_rule <$> duplicate_rules
  | _ => []
  end.

Definition conflict_recommendations (issue : RuleIssue)
  : list Recommendation :=
  match affected_rules issue with
  | rule1 :: rule2 :: _ => [conflict_recommendation issue rule1 rule2]
  | _ => []
  end.

Definition reorder_recommendations (issue : RuleIssue)
  : list Recommendation :=
  match affected_rules issue with
  | general_rule :: specific_rule :: _ =>
      [reorder_recommendation issue general_rule specific_rule]
  | _ => []
  end.

Definition unreachable_recommendations (issue : RuleIssue)
  : list Recommendation :=
  match last (affected_rules issue) with
  | Some unreachable_rule =>
      [unreachable_delete_recommendation unreachable_rule]
  | None => []
  end.

Definition security_recommendations (issue : RuleIssue)
  : list Recommendation :=
  match affected_rules issue with
  | rule :: _ =>
      if has_substring "Administrative port" (description issue)
      then [restrict_source_recommendation rule] else []
  | [] => []
  end.

Definition logging_recommendations (issue : RuleIssue)
  : list Recommendation :=
  match affected_rules issue with
  | rule :: _ => [add_logging_recommendation rule]
  | [] => []
  end.

Definition permissive_recommendations (issue : RuleIssue)
  : list Recommendation :=
  match affected_rules issue with
  | rule :: _ => [restrict_permissive_recommendation rule]
  | [] => []
  end.

Definition issue_recommendations (issue : RuleIssue) : list Recommendation :=
  match issue_type issue with
  | REDUNDANT => redundant_recommendations issue
  | CONFLICTING => conflict_recommendations issue
  | INEFFICIENT_ORDER => reorder_recommendations issue
  | UNREACHABLE => unreachable_recommendations issue
  | SECURITY_RISK => security_recommendations issue
  | MISSING_LOG => logging_recommendations issue
  | OVERLY_PERMISSIVE => permissive_recommendations issue
  end.

(** The issue types whose handler reads a rule of the evidence without
    looking at its length first. *)
Definition needs_evidence (t : IssueType) : bool :=
  match t with
  | UNREACHABLE | SECURITY_RISK | MISSING_LOG | OVERLY_PERMISSIVE => true
  | _ => false
  end.

(** The issues in the order the handlers take them up: type after type,
    each type in the order of the analysis. *)
Definition handler_order : list IssueType :=
  [REDUNDANT; CONFLICTING; INEFFICIENT_ORDER; UNREACHABLE;
   SECURITY_RISK; MISSING_LOG; OVERLY_PERMISSIVE].

Definition issues_by_handler (analysis : AnalysisResult) : list RuleIssue :=
  mjoin (get_issues_by_type analysis <$> handler_order).

(** What the default-policy pass proposes for one chain name of a table,
    and for one table. *)
Definition chain_default_proposals (table_name : string) (chains : Chains)
    (chain_name : string) : list Recommendation :=
  match dict_get chains chain_name with
  | Some rules =>
      match last rules with
      | Some last_rule =>
          if bool_decide (target last_rule ≠ "DROP")
             || truthy (protocol last_rule)
             || truthy (source_ip last_rule)
             || truthy (destination_ip last_rule)
          then [default_drop_recommendation table_name chain_name]
          else []
      | None => []
      end
  | None => []
  end.

Definition table_default_proposals (entry : string * Chains)
  : list Recommendation :=
  if bool_decide (entry.1 = "filter")
  then mjoin (chain_default_proposals entry.1 entry.2
                <$> ["INPUT"; "FORWARD"; "OUTPUT"])
  else [].

(** What [_add_general_optimizations] adds: a merge proposal for each
    merge candidate, then the default-policy proposals. *)
Definition general_recommendations (tables : Tables) : list Recommendation :=
  (merge_recommendation <$> _find_mergeable_rules (all_rules_of tables))
  ++ mjoin (table_default_proposals <$> tables).

(** The recommendations before they are sorted. *)
Definition unsorted_recommendations (config : FirewallConfig)
    (analysis : AnalysisResult) : list Recommendation :=
  mjoin (issue_recommendations <$> issues_by_handler analysis)
  ++ general_recommendations (tables config).

(** Highest priority first. *)
Fixpoint descending (recs : list Recommendation) : Prop :=
  match recs with
  | [] => True
  | rec :: recs' =>
      Forall (fun rec' => priority_value (priority rec')
                          <= priority_value (priority rec)) recs'
      /\ descending recs'
  end.

(** Every issue of the analysis has the evidence its handler reads. *)
Definition evidence_present (analysis : AnalysisResult) : Prop :=
  forall issue, issue ∈ issues analysis ->
                needs_evidence (issue_type issue) = true ->
                affected_rules issue <> [].

(** The issues the analyzer builds. *)
Definition analyzer_issue (issue : RuleIssue) : Prop :=
  (exists E R, issue = redundant_issue E R) \/
  (exists rule1 rule2, issue = conflicting_issue rule1 rule2) \/
  (exists E R, issue = ordering_issue E R) \/
  (exists E R, issue = unreachable_issue E R) \/
  (exists rule, issue = admin_port_issue rule) \/
  (exists rule, issue = missing_log_issue rule) \/
  (exists rule, issue = permissive_issue rule).

(** A rule without any match criterion. *)
Definition catch_all (rule : FirewallRule) : Prop :=
  forall c, getattr rule c = None.

(** Two rules agree on the ten fields that make up the signature, an
    absent field counting as an empty one. *)
Definition same_signature_fields (rule1 rule2 : FirewallRule) : Prop :=
  chain rule1 = chain rule2 /\ target rule1 = target rule2 /\
  or_empty (state rule1) = or_empty (state rule2) /\
  forall c, or_empty (getattr rule1 c) = or_empty (getattr rule2 c).

(** * Properties *)

(** ** Exceptions and loops *)

Lemma bind_Ok {A B} (m : res A) (f : A -> res B) (b : B) :
  m ≫= f = Ok b -> exists a, m = Ok a /\ f a = Ok b.
Proof. destruct m as [a|e]; simpl; [eauto | discriminate]. Qed.

(** ** Scores *)

Lemma count_issues_cons P i l :
  count_issues P (i :: l) = (if P i then 1 else 0) + count_issues P l.
Proof.
  unfold count_issues. rewrite filter_cons.
  destruct (decide (P i = true)) as [->|Hn].
  - rewrite length_cons. lia.
  - destruct (P i); [congruence | lia].
Qed.

Lemma efficiency_fold (l : list RuleIssue) (base : Z) :
  fold_left efficiency_step l base =
  base - 5 * count_issues (fun i => bool_decide (issue_type i = REDUNDANT)) l
       - 3 * count_issues (fun i => bool_decide (issue_type i = INEFFICIENT_ORDER)) l
       - 4 * count_issues (fun i => bool_decide (issue_type i = UNREACHABLE)) l.
Proof.
  revert base. induction l as [|i l IH]; intros base.
  - unfold count_issues. simpl. lia.
  - simpl. rewrite IH, !count_issues_cons. unfold efficiency_step.
    destruct (issue_type i); simpl; lia.
Qed.

Lemma security_fold (l : list RuleIssue) (base : Z) :
  fold_left security_score_step l base =
  base
  - 20 * count_issues (fun i => bool_decide (issue_type i = SECURITY_RISK)
                                && bool_decide (severity i = SEV_CRITICAL)) l
  - 15 * count_issues (fun i => bool_decide (issue_type i = SECURITY_RISK)
                                && bool_decide (severity i = SEV_HIGH)) l
  - 10 * count_issues (fun i => bool_decide (issue_type i = SECURITY_RISK)
                                && bool_decide (severity i = SEV_MEDIUM)) l
  - 8 * count_issues (fun i => bool_decide (issue_type i = OVERLY_PERMISSIVE)) l.
Proof.
  revert base. induction l as [|i l IH]; intros base.
  - unfold count_issues. simpl. lia.
  - simpl. rewrite IH, !count_issues_cons. unfold security_score_step.
    destruct (issue_type i), (severity i); simpl; lia.
Qed.

Lemma analyze_tables_scores {L : IpLib} (tbls : Tables) (result : AnalysisResult) :
  analyze_tables tbls = Ok result ->
  rule_efficiency_score result = _calculate_efficiency_score result /\
  security_score result = _calculate_security_score result.
Proof.
  unfold analyze_tables. intros H.
  apply bind_Ok in H as (r & _ & H). injection H as <-. split; reflexivity.
Qed.

(** C5.  For every analysis result, the efficiency score is 100 minus 5
    per redundant, 3 per inefficient-order and 4 per unreachable issue,
    clamped to [0, 100]; the security score is 100 minus 20, 15, 10 per
    security-risk issue of critical, high, medium severity and 8 per
    overly-permissive issue, clamped to [0, 100].  These are the two
    scores an analysis stores in its result. *)
Theorem scores_of_result (result : AnalysisResult) :
  let n P := count_issues P (issues result) in
  _calculate_efficiency_score result =
    clamp (100
           - 5 * n (fun i => bool_decide (issue_type i = REDUNDANT))
           - 3 * n (fun i => bool_decide (issue_type i = INEFFICIENT_ORDER))
           - 4 * n (fun i => bool_decide (issue_type i = UNREACHABLE))) /\
  _calculate_security_score result =
    clamp (100
           - 20 * n (fun i => bool_decide (issue_type i = SECURITY_RISK)
                              && bool_decide (severity i = SEV_CRITICAL))
           - 15 * n (fun i => bool_decide (issue_type i = SECURITY_RISK)
                              && bool_decide (severity i = SEV_HIGH))
           - 10 * n (fun i => bool_decide (issue_type i = SECURITY_RISK)
                              && bool_decide (severity i = SEV_MEDIUM))
           - 8 * n (fun i => bool_decide (issue_type i = OVERLY_PERMISSIVE))) /\
  forall (L : IpLib) (config : option FirewallConfig),
    analyze_configuration config = Ok result ->
    rule_efficiency_score result = _calculate_efficiency_score result /\
    security_score result = _calculate_security_score result.
Proof.
  cbv zeta.
  unfold _calculate_efficiency_score, _calculate_security_score, clamp.
  split; [by rewrite efficiency_fold|]. split; [by rewrite security_fold|].
  intros L config H. destruct config as [cfg|]; [|discriminate].
  by apply analyze_tables_scores in H.
Qed.

Lemma scores_of_result_witness :
  (_calculate_efficiency_score ScoredResult.result = 88 /\
   _calculate_security_score ScoredResult.result = 47) /\
  exists result,
    analyze_configuration (Some Scenario.duplicate_policy) = Ok result /\
    rule_efficiency_score result = 91 /\ security_score result = 70.
Proof.
  split.
  - destruct (scores_of_result ScoredResult.result) as (He & Hs & _).
    rewrite He, Hs. vm_compute. done.
  - destruct (analyze_configuration (Some Scenario.duplicate_policy))
      as [result|e] eqn:E; [|vm_compute in E; discriminate].
    exists result. split; [reflexivity|].
    destruct (scores_of_result result) as (He & Hs & Hstored).
    destruct (Hstored _ _ E) as [-> ->]. rewrite He, Hs.
    vm_compute in E. injection E as Hr. subst result.
    vm_compute. done.
Defined.

(** ** The duplicate-rule scenario *)

(** C1, as the code behaves.  For the policy made of
    [-A INPUT -p tcp --dport 22 -j ACCEPT] at lines 1 and 2 and
    [-A INPUT -j DROP] at line 3, whatever the address library, analysis
    returns a result with exactly one redundant issue, with evidence
    (line 1, line 2); exactly one unreachable issue, for the rule at line
    2 with the rule at line 1 as its cover and of medium severity; and
    the efficiency score 100 - 5 - 4 = 91. *)
Theorem duplicate_policy_analysis (L : IpLib) :
  exists result,
    analyze_configuration (Some Scenario.duplicate_policy) = Ok result /\
    get_issues_by_type result REDUNDANT =
      [redundant_issue Scenario.ssh1 Scenario.ssh2] /\
    get_issues_by_type result UNREACHABLE =
      [unreachable_issue Scenario.ssh1 Scenario.ssh2] /\
    affected_rules (redundant_issue Scenario.ssh1 Scenario.ssh2) =
      [Scenario.ssh1; Scenario.ssh2] /\
    severity (unreachable_issue Scenario.ssh1 Scenario.ssh2) = SEV_MEDIUM /\
    rule_efficiency_score result = 91.
Proof.
  eexists. split; [vm_compute; reflexivity|].
  repeat split; vm_compute; reflexivity.
Qed.

(** The scenario as the specification words it fails: there is an
    unreachable issue for the rule at line 2, and the efficiency score is
    not 95. *)
Lemma duplicate_policy_not_as_specified :
  ~ exists result,
      analyze_configuration (Some Scenario.duplicate_policy) = Ok result /\
      (exists issue, get_issues_by_type result REDUNDANT = [issue] /\
                     affected_rules issue = [Scenario.ssh1; Scenario.ssh2]) /\
      (forall issue rule,
         issue ∈ get_issues_by_type result UNREACHABLE ->
         rule ∈ [Scenario.ssh1; Scenario.ssh2] ->
         last (affected_rules issue) <> Some rule) /\
      rule_efficiency_score result = 95.
Proof.
  intros (result & Hrun & _ & Hno & Hscore).
  vm_compute in Hrun. injection Hrun as Hr. subst result.
  vm_compute in Hscore. discriminate.
Qed.

(** ** Empty and missing policies *)

Lemma analyze_empty_chains {L : IpLib} (chs : Chains) (result : AnalysisResult) :
  (forall cn rules, (cn, rules) ∈ chs -> rules = []) ->
  for_each chs (fun '(chain_name, rules) (result : AnalysisResult) =>
                  analyze_chain rules result) result = Ok result.
Proof.
  induction chs as [|[cn rules] chs IH]; intros Hall; simpl; [reflexivity|].
  rewrite (Hall cn rules) by left. simpl.
  apply IH. intros cn' rules' Hin. eapply Hall. by right.
Qed.

Lemma analyze_empty_tables {L : IpLib} (tbls : Tables) (result : AnalysisResult) :
  (forall tn chs cn rules, (tn, chs) ∈ tbls -> (cn, rules) ∈ chs -> rules = []) ->
  for_each tbls (fun '(table_name, chains) (result : AnalysisResult) =>
     for_each chains (fun '(chain_name, rules) (result : AnalysisResult) =>
        analyze_chain rules result) result) result = Ok result.
Proof.
  induction tbls as [|[tn chs] tbls IH]; intros Hall; simpl; [reflexivity|].
  rewrite analyze_empty_chains; simpl.
  - apply IH. intros tn' chs' cn rules Hin. eapply Hall. by right.
  - intros cn rules. apply (Hall tn). by left.
Qed.

(** C4, as the code behaves.  Analyzing a policy without rules (no
    tables, tables without chains, or chains without rules) raises
    nothing and returns a result with no issues and both scores at 100. *)
Theorem analyze_empty_policy {L : IpLib} (cfg : FirewallConfig) :
  (forall tn chs cn rules,
     (tn, chs) ∈ tables cfg -> (cn, rules) ∈ chs -> rules = []) ->
  exists result,
    analyze_configuration (Some cfg) = Ok result /\
    issues result = [] /\
    rule_efficiency_score result = 100 /\
    security_score result = 100.
Proof.
  intros Hempty. unfold analyze_configuration, analyze_tables.
  rewrite analyze_empty_tables by exact Hempty. simpl.
  eexists. split; [reflexivity|]. repeat split.
Qed.

Lemma analyze_empty_policy_witness :
  exists result,
    analyze_configuration
      (Some {| tables := [("filter", [("INPUT", []); ("OUTPUT", [])])];
               chains := []; comments := [] |}) = Ok result /\
    issues result = [] /\
    rule_efficiency_score result = 100 /\
    security_score result = 100.
Proof.
  apply (analyze_empty_policy (L := ipv4_lib)).
  intros tn chs cn rules Ht Hc. simpl in Ht.
  apply list_elem_of_singleton in Ht. injection Ht as -> ->.
  apply elem_of_cons in Hc as [Hc|Hc]; [by injection Hc|].
  apply list_elem_of_singleton in Hc. by injection Hc.
Defined.

(** A null policy is not analyzed: reading its tables raises. *)
Lemma analyze_null_policy_raises :
  ~ exists result, analyze_configuration (L := ipv4_lib) None = Ok result.
Proof. intros [result H]. discriminate. Qed.

(** ** Range predicates *)

Lemma int_digits_raises (s : string) (acc : Z) (prev : bool) (e : exn) :
  int_digits s acc prev = Raise e -> e = ValueError.
Proof.
  revert acc prev. induction s as [|a s IH]; intros acc prev; simpl.
  - destruct prev; congruence.
  - destruct (digit_of a); [apply IH|].
    destruct (bool_decide (a = "_"%char) && prev); [apply IH | congruence].
Qed.

Lemma int_literal_raises (s : string) (e : exn) :
  int_literal s = Raise e -> e = ValueError.
Proof.
  unfold int_literal. destruct (int_digits s 0 false) as [n|e1] eqn:E; simpl.
  - destruct (_ <? _)%nat; congruence.
  - intros [= <-]. by eapply int_digits_raises.
Qed.

Lemma int_raises (s : string) (e : exn) : int s = Raise e -> e = ValueError.
Proof.
  unfold int. intros H.
  repeat case_match; try (by eapply int_literal_raises);
    destruct (int_literal _) eqn:E; simpl in H; try discriminate;
    injection H as <-; by eapply int_literal_raises.
Qed.

Lemma port_bounds_raises (p : string) (e : exn) :
  port_bounds p = Raise e -> e = ValueError.
Proof.
  unfold port_bounds. intros H.
  repeat case_match; subst;
    repeat match goal with
      | H : context [int ?a] |- _ =>
          let E := fresh "E" in
          destruct (int a) eqn:E; simpl in H;
          [| injection H as <-; by eapply int_raises]
      end; congruence.
Qed.

Lemma try_except_ValueError_Ok {A} (body handler : res A) :
  (forall e, body = Raise e -> e = ValueError) ->
  (exists v, handler = Ok v) ->
  exists v, try_except_ValueError body handler = Ok v.
Proof.
  intros Hbody [v Hv]. destruct body as [a|e] eqn:E; simpl; [eauto|].
  rewrite (Hbody e eq_refl). eauto.
Qed.

Lemma try_except_ValueError_caught {A} (body handler : res A) :
  body = Raise ValueError -> try_except_ValueError body handler = handler.
Proof. by intros ->. Qed.

(** [_port_contains] raises nothing. *)
Lemma _port_contains_total (general specific : option string) :
  exists b, _port_contains general specific = Ok b.
Proof.
  destruct general as [g|], specific as [s|]; simpl; eauto.
  apply try_except_ValueError_Ok; [|eauto].
  intros e H.
  destruct (port_bounds g) as [[gs ge]|e1] eqn:Eg; simpl in H;
    [|injection H as <-; by eapply port_bounds_raises].
  destruct (port_bounds s) as [[ss se]|e2] eqn:Es; simpl in H;
    [discriminate|injection H as <-; by eapply port_bounds_raises].
Qed.

Section RangeFacts.
Context {L : IpLib}.

(** [_ip_ranges_overlap] raises nothing. *)
Lemma _ip_ranges_overlap_total (ip1 ip2 : string) :
  exists b, _ip_ranges_overlap ip1 ip2 = Ok b.
Proof.
  apply try_except_ValueError_Ok; [|eauto].
  intros e H.
  destruct (ip_network ip1) as [n1|e1] eqn:E1; simpl in H;
    [|injection H as <-; by eapply ip_network_raises].
  destruct (ip_network ip2) as [n2|e2] eqn:E2; simpl in H;
    [discriminate|injection H as <-; by eapply ip_network_raises].
Qed.

Lemma parse_failure_body {A} (ip1 ip2 : string) (k : network -> network -> res A) :
  (exists e, ip_network ip1 = Raise e) \/ (exists e, ip_network ip2 = Raise e) ->
  (n1 ← ip_network ip1; n2 ← ip_network ip2; k n1 n2) = Raise ValueError.
Proof.
  intros [[e He]|[e He]].
  - rewrite He. simpl. by rewrite (ip_network_raises _ _ He).
  - destruct (ip_network ip1) as [n1|e1] eqn:E1; simpl.
    + rewrite He. simpl. by rewrite (ip_network_raises _ _ He).
    + by rewrite (ip_network_raises _ _ E1).
Qed.

End RangeFacts.

(** C6.  [_ip_ranges_overlap] (addressOverlaps) raises nothing, and is
    true when either specification fails to parse; when either
    specification fails to parse, [_ip_contains] (addressContains) and
    [_port_contains] (portContains) are the equality of the two
    strings. *)
Theorem parse_failure_fallbacks {L : IpLib} (a b : string) :
  (exists v, _ip_ranges_overlap a b = Ok v) /\
  ((exists e, ip_network a = Raise e) \/ (exists e, ip_network b = Raise e) ->
   _ip_ranges_overlap a b = Ok true /\
   _ip_contains (Some a) (Some b) = Ok (bool_decide (a = b))) /\
  ((exists e, port_bounds a = Raise e) \/ (exists e, port_bounds b = Raise e) ->
   _port_contains (Some a) (Some b) = Ok (bool_decide (a = b))).
Proof.
  split; [apply _ip_ranges_overlap_total|]. split.
  - intros Hfail. split.
    + unfold _ip_ranges_overlap.
      rewrite try_except_ValueError_caught; [done|].
      apply parse_failure_body; auto.
    + unfold _ip_contains.
      rewrite try_except_ValueError_caught.
      * f_equal. apply bool_decide_ext. split; congruence.
      * apply (parse_failure_body a b
                 (fun n1 n2 => sup ← supernet_of n1 n2;
                               Ok (sup || network_eqb n1 n2))); auto.
  - intros Hfail. simpl.
    rewrite try_except_ValueError_caught.
    + f_equal. apply bool_decide_ext. split; congruence.
    + destruct Hfail as [[e He]|[e He]].
      * rewrite He. simpl. by rewrite (port_bounds_raises _ _ He).
      * destruct (port_bounds a) as [[gs ge]|e1] eqn:Ea; simpl.
        -- rewrite He. simpl. by rewrite (port_bounds_raises _ _ He).
        -- by rewrite (port_bounds_raises _ _ Ea).
Qed.

Lemma parse_failure_fallbacks_witness :
  (_ip_ranges_overlap "lan" "10.0.0.0/8" = Ok true /\
   _ip_contains (Some "lan") (Some "10.0.0.0/8") = Ok false) /\
  _port_contains (Some "http") (Some "80") = Ok false.
Proof.
  destruct (parse_failure_fallbacks (L := ipv4_lib) "lan" "10.0.0.0/8")
    as (_ & Hip & _).
  destruct (parse_failure_fallbacks (L := ipv4_lib) "http" "80")
    as (_ & _ & Hport).
  split.
  - apply Hip. left. exists ValueError. vm_compute. reflexivity.
  - apply Hport. left. exists ValueError. vm_compute. reflexivity.
Defined.

(** ** The unreachable check *)

Section Unreachable.
Context {L : IpLib}.

Lemma first_cover_cons (x : FirewallRule) (earlier : list FirewallRule)
    (rule : FirewallRule) :
  first_cover (x :: earlier) rule =
  if covers_and_terminal rule x then Some x else first_cover earlier rule.
Proof.
  unfold first_cover. simpl.
  destruct (covers_and_terminal rule x) eqn:E.
  - by rewrite decide_True.
  - rewrite decide_False by congruence.
    by destruct (list_find _ earlier) as [[j y]|].
Qed.

Lemma first_cover_Some (earlier : list FirewallRule) (rule E : FirewallRule) :
  first_cover earlier rule = Some E <->
  exists j, earlier !! j = Some E /\ covers_and_terminal rule E = true /\
            forall j' E', earlier !! j' = Some E' -> (j' < j)%nat ->
                          covers_and_terminal rule E' = false.
Proof.
  unfold first_cover. split.
  - destruct (list_find _ earlier) as [[j y]|] eqn:Hf; [|discriminate].
    simpl. intros [= ->]. apply list_find_Some in Hf as (Hj & Hy & Hmin).
    exists j. repeat split; [done..|].
    intros j' E' Hj' Hlt. specialize (Hmin j' E' Hj' Hlt).
    by destruct (covers_and_terminal rule E').
  - intros (j & Hj & HE & Hmin).
    assert (list_find (fun E => covers_and_terminal rule E = true) earlier
            = Some (j, E)) as ->; [|done].
    apply list_find_Some. repeat split; [done..|].
    intros j' E' Hj' Hlt. rewrite (Hmin j' E' Hj' Hlt). discriminate.
Qed.

Lemma scan_earlier_rules_spec (rules : list FirewallRule) (rule : FirewallRule)
    (n k : nat) (result result' : AnalysisResult) :
  (k + n <= length rules)%nat ->
  scan_earlier_rules rules (seq k n) rule result = Ok result' ->
  issues result' =
  issues result ++
  option_list ((fun E => unreachable_issue E rule)
                 <$> first_cover (take n (drop k rules)) rule).
Proof.
  revert k result. induction n as [|n IH]; intros k result Hlen Hrun.
  - simpl in Hrun. injection Hrun as <-. by rewrite take_0, app_nil_r.
  - destruct (lookup_lt_is_Some_2 rules k ltac:(lia)) as [x Hx].
    rewrite (drop_S _ _ _ Hx). rewrite firstn_cons, first_cover_cons.
    unfold scan_earlier_rules in Hrun. simpl in Hrun.
    unfold getitem in Hrun. rewrite Hx in Hrun. simpl in Hrun.
    unfold covers_and_terminal.
    destruct (_rule_covers_completely x rule) as [c|e]; [|discriminate].
    simpl in Hrun.
    destruct (c && is_terminal (target x)).
    + by injection Hrun as <-.
    + apply (IH (S k)); [lia | exact Hrun].
Qed.

Lemma scan_earlier_rules_total (rules : list FirewallRule) (rule : FirewallRule)
    (n k : nat) (result : AnalysisResult) :
  (k + n <= length rules)%nat ->
  (forall E, E ∈ rules -> exists b, _rule_covers_completely E rule = Ok b) ->
  exists result', scan_earlier_rules rules (seq k n) rule result = Ok result'.
Proof.
  revert k result. induction n as [|n IH]; intros k result Hlen Hcov.
  - by exists result.
  - destruct (lookup_lt_is_Some_2 rules k ltac:(lia)) as [x Hx].
    unfold scan_earlier_rules. simpl. unfold getitem. rewrite Hx. simpl.
    destruct (Hcov x) as [c ->]; [by eapply list_elem_of_lookup_2|].
    simpl. destruct (c && is_terminal (target x)); [eauto|].
    apply (IH (S k)); [lia | exact Hcov].
Qed.

Lemma check_unreachable_from (rules pre suffix : list FirewallRule)
    (result result' : AnalysisResult) :
  rules = pre ++ suffix ->
  for_each (zip (seq (length pre) (length suffix)) suffix)
    (fun '(i, rule) (result : AnalysisResult) =>
       scan_earlier_rules rules (range i) rule result) result = Ok result' ->
  issues result' =
  issues result ++
  omap (fun '(i, rule) =>
          (fun E => unreachable_issue E rule) <$> first_cover (take i rules) rule)
       (zip (seq (length pre) (length suffix)) suffix).
Proof.
  revert pre result. induction suffix as [|x suffix IH];
    intros pre result Hrules Hrun.
  - simpl in Hrun. injection Hrun as <-. simpl. by rewrite app_nil_r.
  - simpl in Hrun. apply bind_Ok in Hrun as (r1 & Hscan & Hrest).
    apply (scan_earlier_rules_spec rules x (length pre) 0) in Hscan;
      [|subst rules; rewrite length_app; lia].
    rewrite drop_0 in Hscan.
    specialize (IH (pre ++ [x]) r1).
    rewrite length_app in IH. simpl in IH.
    replace (length pre + 1)%nat with (S (length pre)) in IH by lia.
    rewrite IH; [|by rewrite <- app_assoc|exact Hrest].
    rewrite Hscan, <- app_assoc. f_equal. simpl.
    by destruct (first_cover (take (length pre) rules) x).
Qed.

Lemma check_unreachable_total_from (rules pre suffix : list FirewallRule)
    (result : AnalysisResult) :
  rules = pre ++ suffix ->
  (forall E R, E ∈ rules -> R ∈ rules ->
               exists b, _rule_covers_completely E R = Ok b) ->
  exists result',
    for_each (zip (seq (length pre) (length suffix)) suffix)
      (fun '(i, rule) (result : AnalysisResult) =>
         scan_earlier_rules rules (range i) rule result) result = Ok result'.
Proof.
  revert pre result. induction suffix as [|x suffix IH];
    intros pre result Hrules Hcov.
  - by exists result.
  - simpl.
    destruct (scan_earlier_rules_total rules x (length pre) 0 result)
      as [r1 Hr1].
    + subst rules. rewrite length_app. lia.
    + intros E HE. apply Hcov; [done|]. subst rules.
      apply elem_of_app. right. by left.
    + unfold range. rewrite Hr1. simpl.
      specialize (IH (pre ++ [x]) r1).
      rewrite length_app in IH. simpl in IH.
      replace (length pre + 1)%nat with (S (length pre)) in IH by lia.
      apply IH; [by rewrite <- app_assoc | exact Hcov].
Qed.

End Unreachable.

(** C2, as the code behaves.  Whenever the unreachable check returns, it
    has added exactly [unreachable_findings]: going through the chain in
    order, at most one issue per rule R, and that issue names the first
    rule of the chain, in chain order, that is terminal and covers R
    completely (the covering rule farthest before R, not the nearest);
    its evidence is (earlier rule, R) and its severity medium.  The check
    returns whenever the cover test raises nothing on the chain's rules. *)
Theorem unreachable_reports_first_cover {L : IpLib} (rules : list FirewallRule)
    (result : AnalysisResult) :
  (forall result',
     _check_unreachable_rules rules result = Ok result' ->
     issues result' = issues result ++ unreachable_findings rules) /\
  ((forall E R, E ∈ rules -> R ∈ rules ->
                exists b, _rule_covers_completely E R = Ok b) ->
   exists result', _check_unreachable_rules rules result = Ok result') /\
  (forall i R E,
     rules !! i = Some R ->
     (first_cover (take i rules) R = Some E <->
      exists j, (j < i)%nat /\ rules !! j = Some E /\
                covers_and_terminal R E = true /\
                forall j' E', rules !! j' = Some E' -> (j' < j)%nat ->
                              covers_and_terminal R E' = false)) /\
  (forall E R, severity (unreachable_issue E R) = SEV_MEDIUM /\
               affected_rules (unreachable_issue E R) = [E; R]).
Proof.
  repeat split.
  - intros result' Hrun.
    apply (check_unreachable_from rules [] rules result result' eq_refl Hrun).
  - intros Hcov.
    apply (check_unreachable_total_from rules [] rules result eq_refl Hcov).
  - intros Hfirst. apply first_cover_Some in Hfirst as (j & Hj & Hc & Hmin).
    apply lookup_take_Some in Hj as [Hj Hlt].
    exists j. repeat split; [done..|].
    intros j' E' Hj' Hlt'. apply (Hmin j'); [|done].
    rewrite lookup_take_lt by lia. done.
  - intros (j & Hlt & Hj & Hc & Hmin). apply first_cover_Some.
    exists j. repeat split; [by rewrite lookup_take_lt|done|].
    intros j' E' Hj' Hlt'. apply lookup_take_Some in Hj' as [Hj' _].
    by apply (Hmin j').
Qed.

Lemma unreachable_reports_first_cover_witness :
  exists result',
    _check_unreachable_rules Scenario.shadowed_chain new_AnalysisResult
      = Ok result' /\
    issues result' =
      [unreachable_issue Scenario.drop1 Scenario.drop2;
       unreachable_issue Scenario.drop1 Scenario.web3].
Proof.
  destruct (unreachable_reports_first_cover (L := ipv4_lib)
              Scenario.shadowed_chain new_AnalysisResult)
    as (Hspec & Htotal & _).
  destruct Htotal as [result' Hrun].
  - intros E R HE HR.
    repeat (apply elem_of_cons in HE as [->|HE]);
      repeat (apply elem_of_cons in HR as [->|HR]);
      try (by apply elem_of_nil in HE); try (by apply elem_of_nil in HR);
      eexists; vm_compute; reflexivity.
  - exists result'. split; [exact Hrun|].
    rewrite (Hspec result' Hrun). vm_compute. reflexivity.
Defined.

Lemma shadowed_chain_unreachable :
  _check_unreachable_rules (L := ipv4_lib) Scenario.shadowed_chain
    new_AnalysisResult
  = Ok (add_issue
          (add_issue new_AnalysisResult
             (unreachable_issue Scenario.drop1 Scenario.drop2))
          (unreachable_issue Scenario.drop1 Scenario.web3)).
Proof. vm_compute. reflexivity. Qed.

(** The check does not report the nearest covering predecessor: in the
    chain made of two catch-all drops and a web rule, the issue for the
    web rule names the drop at line 1, while the drop at line 2 is the
    covering terminal rule closest before it. *)
Lemma nearest_cover_not_reported :
  ~ forall (rules : list FirewallRule) (result' : AnalysisResult)
           (i j : nat) (R E N : FirewallRule) (issue : RuleIssue),
      _check_unreachable_rules rules new_AnalysisResult = Ok result' ->
      rules !! i = Some R ->
      issue ∈ issues result' ->
      affected_rules issue = [E; R] ->
      (j < i)%nat -> rules !! j = Some N ->
      covers_and_terminal R N = true ->
      (forall j' N', (j < j' < i)%nat -> rules !! j' = Some N' ->
                     covers_and_terminal R N' = false) ->
      E = N.
Proof.
  intros Hclaim.
  specialize (Hclaim Scenario.shadowed_chain _ 2%nat 1%nat
                Scenario.web3 Scenario.drop1 Scenario.drop2
                (unreachable_issue Scenario.drop1 Scenario.web3)
                shadowed_chain_unreachable).
  assert (Scenario.drop1 = Scenario.drop2) as Heq; [|discriminate Heq].
  apply Hclaim.
  - reflexivity.
  - simpl. right. left.
  - reflexivity.
  - lia.
  - reflexivity.
  - reflexivity.
  - intros j' N' Hj'. lia.
Qed.

(** ** Restricted fields against absent ones *)

Section Coverage.
Context {L : IpLib}.

Lemma covers_check_absent (c : criterion) (g : string) :
  c ∈ [c_source_ip; c_destination_ip; c_source_port; c_destination_port] ->
  covers_check c (Some g) None = Ok false.
Proof.
  intros Hc. repeat (apply elem_of_cons in Hc as [->|Hc]);
    [reflexivity..|by apply elem_of_nil in Hc].
Qed.

Lemma covers_criteria_absent (criteria : list criterion) (E R : FirewallRule)
    (c : criterion) :
  c ∈ criteria ->
  c ∈ [c_source_ip; c_destination_ip; c_source_port; c_destination_port] ->
  getattr E c <> None -> getattr R c = None ->
  covers_criteria criteria E R <> Ok true.
Proof.
  intros Hin Hc HE HR. induction criteria as [|c0 criteria IH];
    [by apply elem_of_nil in Hin|].
  simpl. destruct (decide (c0 = c)) as [->|Hne].
  - destruct (getattr E c) as [g|] eqn:Eg; [|done].
    rewrite HR, covers_check_absent by done. simpl. discriminate.
  - apply elem_of_cons in Hin as [->|Hin]; [done|].
    destruct (covers_check c0 (getattr E c0) (getattr R c0)) as [[|]|e];
      simpl; [by apply IH | discriminate..].
Qed.

Lemma unreachable_findings_covered (rules : list FirewallRule)
    (issue : RuleIssue) :
  issue ∈ unreachable_findings rules ->
  exists E R, issue = unreachable_issue E R /\
              _rule_covers_completely E R = Ok true /\
              is_terminal (target E) = true.
Proof.
  unfold unreachable_findings. intros Hin.
  apply list_elem_of_omap in Hin as ([i R] & _ & Hf).
  destruct (first_cover (take i rules) R) as [E|] eqn:HE; [|discriminate].
  injection Hf as <-. exists E, R. split; [done|].
  apply first_cover_Some in HE as (j & _ & Hc & _).
  unfold covers_and_terminal in Hc.
  destruct (_rule_covers_completely E R) as [[|]|e]; try discriminate.
  by split.
Qed.

End Coverage.

(** C10.  A concrete general port or address specification never contains
    an absent one; so a rule that restricts a port or address field never
    completely covers a rule that leaves that field absent, and the
    unreachable check adds no issue with that pair as its evidence. *)
Theorem restricted_never_covers_absent {L : IpLib} :
  (forall g, _port_contains (Some g) None = Ok false) /\
  (forall g, _ip_contains (Some g) None = Ok false) /\
  (forall E R c,
     c ∈ [c_source_ip; c_destination_ip; c_source_port; c_destination_port] ->
     getattr E c <> None -> getattr R c = None ->
     _rule_covers_completely E R <> Ok true /\
     forall rules result result' issue,
       _check_unreachable_rules rules result = Ok result' ->
       issue ∈ issues result' -> issue ∉ issues result ->
       affected_rules issue <> [E; R]).
Proof.
  split; [reflexivity|]. split; [reflexivity|].
  intros E R c Hc HE HR.
  assert (_rule_covers_completely E R <> Ok true) as Hnot.
  { apply (covers_criteria_absent _ E R c); [|done..].
    repeat (apply elem_of_cons in Hc as [->|Hc]);
      [| | | |by apply elem_of_nil in Hc];
      unfold same_traffic_criteria; repeat first [left | right]. }
  split; [exact Hnot|].
  intros rules result result' issue Hrun Hin Hnew Haff.
  apply (check_unreachable_from rules [] rules result result' eq_refl) in Hrun.
  change (omap _ _) with (unreachable_findings rules) in Hrun.
  rewrite Hrun in Hin. apply elem_of_app in Hin as [Hin|Hin]; [done|].
  apply unreachable_findings_covered in Hin as (E' & R' & -> & Hcov & _).
  simpl in Haff. injection Haff as -> ->. done.
Qed.

Lemma restricted_never_covers_absent_witness :
  _rule_covers_completely (Scenario.tcp_dport_rule 1 "22" "ACCEPT")
    (Scenario.drop_all_rule 2) <> Ok true.
Proof.
  destruct (restricted_never_covers_absent (L := ipv4_lib)) as (_ & _ & H).
  apply (H _ _ c_destination_port);
    [do 3 right; left | discriminate | reflexivity].
Defined.

(** ** The conflict check *)

Section Conflicts.
Context {L : IpLib}.

Lemma match_criteria_spec (criteria : list criterion) (rule1 rule2 : FirewallRule) :
  match_criteria criteria rule1 rule2 =
  Ok (forallb (fields_compatible rule1 rule2) criteria).
Proof.
  induction criteria as [|c criteria IH]; simpl; [reflexivity|].
  unfold fields_compatible at 1.
  destruct (getattr rule1 c) as [val1|], (getattr rule2 c) as [val2|];
    try exact IH.
  destruct (decide (val1 = val2)) as [->|Hne].
  - rewrite (bool_decide_false (val2 ≠ val2)) by (intros H; by apply H).
    rewrite (bool_decide_true (val2 = val2) eq_refl). exact IH.
  - rewrite (bool_decide_true (val1 ≠ val2) Hne).
    rewrite (bool_decide_false (val1 = val2) Hne).
    destruct (is_ip_criterion c); simpl; [|reflexivity].
    destruct (_ip_ranges_overlap_total val1 val2) as [b ->]. simpl.
    destruct b; simpl; [exact IH | reflexivity].
Qed.

Lemma _rules_conflict_spec (rule1 rule2 : FirewallRule) :
  _rules_conflict rule1 rule2 = Ok (conflicts rule1 rule2).
Proof.
  unfold _rules_conflict, conflicts, _rules_match_same_traffic.
  destruct (decide (target rule1 = target rule2)) as [Heq|Hne].
  - by rewrite !bool_decide_true.
  - rewrite (bool_decide_false _ Hne), match_criteria_spec. simpl.
    rewrite bool_decide_true by done.
    by rewrite andb_true_r.
Qed.

Lemma all_criteria (c : criterion) : c ∈ same_traffic_criteria.
Proof. unfold same_traffic_criteria. destruct c; repeat first [left | right]. Qed.

Lemma fields_compatible_true (rule1 rule2 : FirewallRule) (c : criterion) :
  fields_compatible rule1 rule2 c = true <->
  forall val1 val2,
    getattr rule1 c = Some val1 -> getattr rule2 c = Some val2 ->
    val1 = val2 \/
    (is_ip_criterion c = true /\ _ip_ranges_overlap val1 val2 = Ok true).
Proof.
  unfold fields_compatible.
  destruct (getattr rule1 c) as [v1|], (getattr rule2 c) as [v2|];
    try (split; [intros _ ? ? ? ?; discriminate | done]).
  split.
  - intros H val1 val2 [= <-] [= <-].
    apply orb_true_iff in H as [H|H]; [left; by apply bool_decide_eq_true in H|].
    apply andb_true_iff in H as [Hip H]. right. split; [done|].
    destruct (_ip_ranges_overlap v1 v2) as [b|]; [by subst|discriminate].
  - intros H. destruct (H v1 v2 eq_refl eq_refl) as [->|[Hip Hov]].
    + by rewrite bool_decide_true.
    + rewrite Hip, Hov. apply orb_true_r.
Qed.

Lemma conflicts_true (rule1 rule2 : FirewallRule) :
  conflicts rule1 rule2 = true <->
  target rule1 <> target rule2 /\
  is_terminal (target rule1) = true /\ is_terminal (target rule2) = true /\
  forall c val1 val2,
    getattr rule1 c = Some val1 -> getattr rule2 c = Some val2 ->
    val1 = val2 \/
    (is_ip_criterion c = true /\ _ip_ranges_overlap val1 val2 = Ok true).
Proof.
  unfold conflicts. rewrite !andb_true_iff, negb_true_iff,
    bool_decide_eq_false, forallb_forall.
  split.
  - intros [[[Hne Hall] Ht1] Ht2].
    split; [exact Hne|]. split; [exact Ht1|]. split; [exact Ht2|].
    intros c. apply fields_compatible_true, Hall, list_elem_of_In, all_criteria.
  - intros (Hne & Ht1 & Ht2 & Hall).
    split; [|exact Ht2]. split; [|exact Ht1]. split; [exact Hne|].
    intros c _. apply fields_compatible_true, Hall.
Qed.

Lemma conflicts_with_later_spec (rule1 : FirewallRule)
    (later : list FirewallRule) (result : AnalysisResult) :
  exists result',
    conflicts_with_later rule1 later result = Ok result' /\
    issues result' =
    issues result ++
    (conflicting_issue rule1
       <$> filter (fun rule2 => conflicts rule1 rule2 = true) later).
Proof.
  revert result. induction later as [|rule2 later IH]; intros result.
  - exists result. split; [reflexivity|]. by rewrite app_nil_r.
  - unfold conflicts_with_later. simpl. rewrite _rules_conflict_spec. simpl.
    rewrite filter_cons.
    destruct (conflicts rule1 rule2) eqn:Hc.
    + destruct (IH (add_issue result (conflicting_issue rule1 rule2)))
        as (result' & Hrun & Hiss).
      exists result'. split; [exact Hrun|].
      rewrite Hiss, decide_True by done. simpl. by rewrite <- app_assoc.
    + destruct (IH result) as (result' & Hrun & Hiss).
      exists result'. split; [exact Hrun|].
      by rewrite Hiss, decide_False by congruence.
Qed.

Lemma check_conflicting_from (rules pre suffix : list FirewallRule)
    (result : AnalysisResult) :
  rules = pre ++ suffix ->
  exists result',
    for_each (zip (seq (length pre) (length suffix)) suffix)
      (fun '(i, rule1) (result : AnalysisResult) =>
         conflicts_with_later rule1 (drop (S i) rules) result) result
    = Ok result' /\
    issues result' =
    issues result ++
    mjoin ((fun '(i, rule1) =>
              conflicting_issue rule1
                <$> filter (fun rule2 => conflicts rule1 rule2 = true)
                      (drop (S i) rules))
             <$> zip (seq (length pre) (length suffix)) suffix).
Proof.
  revert pre result. induction suffix as [|x suffix IH]; intros pre result Hrules.
  - exists result. split; [reflexivity|]. simpl. by rewrite app_nil_r.
  - simpl.
    destruct (conflicts_with_later_spec x (drop (S (length pre)) rules) result)
      as (r1 & Hr1 & Hiss1).
    rewrite Hr1. simpl.
    specialize (IH (pre ++ [x]) r1).
    rewrite length_app in IH. simpl in IH.
    replace (length pre + 1)%nat with (S (length pre)) in IH by lia.
    destruct IH as (result' & Hrun & Hiss); [by rewrite <- app_assoc|].
    exists result'. split; [exact Hrun|].
    by rewrite Hiss, Hiss1, <- app_assoc.
Qed.

Lemma conflict_findings_elem (rules : list FirewallRule) (issue : RuleIssue) :
  issue ∈ conflict_findings rules <->
  exists i j rule1 rule2,
    (i < j)%nat /\ rules !! i = Some rule1 /\ rules !! j = Some rule2 /\
    conflicts rule1 rule2 = true /\ issue = conflicting_issue rule1 rule2.
Proof.
  unfold conflict_findings, enumerate. rewrite list_elem_of_join. split.
  - intros (l & Hin & Hl).
    apply list_elem_of_fmap in Hl as ([i rule1] & -> & Hz).
    apply list_elem_of_lookup in Hz as (k & Hk).
    apply lookup_zip_with_Some in Hk as (i' & r' & [= <- <-] & Hseq & Hrule).
    apply lookup_seq in Hseq as [-> _]. simpl in Hrule.
    apply list_elem_of_fmap in Hin as (rule2 & -> & Hf).
    apply list_elem_of_filter in Hf as [Hc H2].
    apply list_elem_of_lookup in H2 as (d & Hd). rewrite lookup_drop in Hd.
    exists k, (S k + d)%nat, rule1, rule2. repeat split; [lia|done..].
  - intros (i & j & rule1 & rule2 & Hlt & Hi & Hj & Hc & ->).
    exists (conflicting_issue rule1
              <$> filter (fun rule2 => conflicts rule1 rule2 = true)
                    (drop (S i) rules)).
    split.
    + apply list_elem_of_fmap. exists rule2. split; [done|].
      apply list_elem_of_filter. split; [done|].
      apply list_elem_of_lookup. exists (j - S i)%nat.
      rewrite lookup_drop. by replace (S i + (j - S i))%nat with j by lia.
    + apply list_elem_of_fmap. exists (i, rule1). split; [done|].
      apply list_elem_of_lookup. exists i.
      apply lookup_zip_with_Some. exists i, rule1. repeat split; [|done].
      apply lookup_seq. split; [done|]. by eapply lookup_lt_Some.
Qed.

End Conflicts.

(** C3, as the code behaves.  The conflict check raises nothing and adds
    exactly [conflict_findings]: an issue for a pair of positions i < j
    if and only if the two rules have different targets, both targets
    are terminal, and on every matching field (protocol, source,
    destination, source port, destination port, both interfaces) one
    side is absent or the two values are the same string or, for the two
    address fields only, the addresses overlap.  Ports, protocols and
    interfaces are compared as strings, without interval reasoning.  The
    evidence is (earlier rule, later rule); the severity is high when
    either target is DROP and medium otherwise. *)
Theorem conflict_check_characterised {L : IpLib} (rules : list FirewallRule)
    (result : AnalysisResult) :
  (exists result',
     _check_conflicting_rules rules result = Ok result' /\
     issues result' = issues result ++ conflict_findings rules) /\
  (forall issue,
     issue ∈ conflict_findings rules <->
     exists i j rule1 rule2,
       (i < j)%nat /\ rules !! i = Some rule1 /\ rules !! j = Some rule2 /\
       conflicts rule1 rule2 = true /\ issue = conflicting_issue rule1 rule2) /\
  (forall rule1 rule2,
     _rules_conflict rule1 rule2 = Ok (conflicts rule1 rule2) /\
     (conflicts rule1 rule2 = true <->
      target rule1 <> target rule2 /\
      is_terminal (target rule1) = true /\ is_terminal (target rule2) = true /\
      forall c val1 val2,
        getattr rule1 c = Some val1 -> getattr rule2 c = Some val2 ->
        val1 = val2 \/
        (is_ip_criterion c = true /\ _ip_ranges_overlap val1 val2 = Ok true)) /\
     affected_rules (conflicting_issue rule1 rule2) = [rule1; rule2] /\
     severity (conflicting_issue rule1 rule2) =
       (if bool_decide (target rule1 = "DROP" \/ target rule2 = "DROP")
        then SEV_HIGH else SEV_MEDIUM)).
Proof.
  split; [|split].
  - apply (check_conflicting_from rules [] rules result eq_refl).
  - apply conflict_findings_elem.
  - intros rule1 rule2. split; [apply _rules_conflict_spec|].
    split; [apply conflicts_true|]. split; [reflexivity|].
    simpl. unfold conflict_severity.
    destruct (decide (target rule1 = "DROP")) as [H1|H1],
             (decide (target rule2 = "DROP")) as [H2|H2];
      rewrite ?(bool_decide_true _ H1), ?(bool_decide_false _ H1),
        ?(bool_decide_true _ H2), ?(bool_decide_false _ H2); simpl;
      [rewrite bool_decide_true by tauto..|rewrite bool_decide_false by tauto];
      reflexivity.
Qed.

Lemma conflict_check_characterised_witness :
  conflicting_issue Scenario.ssh1 Scenario.drop3
    ∈ conflict_findings [Scenario.ssh1; Scenario.ssh2; Scenario.drop3].
Proof.
  destruct (conflict_check_characterised (L := ipv4_lib)
              [Scenario.ssh1; Scenario.ssh2; Scenario.drop3]
              new_AnalysisResult) as (_ & Helem & _).
  apply Helem. exists 0%nat, 2%nat, Scenario.ssh1, Scenario.drop3.
  repeat split; first [lia | vm_compute; reflexivity].
Defined.

(** The conflict condition as the specification words it, with
    overlapping port intervals, is not what decides: an accept for port
    80 and a later drop for ports 80 to 90 overlap on every field, yet no
    conflict is reported. *)
Lemma port_range_conflict_not_reported :
  conflict_as_specified Scenario.web1 Scenario.range2 /\
  _check_conflicting_rules [Scenario.web1; Scenario.range2] new_AnalysisResult
  = Ok new_AnalysisResult.
Proof.
  split; [|vm_compute; reflexivity].
  split; [discriminate|]. split; [reflexivity|]. split; [reflexivity|].
  intros c val1 val2 H1 H2.
  destruct c; simpl in H1, H2; try discriminate;
    injection H1 as <-; injection H2 as <-; simpl; [reflexivity|].
  exists 80, 80, 80, 90. repeat split; [vm_compute; reflexivity..|lia].
Qed.

(** ** The default-policy pass *)

(** An INPUT chain of the filter table that ends in
    [-A INPUT -p tcp --dport 443 -j ACCEPT] gets exactly one
    recommendation: add-rule, priority medium, proposing
    [-A INPUT -j DROP]. *)
Lemma default_drop_proposed_after_accept :
  let plan :=
    _check_default_policies
      (tables (Scenario.config_of
                 [Scenario.tcp_dport_rule 1 "22" "ACCEPT";
                  Scenario.tcp_dport_rule 2 "443" "ACCEPT"]))
      new_OptimizationPlan in
  recommendations plan = [default_drop_recommendation "filter" "INPUT"] /\
  rec_type (default_drop_recommendation "filter" "INPUT") = ADD_RULE /\
  priority (default_drop_recommendation "filter" "INPUT") = PRIO_MEDIUM /\
  raw_rule <$> new_rules (default_drop_recommendation "filter" "INPUT")
    = ["-A INPUT -j DROP"].
Proof. vm_compute. repeat split. Qed.

(** C9, where the code falls short.  The last rule of the INPUT chain is
    [-A INPUT -i eth0 -j DROP], a drop for one interface only and so not
    an unconditional drop; the pass looks at the target, the protocol and
    the two addresses only, takes the rule for a default drop and
    proposes nothing. *)
Theorem default_drop_missed_after_conditional_drop :
  interface_in (Scenario.eth0_drop_rule 2) = Some "eth0" /\
  _check_default_policies
    (tables (Scenario.config_of
               [Scenario.tcp_dport_rule 1 "443" "ACCEPT";
                Scenario.eth0_drop_rule 2]))
    new_OptimizationPlan
  = new_OptimizationPlan.
Proof. vm_compute. split; reflexivity. Qed.

(** ** The store: well-formed policies *)

Lemma get_dict_Ok (h : store) (l : loc) (entries : list (string * loc)) :
  get_dict h l = Ok entries <-> h !! l = Some (ODict entries).
Proof.
  unfold get_dict. destruct (h !! l) as [[es|rs]|]; split; congruence.
Qed.

Lemma get_list_Ok (h : store) (l : loc) (rules : list FirewallRule) :
  get_list h l = Ok rules <-> h !! l = Some (OList rules).
Proof.
  unfold get_list. destruct (h !! l) as [[es|rs]|]; split; congruence.
Qed.

Lemma shrinks_refl (h : store) : shrinks h h.
Proof.
  split; [done|]. intros l [es|rs] Hl; [done|]. by exists rs.
Qed.

Lemma shrinks_trans (h1 h2 h3 : store) :
  shrinks h1 h2 -> shrinks h2 h3 -> shrinks h1 h3.
Proof.
  intros [Hlen12 H12] [Hlen23 H23]. split; [congruence|].
  intros l o Hl. specialize (H12 l o Hl). destruct o as [es|rs].
  - apply (H23 l _ H12).
  - destruct H12 as (rs2 & Hl2 & Hsub2).
    destruct (H23 l _ Hl2) as (rs3 & Hl3 & Hsub3).
    exists rs3. split; [done|]. by etrans.
Qed.

Lemma shrinks_update (h : store) (l : loc) (rules rules' : list FirewallRule) :
  h !! l = Some (OList rules) -> rules' `sublist_of` rules ->
  shrinks h (<[l := OList rules']> h).
Proof.
  intros Hl Hsub. split; [by rewrite length_insert|].
  intros x o Hx. destruct (decide (x = l)) as [->|Hne].
  - rewrite Hl in Hx. injection Hx as <-. exists rules'.
    split; [|done]. apply list_lookup_insert_eq. by eapply lookup_lt_Some.
  - rewrite list_lookup_insert_ne by done.
    destruct o as [es|rs]; [done|]. by exists rs.
Qed.

Lemma shrinks_rules_at (h h' : store) (l : loc) :
  shrinks h h' -> rules_at h' l `sublist_of` rules_at h l.
Proof.
  intros [Hlen Hsh]. unfold rules_at.
  destruct (h !! l) as [[es|rs]|] eqn:Hl.
  - by rewrite (Hsh l _ Hl).
  - destruct (Hsh l _ Hl) as (rs' & -> & Hsub). done.
  - apply lookup_ge_None in Hl.
    rewrite (proj2 (lookup_ge_None h' l)) by lia. done.
Qed.

Lemma shrinks_chain_rules (h h' : store) (chain_entries : list (string * loc)) :
  shrinks h h' ->
  chain_rules h' chain_entries `sublist_of` chain_rules h chain_entries.
Proof.
  intros Hsh. unfold chain_rules.
  induction chain_entries as [|[cn l] ces IH]; simpl; [done|].
  apply sublist_app; [by apply shrinks_rules_at | exact IH].
Qed.

Lemma shrinks_table_rules (h h' : store) (d : loc) :
  shrinks h h' -> table_rules h' d `sublist_of` table_rules h d.
Proof.
  intros Hsh. unfold table_rules.
  destruct (h !! d) as [[es|rs]|] eqn:Hd.
  - rewrite (proj2 Hsh d _ Hd). by apply shrinks_chain_rules.
  - destruct (proj2 Hsh d _ Hd) as (rs' & -> & _). done.
  - apply lookup_ge_None in Hd.
    rewrite (proj2 (lookup_ge_None h' d)); [done|]. destruct Hsh. lia.
Qed.

Lemma shrinks_is_list (h h' : store) (l : loc) :
  shrinks h h' -> is_list h l -> is_list h' l.
Proof.
  intros [_ Hsh] [rs Hl]. destruct (Hsh l _ Hl) as (rs' & Hl' & _).
  by exists rs'.
Qed.

Lemma shrinks_wf_chains (h h' : store) (d : loc) :
  shrinks h h' -> wf_chains h d -> wf_chains h' d.
Proof.
  intros Hsh (ces & Hd & Hall). exists ces. split; [apply (proj2 Hsh d _ Hd)|].
  intros cn l Hin. eapply shrinks_is_list; [done|]. by eapply Hall.
Qed.

Lemma chain_rules_elem (h : store) (chain_entries : list (string * loc))
    (rule : FirewallRule) :
  rule ∈ chain_rules h chain_entries <->
  exists cn l, (cn, l) ∈ chain_entries /\ rule ∈ rules_at h l.
Proof.
  unfold chain_rules. rewrite list_elem_of_join. split.
  - intros (rs & Hin & Hrs).
    apply list_elem_of_fmap in Hrs as ([cn l] & -> & He). by exists cn, l.
  - intros (cn & l & He & Hin). exists (rules_at h l). split; [done|].
    apply list_elem_of_fmap. by exists (cn, l).
Qed.

(** ** Deleting rules *)

Lemma list_remove_first_total (rule : FirewallRule) (rules : list FirewallRule) :
  rule ∈ rules -> exists rules', list_remove_first rule rules = Ok rules'.
Proof.
  induction rules as [|y rules IH]; intros Hin; [by apply elem_of_nil in Hin|].
  simpl. destruct (decide (y = rule)) as [->|Hne].
  - rewrite bool_decide_true by done. eauto.
  - rewrite bool_decide_false by done.
    apply elem_of_cons in Hin as [->|Hin]; [done|].
    destruct (IH Hin) as [rules' ->]. simpl. eauto.
Qed.

Lemma list_remove_first_sublist (rule : FirewallRule)
    (rules rules' : list FirewallRule) :
  list_remove_first rule rules = Ok rules' -> rules' `sublist_of` rules.
Proof.
  revert rules'. induction rules as [|y rules IH]; intros rules' H;
    simpl in H; [discriminate|].
  destruct (bool_decide (y = rule)).
  - injection H as <-. by apply sublist_cons.
  - apply bind_Ok in H as (rest & Hrest & [= <-]).
    apply sublist_skip. by apply IH.
Qed.

Lemma list_remove_first_gone (rule : FirewallRule)
    (rules rules' : list FirewallRule) :
  NoDup rules -> list_remove_first rule rules = Ok rules' -> rule ∉ rules'.
Proof.
  revert rules'. induction rules as [|y rules IH]; intros rules' Hnd H;
    simpl in H; [discriminate|].
  apply NoDup_cons in Hnd as [Hy Hnd].
  destruct (decide (y = rule)) as [->|Hne].
  - rewrite bool_decide_true in H by done. by injection H as <-.
  - rewrite bool_decide_false in H by done.
    apply bind_Ok in H as (rest & Hrest & [= <-]).
    apply not_elem_of_cons. split; [congruence|]. by apply IH.
Qed.

Lemma delete_from_chains_cons (rule : FirewallRule) (cn : string) (l : loc)
    (chain_entries : list (string * loc)) (h : store) :
  delete_from_chains rule ((cn, l) :: chain_entries) h =
  rules ← get_list h l;
  if bool_decide (rule ∈ rules)
  then rules' ← list_remove_first rule rules; Ok (<[l := OList rules']> h)
  else delete_from_chains rule chain_entries h.
Proof.
  unfold delete_from_chains. simpl.
  destruct (get_list h l) as [rules|e]; simpl; [|reflexivity].
  destruct (bool_decide (rule ∈ rules)); simpl; [|reflexivity].
  by destruct (list_remove_first rule rules).
Qed.

Lemma delete_from_chains_shrinks (rule : FirewallRule)
    (chain_entries : list (string * loc)) (h h' : store) :
  delete_from_chains rule chain_entries h = Ok h' -> shrinks h h'.
Proof.
  induction chain_entries as [|[cn l] ces IH]; intros H.
  - injection H as <-. apply shrinks_refl.
  - rewrite delete_from_chains_cons in H.
    apply bind_Ok in H as (rules & Hl & H). apply get_list_Ok in Hl.
    destruct (bool_decide (rule ∈ rules)); [|by apply IH].
    apply bind_Ok in H as (rules' & Hrm & [= <-]).
    eapply shrinks_update; [done|]. by eapply list_remove_first_sublist.
Qed.

Lemma delete_from_chains_total (rule : FirewallRule)
    (chain_entries : list (string * loc)) (h : store) :
  (forall cn l, (cn, l) ∈ chain_entries -> is_list h l) ->
  exists h', delete_from_chains rule chain_entries h = Ok h'.
Proof.
  induction chain_entries as [|[cn l] ces IH]; intros Hall; [by exists h|].
  rewrite delete_from_chains_cons.
  destruct (Hall cn l) as [rules Hl]; [by left|].
  rewrite (proj2 (get_list_Ok h l rules) Hl). simpl.
  destruct (decide (rule ∈ rules)) as [Hin|Hnot].
  - rewrite bool_decide_true by done.
    destruct (list_remove_first_total _ _ Hin) as [rules' ->]. simpl. eauto.
  - rewrite bool_decide_false by done. apply IH.
    intros cn' l' Hin'. apply (Hall cn'). by right.
Qed.

(** A rule that is in none of the chains: nothing is removed. *)
Lemma delete_from_chains_absent (rule : FirewallRule)
    (chain_entries : list (string * loc)) (h : store) :
  (forall cn l, (cn, l) ∈ chain_entries -> is_list h l) ->
  rule ∉ chain_rules h chain_entries ->
  delete_from_chains rule chain_entries h = Ok h.
Proof.
  induction chain_entries as [|[cn l] ces IH]; intros Hall Hnot; [done|].
  rewrite delete_from_chains_cons.
  destruct (Hall cn l) as [rules Hl]; [by left|].
  rewrite (proj2 (get_list_Ok h l rules) Hl). simpl.
  rewrite bool_decide_false.
  - apply IH.
    + intros cn' l' Hin'. apply (Hall cn'). by right.
    + intros Hin. apply Hnot. apply chain_rules_elem.
      apply chain_rules_elem in Hin as (cn' & l' & He & Hr).
      exists cn', l'. split; [by right | done].
  - intros Hin. apply Hnot. apply chain_rules_elem.
    exists cn, l. split; [by left|]. unfold rules_at. by rewrite Hl.
Qed.

(** With no rule twice among the chains, the rule is gone from all of
    them once the loop is through. *)
Lemma delete_from_chains_gone (rule : FirewallRule)
    (chain_entries : list (string * loc)) (h h' : store) :
  NoDup (chain_rules h chain_entries) ->
  delete_from_chains rule chain_entries h = Ok h' ->
  rule ∉ chain_rules h' chain_entries.
Proof.
  revert h'. induction chain_entries as [|[cn l] ces IH]; intros h' Hnd H.
  - unfold chain_rules. simpl. apply not_elem_of_nil.
  - pose proof (delete_from_chains_shrinks _ _ _ _ H) as Hsh.
    rewrite delete_from_chains_cons in H.
    apply bind_Ok in H as (rules & Hl & H). apply get_list_Ok in Hl.
    assert (chain_rules h ((cn, l) :: ces) = rules ++ chain_rules h ces) as Hcr.
    { unfold chain_rules. simpl. unfold rules_at at 1. by rewrite Hl. }
    rewrite Hcr in Hnd. apply NoDup_app in Hnd as (Hnd1 & Hdisj & Hnd2).
    destruct (decide (rule ∈ rules)) as [Hin|Hnot].
    + rewrite bool_decide_true in H by done.
      apply bind_Ok in H as (rules' & Hrm & [= <-]).
      pose proof (list_remove_first_gone _ _ _ Hnd1 Hrm) as Hgone.
      intros Hr. apply chain_rules_elem in Hr as (cn' & l' & He & Hr).
      unfold rules_at in Hr. destruct (decide (l' = l)) as [->|Hne].
      * rewrite list_lookup_insert_eq in Hr by (by eapply lookup_lt_Some).
        done.
      * rewrite list_lookup_insert_ne in Hr by done.
        apply elem_of_cons in He as [[= -> ->]|He]; [done|].
        apply (Hdisj rule Hin). apply chain_rules_elem. by exists cn', l'.
    + rewrite bool_decide_false in H by done.
      intros Hr. apply chain_rules_elem in Hr as (cn' & l' & He & Hr).
      apply elem_of_cons in He as [[= -> ->]|He].
      * apply Hnot. pose proof (shrinks_rules_at h h' l Hsh) as Hsub.
        unfold rules_at at 2 in Hsub. rewrite Hl in Hsub.
        by eapply elem_of_sublist.
      * apply (IH h' Hnd2 H). apply chain_rules_elem. by exists cn', l'.
Qed.

Lemma delete_from_tables_cons (rule : FirewallRule) (tn : string) (d : loc)
    (table_entries : list (string * loc)) (h : store) :
  delete_from_tables rule ((tn, d) :: table_entries) h =
  chain_entries ← get_dict h d;
  h' ← delete_from_chains rule chain_entries h;
  delete_from_tables rule table_entries h'.
Proof.
  unfold delete_from_tables. simpl.
  by destruct (get_dict h d) as [ces|e].
Qed.

Lemma delete_from_tables_shrinks (rule : FirewallRule)
    (table_entries : list (string * loc)) (h h' : store) :
  delete_from_tables rule table_entries h = Ok h' -> shrinks h h'.
Proof.
  revert h. induction table_entries as [|[tn d] tes IH]; intros h H.
  - injection H as <-. apply shrinks_refl.
  - rewrite delete_from_tables_cons in H.
    apply bind_Ok in H as (ces & _ & H). apply bind_Ok in H as (h1 & H1 & H).
    eapply shrinks_trans; [by eapply delete_from_chains_shrinks | by apply IH].
Qed.

Lemma delete_from_tables_total (rule : FirewallRule)
    (table_entries : list (string * loc)) (h : store) :
  (forall tn d, (tn, d) ∈ table_entries -> wf_chains h d) ->
  exists h', delete_from_tables rule table_entries h = Ok h'.
Proof.
  revert h. induction table_entries as [|[tn d] tes IH]; intros h Hwf;
    [by exists h|].
  rewrite delete_from_tables_cons.
  destruct (Hwf tn d) as (ces & Hd & Hlists); [by left|].
  rewrite (proj2 (get_dict_Ok h d ces) Hd). simpl.
  destruct (delete_from_chains_total rule ces h Hlists) as [h1 H1].
  rewrite H1. simpl. apply IH. intros tn' d' Hin.
  eapply shrinks_wf_chains; [by eapply delete_from_chains_shrinks|].
  apply (Hwf tn'). by right.
Qed.

Lemma delete_from_tables_absent (rule : FirewallRule)
    (table_entries : list (string * loc)) (h : store) :
  (forall tn d, (tn, d) ∈ table_entries ->
                wf_chains h d /\ rule ∉ table_rules h d) ->
  delete_from_tables rule table_entries h = Ok h.
Proof.
  induction table_entries as [|[tn d] tes IH]; intros Hall; [done|].
  rewrite delete_from_tables_cons.
  destruct (Hall tn d) as [(ces & Hd & Hlists) Hnot]; [by left|].
  rewrite (proj2 (get_dict_Ok h d ces) Hd). simpl.
  unfold table_rules in Hnot. rewrite Hd in Hnot.
  rewrite (delete_from_chains_absent rule ces h Hlists Hnot). simpl.
  apply IH. intros tn' d' Hin. apply (Hall tn'). by right.
Qed.

Lemma delete_from_tables_gone (rule : FirewallRule)
    (table_entries : list (string * loc)) (h h' : store) :
  (forall tn d, (tn, d) ∈ table_entries -> NoDup (table_rules h d)) ->
  delete_from_tables rule table_entries h = Ok h' ->
  forall tn d, (tn, d) ∈ table_entries -> rule ∉ table_rules h' d.
Proof.
  revert h. induction table_entries as [|[tn d] tes IH]; intros h Hnd H tn' d' Hin;
    [by apply elem_of_nil in Hin|].
  rewrite delete_from_tables_cons in H.
  apply bind_Ok in H as (ces & Hd & H). apply get_dict_Ok in Hd.
  apply bind_Ok in H as (h1 & H1 & H).
  pose proof (delete_from_chains_shrinks _ _ _ _ H1) as Hsh1.
  pose proof (delete_from_tables_shrinks _ _ _ _ H) as Hsh.
  apply elem_of_cons in Hin as [[= -> ->]|Hin].
  - intros Hr.
    assert (rule ∈ table_rules h1 d) as Hr1.
    { eapply elem_of_sublist; [exact Hr|]. by apply shrinks_table_rules. }
    unfold table_rules in Hr1. rewrite (proj2 Hsh1 d _ Hd) in Hr1.
    revert Hr1. apply (delete_from_chains_gone rule ces h h1); [|done].
    specialize (Hnd tn d ltac:(by left)).
    unfold table_rules in Hnd. by rewrite Hd in Hnd.
  - eapply (IH h1); [|exact H|exact Hin].
    intros tn2 d2 Hin2.
    apply (sublist_NoDup _ (table_rules h d2)).
    + apply (Hnd tn2). by right.
    + by apply shrinks_table_rules.
Qed.

Lemma shrinks_wf_config (h h' : store) (config : FirewallConfigRef) :
  shrinks h h' -> wf_config h config -> wf_config h' config.
Proof.
  intros Hsh (tes & Ht & Hall). exists tes.
  split; [apply (proj2 Hsh _ _ Ht)|].
  intros tn d Hin. eapply shrinks_wf_chains; [done|]. by eapply Hall.
Qed.

Lemma shrinks_tables_dict (h h' : store) (config : FirewallConfigRef)
    (table_entries : list (string * loc)) :
  shrinks h h' -> wf_config h config ->
  h' !! tables_ref config = Some (ODict table_entries) ->
  h !! tables_ref config = Some (ODict table_entries).
Proof.
  intros Hsh (tes & Ht & _) Ht'.
  rewrite (proj2 Hsh _ _ Ht) in Ht'. by injection Ht' as <-.
Qed.

Lemma shrinks_distinct_rules (h h' : store) (config : FirewallConfigRef) :
  shrinks h h' -> wf_config h config ->
  distinct_rules h config -> distinct_rules h' config.
Proof.
  intros Hsh Hwf Hnd tes tn d Ht' Hin.
  apply (sublist_NoDup _ (table_rules h d)); [|by apply shrinks_table_rules].
  eapply Hnd; [|done]. by eapply shrinks_tables_dict.
Qed.

Lemma shrinks_rule_absent (h h' : store) (config : FirewallConfigRef)
    (rule : FirewallRule) :
  shrinks h h' -> wf_config h config ->
  rule_absent h config rule -> rule_absent h' config rule.
Proof.
  intros Hsh Hwf Habs tes tn d Ht' Hin Hr.
  eapply (Habs tes tn d); [by eapply shrinks_tables_dict|done|].
  eapply elem_of_sublist; [done|]. by apply shrinks_table_rules.
Qed.

Lemma delete_rule_shrinks (config : FirewallConfigRef) (rule : FirewallRule)
    (h h' : store) :
  delete_rule config rule h = Ok h' -> shrinks h h'.
Proof.
  unfold delete_rule. intros H. apply bind_Ok in H as (tes & _ & H).
  by eapply delete_from_tables_shrinks.
Qed.

Lemma delete_rule_total (config : FirewallConfigRef) (rule : FirewallRule)
    (h : store) :
  wf_config h config -> exists h', delete_rule config rule h = Ok h'.
Proof.
  intros (tes & Ht & Hall). unfold delete_rule.
  rewrite (proj2 (get_dict_Ok _ _ _) Ht). simpl.
  by apply delete_from_tables_total.
Qed.

Lemma delete_rule_absent (config : FirewallConfigRef) (rule : FirewallRule)
    (h : store) :
  wf_config h config -> rule_absent h config rule ->
  delete_rule config rule h = Ok h.
Proof.
  intros (tes & Ht & Hall) Habs. unfold delete_rule.
  rewrite (proj2 (get_dict_Ok _ _ _) Ht). simpl.
  apply delete_from_tables_absent. intros tn d Hin.
  split; [by eapply Hall | by eapply Habs].
Qed.

Lemma delete_rule_gone (config : FirewallConfigRef) (rule : FirewallRule)
    (h h' : store) :
  wf_config h config -> distinct_rules h config ->
  delete_rule config rule h = Ok h' -> rule_absent h' config rule.
Proof.
  intros Hwf Hnd H tes' tn d Ht' Hin.
  pose proof (delete_rule_shrinks _ _ _ _ H) as Hsh.
  pose proof (shrinks_tables_dict _ _ _ _ Hsh Hwf Ht') as Ht.
  unfold delete_rule in H. rewrite (proj2 (get_dict_Ok _ _ _) Ht) in H.
  simpl in H.
  eapply (delete_from_tables_gone rule tes' h h'); [|done..].
  intros tn2 d2 Hin2. by eapply Hnd.
Qed.

Lemma delete_rules_run (config : FirewallConfigRef) (rules : list FirewallRule)
    (h : store) :
  wf_config h config -> distinct_rules h config ->
  exists h',
    for_each rules (delete_rule config) h = Ok h' /\ shrinks h h' /\
    forall rule, rule ∈ rules -> rule_absent h' config rule.
Proof.
  revert h. induction rules as [|r rules IH]; intros h Hwf Hnd.
  - exists h. split; [done|]. split; [apply shrinks_refl|].
    intros rule Hin. by apply elem_of_nil in Hin.
  - destruct (delete_rule_total config r h Hwf) as [h1 H1].
    pose proof (delete_rule_shrinks _ _ _ _ H1) as Hsh1.
    destruct (IH h1) as (h' & Hrun & Hsh & Habs).
    { by eapply shrinks_wf_config. }
    { by eapply shrinks_distinct_rules. }
    exists h'. simpl. rewrite H1. simpl. split; [exact Hrun|].
    split; [by eapply shrinks_trans|].
    intros rule Hin. apply elem_of_cons in Hin as [->|Hin]; [|by apply Habs].
    eapply shrinks_rule_absent; [exact Hsh|by eapply shrinks_wf_config|].
    by eapply delete_rule_gone.
Qed.

Lemma delete_rules_absent (config : FirewallConfigRef)
    (rules : list FirewallRule) (h : store) :
  wf_config h config ->
  (forall rule, rule ∈ rules -> rule_absent h config rule) ->
  for_each rules (delete_rule config) h = Ok h.
Proof.
  intros Hwf. induction rules as [|r rules IH]; intros Habs; [done|].
  simpl. rewrite delete_rule_absent; [|done|apply Habs; by left]. simpl.
  apply IH. intros rule Hin. apply Habs. by right.
Qed.

(** A run of recommendations none of which adds a rule: everything the
    delete recommendations name is gone afterwards. *)
Lemma recommendations_run (config : FirewallConfigRef)
    (recs : list Recommendation) (h : store) :
  wf_config h config -> distinct_rules h config ->
  (forall rec, rec ∈ recs -> rec_type rec <> ADD_RULE) ->
  exists h',
    apply_recommendations config recs h = Ok h' /\ shrinks h h' /\
    forall rec rule,
      rec ∈ recs -> rec_type rec = DELETE_RULE ->
      rule ∈ rec_affected_rules rec -> rule_absent h' config rule.
Proof.
  revert h. induction recs as [|rec recs IH]; intros h Hwf Hnd Hno.
  - exists h. split; [done|]. split; [apply shrinks_refl|].
    intros rec rule Hin. by apply elem_of_nil in Hin.
  - assert (exists h1,
              apply_recommendation config rec h = Ok h1 /\ shrinks h h1 /\
              (rec_type rec = DELETE_RULE ->
               forall rule, rule ∈ rec_affected_rules rec ->
                            rule_absent h1 config rule)) as (h1 & H1 & Hsh1 & Habs1).
    { unfold apply_recommendation, _apply_delete_recommendation.
      destruct (rec_type rec) eqn:Ht;
        try (exists h; split; [done|]; split; [apply shrinks_refl|done]).
      - destruct (delete_rules_run config (rec_affected_rules rec) h Hwf Hnd)
          as (h1 & H1 & Hsh1 & Habs1).
        exists h1. eauto.
      - exfalso. apply (Hno rec); [by left | done]. }
    destruct (IH h1) as (h' & Hrun & Hsh & Habs).
    { by eapply shrinks_wf_config. }
    { by eapply shrinks_distinct_rules. }
    { intros rec' Hin. apply Hno. by right. }
    exists h'. unfold apply_recommendations. simpl. rewrite H1. simpl.
    split; [exact Hrun|]. split; [by eapply shrinks_trans|].
    intros rec' rule Hin Hdel Hr. apply elem_of_cons in Hin as [->|Hin].
    + eapply shrinks_rule_absent; [exact Hsh|by eapply shrinks_wf_config|].
      by apply Habs1.
    + by eapply Habs.
Qed.

Lemma recommendations_absent (config : FirewallConfigRef)
    (recs : list Recommendation) (h : store) :
  wf_config h config ->
  (forall rec, rec ∈ recs -> rec_type rec <> ADD_RULE) ->
  (forall rec rule,
     rec ∈ recs -> rec_type rec = DELETE_RULE ->
     rule ∈ rec_affected_rules rec -> rule_absent h config rule) ->
  apply_recommendations config recs h = Ok h.
Proof.
  intros Hwf. induction recs as [|rec recs IH]; intros Hno Habs; [done|].
  unfold apply_recommendations. simpl.
  assert (apply_recommendation config rec h = Ok h) as ->.
  { unfold apply_recommendation, _apply_delete_recommendation.
    destruct (rec_type rec) eqn:Ht; try done.
    - apply delete_rules_absent; [done|].
      intros rule Hin. apply (Habs rec); [by left|done..].
    - exfalso. apply (Hno rec); [by left | done]. }
  simpl. apply IH.
  - intros rec' Hin. apply Hno. by right.
  - intros rec' rule Hin. apply Habs. by right.
Qed.

Lemma elem_of_insert_by_priority (rec x : Recommendation)
    (sorted : list Recommendation) :
  x ∈ insert_by_priority rec sorted <-> x = rec \/ x ∈ sorted.
Proof.
  induction sorted as [|r sorted IH]; simpl.
  - rewrite list_elem_of_singleton, elem_of_nil. tauto.
  - destruct (_ <? _); rewrite !elem_of_cons; [rewrite IH|]; tauto.
Qed.

Lemma elem_of_sorted_by_priority (recs : list Recommendation)
    (x : Recommendation) :
  x ∈ sorted_by_priority recs <-> x ∈ recs.
Proof.
  unfold sorted_by_priority. induction recs as [|rec recs IH]; simpl; [done|].
  by rewrite elem_of_insert_by_priority, IH, elem_of_cons.
Qed.

(** C7, as the code behaves.  On a well-formed policy copy in which no
    rule occurs twice within one table, running the plan's delete-rule
    recommendations (in the applier's order) succeeds, and running them
    a second time on the same copy succeeds and leaves the store, and so
    the policy, as the first run left it. *)
Theorem delete_twice_is_delete_once (h : store) (config : FirewallConfigRef)
    (plan : OptimizationPlan) :
  wf_config h config -> distinct_rules h config ->
  exists h1,
    apply_recommendations config
      (sorted_by_priority (get_by_type plan DELETE_RULE)) h = Ok h1 /\
    apply_recommendations config
      (sorted_by_priority (get_by_type plan DELETE_RULE)) h1 = Ok h1.
Proof.
  intros Hwf Hnd.
  assert (forall rec, rec ∈ sorted_by_priority (get_by_type plan DELETE_RULE) ->
                      rec_type rec <> ADD_RULE) as Hno.
  { intros rec Hin.
    apply (proj1 (elem_of_sorted_by_priority _ _)) in Hin.
    unfold get_by_type in Hin.
    apply (proj1 (list_elem_of_filter _ _ _)) in Hin as [Ht _].
    rewrite Ht. discriminate. }
  destruct (recommendations_run config _ h Hwf Hnd Hno) as (h1 & Hrun & Hsh & Habs).
  exists h1. split; [exact Hrun|].
  apply recommendations_absent; [by eapply shrinks_wf_config|exact Hno|exact Habs].
Qed.

Lemma stored_scenario_wf (rules : list FirewallRule) :
  wf_config (StoredScenario.store_of rules) StoredScenario.config.
Proof.
  exists [("filter", 1%nat)]. split; [reflexivity|].
  intros tn d Hin. apply list_elem_of_singleton in Hin. injection Hin as -> ->.
  exists [("INPUT", 2%nat)]. split; [reflexivity|].
  intros cn l Hin. apply list_elem_of_singleton in Hin. injection Hin as -> ->.
  by exists rules.
Qed.

Lemma stored_scenario_distinct (rules : list FirewallRule) :
  NoDup rules ->
  distinct_rules (StoredScenario.store_of rules) StoredScenario.config.
Proof.
  intros Hnd tes tn d Ht Hin. injection Ht as <-.
  apply list_elem_of_singleton in Hin. injection Hin as -> ->.
  unfold table_rules, chain_rules, rules_at. simpl. by rewrite app_nil_r.
Qed.

Lemma delete_twice_is_delete_once_witness :
  exists h1,
    apply_recommendations StoredScenario.config
      (sorted_by_priority
         (get_by_type
            (StoredScenario.plan_of
               [unreachable_delete_recommendation Scenario.ssh2])
            DELETE_RULE))
      (StoredScenario.store_of
         [Scenario.ssh1; Scenario.ssh2; Scenario.drop3]) = Ok h1 /\
    apply_recommendations StoredScenario.config
      (sorted_by_priority
         (get_by_type
            (StoredScenario.plan_of
               [unreachable_delete_recommendation Scenario.ssh2])
            DELETE_RULE)) h1 = Ok h1.
Proof.
  apply delete_twice_is_delete_once.
  - apply stored_scenario_wf.
  - apply stored_scenario_distinct.
    apply (bool_decide_unpack _). vm_compute. exact I.
Defined.

(** Without the condition the second run removes more: with the same
    rule twice in a chain, each run of the delete recommendation takes
    one occurrence away. *)
Lemma delete_twice_removes_duplicates :
  ~ forall (h h1 : store) (config : FirewallConfigRef) (plan : OptimizationPlan),
      wf_config h config ->
      apply_recommendations config
        (sorted_by_priority (get_by_type plan DELETE_RULE)) h = Ok h1 ->
      apply_recommendations config
        (sorted_by_priority (get_by_type plan DELETE_RULE)) h1 = Ok h1.
Proof.
  intros Hclaim.
  specialize (Hclaim
    (StoredScenario.store_of [Scenario.drop3; Scenario.drop3])
    (StoredScenario.store_of [Scenario.drop3])
    StoredScenario.config
    (StoredScenario.plan_of [unreachable_delete_recommendation Scenario.drop3])
    (stored_scenario_wf _)).
  assert (Ok (StoredScenario.store_of []) = Ok (StoredScenario.store_of [Scenario.drop3]))
    as Heq; [|discriminate Heq].
  rewrite <- Hclaim; [|vm_compute; reflexivity].
  vm_compute. reflexivity.
Qed.

(** ** Deep copies *)

Lemma obj_copied_mono (memo memo' : gmap nat nat) (o o' : obj) :
  memo ⊆ memo' -> obj_copied memo o o' -> obj_copied memo' o o'.
Proof.
  intros Hsub. destruct o as [es|rs], o' as [es'|rs']; simpl; try done.
  intros Hall. eapply Forall2_impl; [exact Hall|].
  intros e e' [Hk Hv]. split; [done|]. by eapply lookup_weaken.
Qed.

Lemma copy_inv_init (h0 : store) : copy_inv h0 h0 ∅.
Proof.
  split.
  - done.
  - intros x x' Hx. by rewrite lookup_empty in Hx.
  - intros x es k v Hge Hx. apply lookup_lt_Some in Hx. lia.
Qed.

Lemma copy_inv_alloc (h0 h : store) (memo : gmap nat nat) (x : loc) (o o' : obj) :
  copy_inv h0 h memo -> memo !! x = None -> h0 !! x = Some o ->
  obj_copied memo o o' ->
  copy_inv h0 (h ++ [o']) (<[x := length h]> memo).
Proof.
  intros [Hpre Hmemo Hclosed] Hnone Hx Hcopied.
  assert (memo ⊆ <[x := length h]> memo) as Hsub by by apply insert_subseteq.
  split.
  - by apply prefix_app_r.
  - intros y y' Hy. destruct (decide (y = x)) as [->|Hne].
    + rewrite lookup_insert_eq in Hy. injection Hy as <-.
      split; [apply prefix_length in Hpre; rewrite length_app; simpl; lia|].
      exists o, o'. split; [done|]. split; [apply list_lookup_middle; done|].
      by eapply obj_copied_mono.
    + rewrite lookup_insert_ne in Hy by done.
      destruct (Hmemo y y' Hy) as [Hb (oy & oy' & Hoy & Hoy' & Hc)].
      split; [rewrite length_app; simpl; lia|].
      exists oy, oy'. split; [done|].
      split; [by rewrite lookup_app_l by lia|]. by eapply obj_copied_mono.
  - intros y es k v Hge Hy Hin.
    destruct (decide (y < length h)%nat) as [Hlt|Hnlt].
    + rewrite lookup_app_l in Hy by done. by eapply Hclosed.
    + apply lookup_lt_Some in Hy as Hlen. rewrite length_app in Hlen.
      simpl in Hlen. assert (y = length h) as -> by lia.
      rewrite list_lookup_middle in Hy by done. injection Hy as ->.
      destruct o as [es0|rs0]; simpl in Hcopied; [|done].
      apply list_elem_of_lookup in Hin as [i Hi].
      destruct (Forall2_lookup_r _ _ _ _ _ Hcopied Hi) as ([k0 v0] & _ & _ & Hv).
      simpl in Hv. by destruct (Hmemo v0 v Hv) as [[? _] _].
Qed.

Lemma copy_inv_lookup (h0 h : store) (memo : gmap nat nat) (x : loc) (o : obj) :
  copy_inv h0 h memo -> h0 !! x = Some o -> h !! x = Some o.
Proof. intros [Hpre _ _] Hx. by eapply prefix_lookup_Some. Qed.

Lemma copy_list_copies (h0 : store) :
  copies h0 (is_list h0) (is_list h0) copy_list.
Proof.
  intros v h memo [rules Hv] Hinv. simpl.
  destruct (memo !! v) as [v'|] eqn:Hm.
  - exists v', h, memo. split; [done|]. split; [done|]. split; [done|].
    split; [done|]. by left.
  - rewrite (proj2 (get_list_Ok h v rules)) by by eapply copy_inv_lookup.
    simpl. exists (length h), (h ++ [OList rules]), (<[v := length h]> memo).
    split; [done|]. split; [by eapply copy_inv_alloc|].
    split; [by apply insert_subseteq|]. split; [by rewrite lookup_insert_eq|].
    intros x Hx. destruct (decide (x = v)) as [->|Hne].
    + right. by exists rules.
    + left. by rewrite lookup_insert_ne in Hx.
Qed.

Lemma copy_entries_copies (h0 : store) (K ok : loc -> Prop)
    (copy_value : loc -> copy_state -> res (loc * copy_state))
    (entries : list (string * loc)) (h : store) (memo : gmap nat nat) :
  copies h0 K ok copy_value ->
  Forall (fun e => ok e.2) entries -> copy_inv h0 h memo ->
  exists entries' h' memo',
    copy_entries copy_value entries (h, memo) = Ok (entries', (h', memo')) /\
    copy_inv h0 h' memo' /\ memo ⊆ memo' /\
    Forall2 (entry_copied memo') entries entries' /\
    forall x, is_Some (memo' !! x) -> is_Some (memo !! x) \/ (entries <> [] /\ K x).
Proof.
  intros Hcv. revert h memo.
  induction entries as [|[k v] es IH]; intros h memo Hok Hinv.
  - exists [], h, memo. split; [done|]. split; [done|]. split; [done|].
    split; [constructor|]. by left.
  - apply Forall_cons in Hok as [Hv Hok].
    destruct (Hcv v h memo Hv Hinv) as (v' & h1 & memo1 & Hrun1 & Hinv1 & Hsub1 & Hm1 & Hnew1).
    destruct (IH h1 memo1 Hok Hinv1) as (es' & h2 & memo2 & Hrun2 & Hinv2 & Hsub2 & Hall2 & Hnew2).
    exists ((k, v') :: es'), h2, memo2. simpl. rewrite Hrun1. simpl.
    rewrite Hrun2. simpl. split; [done|]. split; [done|].
    split; [by etrans|]. split.
    + constructor; [|done]. split; [done|]. simpl. by eapply lookup_weaken.
    + intros x Hx. destruct (Hnew2 x Hx) as [Hx1|[_ HK]]; [|by right].
      destruct (Hnew1 x Hx1) as [Hx0|HK]; [by left | by right].
Qed.

Lemma copy_dict_copies (h0 : store) (K ok : loc -> Prop)
    (copy_value : loc -> copy_state -> res (loc * copy_state)) :
  copies h0 K ok copy_value ->
  copies h0 (fun x => K x \/ dict_ok h0 K ok x) (dict_ok h0 K ok)
    (copy_dict copy_value).
Proof.
  intros Hcv d h memo Hd Hinv. pose proof Hd as (es & Hes & Hok & Hself).
  simpl. destruct (memo !! d) as [d'|] eqn:Hm.
  - exists d', h, memo. split; [done|]. split; [done|]. split; [done|].
    split; [done|]. by left.
  - rewrite (proj2 (get_dict_Ok h d es)) by by eapply copy_inv_lookup.
    simpl.
    destruct (copy_entries_copies h0 K ok copy_value es h memo Hcv Hok Hinv)
      as (es' & h1 & memo1 & Hrun & Hinv1 & Hsub & Hall & Hnew).
    rewrite Hrun. simpl.
    assert (memo1 !! d = None) as Hnone.
    { destruct (memo1 !! d) as [y|] eqn:Hy; [|done].
      destruct (Hnew d) as [Hold|[Hne HK]]; [by rewrite Hy| |].
      - rewrite Hm in Hold. by destruct Hold.
      - by destruct (Hself Hne). }
    exists (length h1), (h1 ++ [ODict es']), (<[d := length h1]> memo1).
    split; [done|]. split; [by eapply copy_inv_alloc|].
    split; [etrans; [done|]; by apply insert_subseteq|].
    split; [by rewrite lookup_insert_eq|].
    intros x Hx. destruct (decide (x = d)) as [->|Hne].
    + right. by right.
    + rewrite lookup_insert_ne in Hx by done.
      destruct (Hnew x Hx) as [Hold|[_ HK]]; [by left|]. right. by left.
Qed.

Lemma wf_chains_ok (h0 : store) (d : loc) : wf_chains h0 d -> chains_ok h0 d.
Proof.
  intros (ces & Hd & Hall). exists ces. split; [done|]. split.
  - apply Forall_forall. intros [cn l] Hin. by eapply Hall.
  - intros _ [rules Hl]. congruence.
Qed.

Lemma wf_tables_ok (h0 : store) (t : loc) : wf_tables h0 t -> tables_ok h0 t.
Proof.
  intros (tes & Ht & Hall). exists tes. split; [done|]. split.
  - apply Forall_forall. intros [tn d] Hin. apply wf_chains_ok. by eapply Hall.
  - intros Hne [[rules Hl]|(ces & Hd & Hlists & _)]; [congruence|].
    rewrite Ht in Hd. injection Hd as <-.
    destruct tes as [|[tn d] tes]; [done|].
    apply Forall_cons in Hlists as [[rules Hl] _]. simpl in Hl.
    destruct (Hall tn d) as (ces & Hd & _); [by left|]. congruence.
Qed.

(** A dictionary and its copy answer a lookup alike, up to the memo. *)
Lemma dict_get_copied (memo : gmap nat nat) (es es' : list (string * loc))
    (k : string) :
  Forall2 (entry_copied memo) es es' ->
  dict_get es' k = dict_get es k ≫= (memo !!.).
Proof.
  induction 1 as [|[k0 v0] [k0' v0'] es es' [Hk Hv] _ IH]; [done|].
  simpl in Hk, Hv. subst k0'. simpl.
  destruct (bool_decide (k0 = k)); simpl; [by rewrite Hv | exact IH].
Qed.

Lemma dict_get_elem {V} (d : list (string * V)) (k : string) (v : V) :
  dict_get d k = Some v -> (k, v) ∈ d.
Proof.
  induction d as [|[k0 v0] d IH]; simpl; [discriminate|].
  destruct (decide (k0 = k)) as [->|Hne].
  - rewrite bool_decide_true by done. intros [= ->]. by left.
  - rewrite bool_decide_false by done. intros H. right. by apply IH.
Qed.

Lemma copied_dict (h0 h : store) (memo : gmap nat nat) (x x' : loc)
    (es : list (string * loc)) :
  copy_inv h0 h memo -> memo !! x = Some x' -> h0 !! x = Some (ODict es) ->
  exists es', h !! x' = Some (ODict es') /\ Forall2 (entry_copied memo) es es'.
Proof.
  intros Hinv Hm Hx.
  destruct (ci_memo _ _ _ Hinv x x' Hm) as [_ (o & o' & Ho & Ho' & Hc)].
  rewrite Hx in Ho. injection Ho as <-.
  destruct o' as [es'|rs']; simpl in Hc; [|done]. by exists es'.
Qed.

Lemma copied_list (h0 h : store) (memo : gmap nat nat) (x x' : loc)
    (rules : list FirewallRule) :
  copy_inv h0 h memo -> memo !! x = Some x' -> h0 !! x = Some (OList rules) ->
  h !! x' = Some (OList rules).
Proof.
  intros Hinv Hm Hx.
  destruct (ci_memo _ _ _ Hinv x x' Hm) as [_ (o & o' & Ho & Ho' & Hc)].
  rewrite Hx in Ho. injection Ho as <-.
  destruct o' as [es'|rs']; simpl in Hc; [done|]. by subst.
Qed.

Lemma copied_wf_chains (h0 h : store) (memo : gmap nat nat) (d d' : loc) :
  copy_inv h0 h memo -> memo !! d = Some d' -> wf_chains h0 d ->
  wf_chains h d'.
Proof.
  intros Hinv Hm (ces & Hd & Hall).
  destruct (copied_dict _ _ _ _ _ _ Hinv Hm Hd) as (ces' & Hd' & Hf).
  exists ces'. split; [done|]. intros cn l' Hin.
  apply list_elem_of_lookup in Hin as [i Hi].
  destruct (Forall2_lookup_r _ _ _ _ _ Hf Hi) as ([cn0 l] & Hi0 & _ & Hl).
  simpl in Hl. destruct (Hall cn0 l) as [rules Hrules];
    [by eapply list_elem_of_lookup_2|].
  exists rules. by eapply copied_list.
Qed.

Lemma copied_wf_tables (h0 h : store) (memo : gmap nat nat) (t t' : loc) :
  copy_inv h0 h memo -> memo !! t = Some t' -> wf_tables h0 t ->
  wf_tables h t'.
Proof.
  intros Hinv Hm (tes & Ht & Hall).
  destruct (copied_dict _ _ _ _ _ _ Hinv Hm Ht) as (tes' & Ht' & Hf).
  exists tes'. split; [done|]. intros tn d' Hin.
  apply list_elem_of_lookup in Hin as [i Hi].
  destruct (Forall2_lookup_r _ _ _ _ _ Hf Hi) as ([tn0 d] & Hi0 & _ & Hd).
  simpl in Hd. eapply copied_wf_chains; [done..|].
  eapply Hall. by eapply list_elem_of_lookup_2.
Qed.

Lemma copied_entry_memo (memo : gmap nat nat) (es es' : list (string * loc))
    (k : string) (v : loc) :
  Forall2 (entry_copied memo) es es' -> (k, v) ∈ es ->
  exists v', memo !! v = Some v'.
Proof.
  intros Hf Hin. apply list_elem_of_lookup in Hin as [i Hi].
  destruct (Forall2_lookup_l _ _ _ _ _ Hf Hi) as ([k' v'] & _ & _ & Hv).
  by exists v'.
Qed.

(** A chain of the copy holds what the same chain of the original
    holds. *)
Lemma copied_lookup_chain (h0 h : store) (memo : gmap nat nat)
    (config config' : FirewallConfigRef) (tn cn : string) :
  copy_inv h0 h memo ->
  memo !! tables_ref config = Some (tables_ref config') ->
  wf_config h0 config ->
  lookup_chain h config' tn cn = lookup_chain h0 config tn cn.
Proof.
  intros Hinv Hm (tes & Ht & Hall).
  destruct (copied_dict _ _ _ _ _ _ Hinv Hm Ht) as (tes' & Ht' & Hf).
  unfold lookup_chain.
  rewrite (proj2 (get_dict_Ok _ _ _) Ht), (proj2 (get_dict_Ok _ _ _) Ht').
  rewrite (dict_get_copied _ _ _ tn Hf).
  destruct (dict_get tes tn) as [d|] eqn:Hd; simpl; [|done].
  apply dict_get_elem in Hd.
  destruct (copied_entry_memo _ _ _ _ _ Hf Hd) as [d' Hd'].
  rewrite Hd'.
  destruct (Hall tn d Hd) as (ces & Hces & Hlists).
  destruct (copied_dict _ _ _ _ _ _ Hinv Hd' Hces) as (ces' & Hces' & Hfc).
  rewrite (proj2 (get_dict_Ok _ _ _) Hces), (proj2 (get_dict_Ok _ _ _) Hces').
  rewrite (dict_get_copied _ _ _ cn Hfc).
  destruct (dict_get ces cn) as [l|] eqn:Hl; simpl; [|done].
  apply dict_get_elem in Hl.
  destruct (copied_entry_memo _ _ _ _ _ Hfc Hl) as [l' Hl'].
  rewrite Hl'.
  destruct (Hlists cn l Hl) as [rules Hrules].
  rewrite (proj2 (get_list_Ok _ _ _) Hrules).
  by rewrite (proj2 (get_list_Ok _ _ _)
                (copied_list _ _ _ _ _ _ Hinv Hl' Hrules)).
Qed.

(** [deepcopy] of a well-formed policy succeeds and leaves a copy whose
    containers are all new. *)
Lemma deepcopy_spec (h0 : store) (config : FirewallConfigRef) :
  wf_config h0 config ->
  exists config' h1 memo,
    deepcopy config h0 = Ok (config', h1) /\
    copy_inv h0 h1 memo /\
    memo !! tables_ref config = Some (tables_ref config') /\
    chains_info config' = chains_info config /\
    comment_lines config' = comment_lines config.
Proof.
  intros Hwf.
  pose proof (copy_dict_copies h0 _ _ _
                (copy_dict_copies h0 _ _ _ (copy_list_copies h0))) as Hcopies.
  destruct (Hcopies (tables_ref config) h0 ∅ (wf_tables_ok _ _ Hwf)
              (copy_inv_init h0))
    as (t' & h1 & memo & Hrun & Hinv & _ & Hm & _).
  unfold deepcopy. rewrite Hrun. simpl.
  eexists _, h1, memo. split; [reflexivity|].
  split; [exact Hinv|]. split; [exact Hm|]. split; reflexivity.
Qed.

(** ** Applying a plan to the copy *)

Lemma grown_refl (News rules : list FirewallRule) : grown News rules rules.
Proof. exists rules, []. by rewrite app_nil_r. Qed.

Lemma grown_step (News base rules rules' : list FirewallRule) :
  grown News base rules -> list_step News rules rules' ->
  grown News base rules'.
Proof.
  intros (kept & added & -> & Hkept & Hadded) [Hsub|(r & Hr & ->)].
  - apply sublist_app_r in Hsub as (l1 & l2 & -> & H1 & H2).
    exists l1, l2. split; [done|]. split; [by etrans|].
    apply Forall_forall. intros x Hx.
    eapply (proj1 (Forall_forall _ _) Hadded), elem_of_sublist; done.
  - exists kept, (added ++ [r]). rewrite app_assoc. split; [done|].
    split; [done|]. apply Forall_app. split; [done|]. by constructor.
Qed.

Lemma all_new_step (News rules rules' : list FirewallRule) :
  Forall (fun r => r ∈ News) rules -> list_step News rules rules' ->
  Forall (fun r => r ∈ News) rules'.
Proof.
  intros Hall [Hsub|(r & Hr & ->)].
  - apply Forall_forall. intros x Hx.
    eapply (proj1 (Forall_forall _ _) Hall), elem_of_sublist; done.
  - apply Forall_app. split; [done|]. by constructor.
Qed.

Lemma applied_init (n0 : nat) (News : list FirewallRule) (h1 : store) :
  (n0 <= length h1)%nat ->
  (forall x es k v, (n0 <= x)%nat -> h1 !! x = Some (ODict es) ->
                    (k, v) ∈ es -> (n0 <= v)%nat) ->
  applied n0 News h1 h1.
Proof.
  intros Hn0 Hclosed. split; try done.
  - intros x rules Hx. exists rules. split; [done|apply grown_refl].
  - intros x es Hx. exists []. rewrite app_nil_r. split; [done|].
    intros k v Hin. by apply elem_of_nil in Hin.
  - intros x rules Hge Hx. apply lookup_lt_Some in Hx. lia.
  - intros x es k v Hge Hx. apply lookup_lt_Some in Hx. lia.
Qed.

Lemma applied_update_list (n0 : nat) (News : list FirewallRule) (h1 h : store)
    (l : loc) (rules rules' : list FirewallRule) :
  applied n0 News h1 h -> (n0 <= l)%nat -> h !! l = Some (OList rules) ->
  list_step News rules rules' ->
  applied n0 News h1 (<[l := OList rules']> h).
Proof.
  intros [Hn0 Hlen Hold Hclosed Hlist Hdict Hnl Hnd] Hl0 Hl Hstep.
  pose proof (lookup_lt_Some _ _ _ Hl) as Hlt.
  split.
  - done.
  - by rewrite length_insert.
  - intros x Hx. rewrite list_lookup_insert_ne by lia. by apply Hold.
  - intros x es k v Hge Hx Hin. destruct (decide (x = l)) as [->|Hne].
    + by rewrite list_lookup_insert_eq in Hx.
    + rewrite list_lookup_insert_ne in Hx by done. by eapply Hclosed.
  - intros x rs Hx. destruct (Hlist x rs Hx) as (rs' & Hx' & Hg).
    destruct (decide (x = l)) as [->|Hne].
    + rewrite Hl in Hx'. injection Hx' as <-. exists rules'.
      split; [by apply list_lookup_insert_eq|]. by eapply grown_step.
    + exists rs'. by rewrite list_lookup_insert_ne.
  - intros x es Hx. destruct (Hdict x es Hx) as (es' & Hx' & Hnew).
    exists es'. split; [|done].
    rewrite list_lookup_insert_ne; [done|]. intros ->. congruence.
  - intros x rs Hge Hx. destruct (decide (x = l)) as [->|Hne].
    + rewrite list_lookup_insert_eq in Hx by done. injection Hx as <-.
      eapply all_new_step; [|done]. by eapply Hnl.
    + rewrite list_lookup_insert_ne in Hx by done. by eapply Hnl.
  - intros x es k v Hge Hx Hin. destruct (decide (x = l)) as [->|Hne].
    + by rewrite list_lookup_insert_eq in Hx.
    + rewrite list_lookup_insert_ne in Hx by done. by eapply Hnd.
Qed.

Lemma dict_get_app {V} (d1 d2 : list (string * V)) (k : string) :
  dict_get (d1 ++ d2) k =
  match dict_get d1 k with
  | Some v => Some v
  | None => dict_get d2 k
  end.
Proof.
  induction d1 as [|[k0 v0] d1 IH]; simpl; [done|].
  by destruct (bool_decide (k0 = k)).
Qed.

Lemma dict_set_absent {V} (d : list (string * V)) (k : string) (v : V) :
  dict_get d k = None -> dict_set d k v = d ++ [(k, v)].
Proof.
  induction d as [|[k0 v0] d IH]; simpl; [done|].
  destruct (bool_decide (k0 = k)); [discriminate|].
  intros H. by rewrite IH.
Qed.

Lemma applied_extend_dict (n0 : nat) (News : list FirewallRule) (h1 h : store)
    (x : loc) (es : list (string * loc)) (k : string) (o : obj) :
  applied n0 News h1 h -> (n0 <= x)%nat -> h !! x = Some (ODict es) ->
  dict_get es k = None -> empty_obj o ->
  applied n0 News h1 (<[x := ODict (es ++ [(k, length h)])]> (h ++ [o])).
Proof.
  intros [Hn0 Hlen Hold Hclosed Hlist Hdict Hnl Hnd] Hx0 Hx Hk Hempty.
  pose proof (lookup_lt_Some _ _ _ Hx) as Hlt.
  assert (forall y, y <> x ->
            (<[x := ODict (es ++ [(k, length h)])]> (h ++ [o])) !! y
            = (h ++ [o]) !! y) as Hne_lookup.
  { intros y Hy. by rewrite list_lookup_insert_ne. }
  assert ((<[x := ODict (es ++ [(k, length h)])]> (h ++ [o])) !! x
          = Some (ODict (es ++ [(k, length h)]))) as Heq_lookup.
  { apply list_lookup_insert_eq. rewrite length_app. lia. }
  assert (forall y oy, y <> x -> (h ++ [o]) !! y = Some oy ->
            h !! y = Some oy \/ (y = length h /\ oy = o)) as Hcases.
  { intros y oy Hy Hlook. destruct (decide (y < length h)%nat).
    - left. by rewrite lookup_app_l in Hlook.
    - right. apply lookup_lt_Some in Hlook as Hb. rewrite length_app in Hb.
      simpl in Hb. assert (y = length h) as -> by lia.
      rewrite list_lookup_middle in Hlook by done. by injection Hlook as <-. }
  split.
  - done.
  - rewrite length_insert, length_app. lia.
  - intros y Hy. rewrite Hne_lookup by lia. rewrite lookup_app_l by lia.
    by apply Hold.
  - intros y es2 k2 v Hge Hy Hin. destruct (decide (y = x)) as [->|Hne].
    + rewrite Heq_lookup in Hy.
      assert (es2 = es ++ [(k, length h)]) as -> by congruence.
      apply elem_of_app in Hin as [Hin|Hin]; [by eapply Hclosed|].
      apply list_elem_of_singleton in Hin. injection Hin as -> ->. lia.
    + rewrite Hne_lookup in Hy by done.
      destruct (Hcases y _ Hne Hy) as [Hy'|[-> Ho]]; [by eapply Hclosed|].
      destruct Hempty as [->| ->]; [|discriminate].
      injection Ho as ->. by apply elem_of_nil in Hin.
  - intros y rs Hy. destruct (Hlist y rs Hy) as (rs' & Hy' & Hg).
    exists rs'. split; [|done].
    rewrite Hne_lookup by (intros ->; congruence).
    rewrite lookup_app_l; [done|]. by eapply lookup_lt_Some.
  - intros y es1 Hy. destruct (Hdict y es1 Hy) as (es' & Hy' & Hnew).
    destruct (decide (y = x)) as [->|Hne].
    + rewrite Hx in Hy'. injection Hy' as ->.
      exists (es' ++ [(k, length h)]). rewrite Heq_lookup, app_assoc.
      split; [done|]. intros k2 v Hin.
      apply elem_of_app in Hin as [Hin|Hin]; [by apply Hnew|].
      apply list_elem_of_singleton in Hin. injection Hin as -> ->.
      split; [|lia]. rewrite dict_get_app in Hk.
      by destruct (dict_get es1 k).
    + exists es'. split; [|done]. rewrite Hne_lookup by done.
      rewrite lookup_app_l; [done|]. by eapply lookup_lt_Some.
  - intros y rs Hge Hy. destruct (decide (y = x)) as [->|Hne].
    + by rewrite Heq_lookup in Hy.
    + rewrite Hne_lookup in Hy by done.
      destruct (Hcases y _ Hne Hy) as [Hy'|[-> Ho]]; [by eapply Hnl|].
      destruct Hempty as [->| ->]; [discriminate|].
      injection Ho as ->. constructor.
  - intros y es2 k2 v Hge Hy Hin. destruct (decide (y = x)) as [->|Hne].
    + rewrite Heq_lookup in Hy.
      assert (es2 = es ++ [(k, length h)]) as -> by congruence.
      apply elem_of_app in Hin as [Hin|Hin]; [by eapply Hnd|].
      apply list_elem_of_singleton in Hin. injection Hin as -> ->. lia.
    + rewrite Hne_lookup in Hy by done.
      destruct (Hcases y _ Hne Hy) as [Hy'|[-> Ho]]; [by eapply Hnd|].
      destruct Hempty as [->| ->]; [|discriminate].
      injection Ho as ->. by apply elem_of_nil in Hin.
Qed.

Lemma shrinks_dict_inv (h h' : store) (x : loc) (es : list (string * loc)) :
  shrinks h h' -> h' !! x = Some (ODict es) -> h !! x = Some (ODict es).
Proof.
  intros [Hlen Hsh] Hx. pose proof (lookup_lt_Some _ _ _ Hx) as Hlt.
  destruct (lookup_lt_is_Some_2 h x ltac:(lia)) as [o Ho].
  specialize (Hsh x o Ho). destruct o as [es0|rs0].
  - congruence.
  - destruct Hsh as (rs' & Hx' & _). congruence.
Qed.

Lemma shrinks_list_inv (h h' : store) (x : loc) (rules' : list FirewallRule) :
  shrinks h h' -> h' !! x = Some (OList rules') ->
  exists rules, h !! x = Some (OList rules) /\ rules' `sublist_of` rules.
Proof.
  intros [Hlen Hsh] Hx. pose proof (lookup_lt_Some _ _ _ Hx) as Hlt.
  destruct (lookup_lt_is_Some_2 h x ltac:(lia)) as [o Ho].
  specialize (Hsh x o Ho). destruct o as [es0|rs0].
  - congruence.
  - destruct Hsh as (rs' & Hx' & Hsub). exists rs0. split; [done|]. congruence.
Qed.

Lemma applied_shrinks (n0 : nat) (News : list FirewallRule) (h1 h h' : store) :
  applied n0 News h1 h -> shrinks h h' ->
  (forall x, (x < n0)%nat -> h' !! x = h !! x) ->
  applied n0 News h1 h'.
Proof.
  intros [Hn0 Hlen Hold Hclosed Hlist Hdict Hnl Hnd] Hsh Hlocal.
  split.
  - done.
  - destruct Hsh as [-> _]. done.
  - intros x Hx. rewrite Hlocal by done. by apply Hold.
  - intros x es k v Hge Hx Hin. eapply Hclosed; [done| |done].
    by eapply shrinks_dict_inv.
  - intros x rs Hx. destruct (Hlist x rs Hx) as (rs' & Hx' & Hg).
    destruct (proj2 Hsh x _ Hx') as (rs'' & Hx'' & Hsub).
    exists rs''. split; [done|]. eapply grown_step; [done|]. by left.
  - intros x es Hx. destruct (Hdict x es Hx) as (es' & Hx' & Hnew).
    exists es'. split; [|done]. apply (proj2 Hsh x _ Hx').
  - intros x rs Hge Hx.
    destruct (shrinks_list_inv _ _ _ _ Hsh Hx) as (rs0 & Hx0 & Hsub).
    eapply all_new_step; [by eapply Hnl|]. by left.
  - intros x es k v Hge Hx Hin. eapply Hnd; [done| |done].
    by eapply shrinks_dict_inv.
Qed.

Lemma delete_from_chains_local (rule : FirewallRule)
    (chain_entries : list (string * loc)) (h h' : store) (x : loc) :
  delete_from_chains rule chain_entries h = Ok h' ->
  (forall cn, (cn, x) ∉ chain_entries) -> h' !! x = h !! x.
Proof.
  induction chain_entries as [|[cn l] ces IH]; intros H Hnot.
  - by injection H as <-.
  - rewrite delete_from_chains_cons in H.
    apply bind_Ok in H as (rules & Hl & H).
    destruct (bool_decide (rule ∈ rules)).
    + apply bind_Ok in H as (rules' & _ & [= <-]).
      apply list_lookup_insert_ne. intros ->. apply (Hnot cn). by left.
    + apply IH; [done|]. intros cn' Hin. apply (Hnot cn'). by right.
Qed.

Lemma delete_from_tables_local (rule : FirewallRule)
    (table_entries : list (string * loc)) (h h' : store) (x : loc) :
  delete_from_tables rule table_entries h = Ok h' ->
  (forall tn d ces cn, (tn, d) ∈ table_entries ->
                       h !! d = Some (ODict ces) -> (cn, x) ∉ ces) ->
  h' !! x = h !! x.
Proof.
  revert h. induction table_entries as [|[tn d] tes IH]; intros h H Hnot.
  - by injection H as <-.
  - rewrite delete_from_tables_cons in H.
    apply bind_Ok in H as (ces & Hd & H). apply get_dict_Ok in Hd.
    apply bind_Ok in H as (h1 & H1 & H).
    pose proof (delete_from_chains_shrinks _ _ _ _ H1) as Hsh1.
    rewrite (IH h1 H).
    + eapply delete_from_chains_local; [done|].
      intros cn. eapply Hnot; [by left | done].
    + intros tn' d' ces' cn Hin Hd'. eapply Hnot; [by right|].
      by eapply shrinks_dict_inv.
Qed.

Lemma delete_rule_below (n0 : nat) (config : FirewallConfigRef)
    (rule : FirewallRule) (h h' : store) (x : loc) :
  (forall y es k v, (n0 <= y)%nat -> h !! y = Some (ODict es) ->
                    (k, v) ∈ es -> (n0 <= v)%nat) ->
  (n0 <= tables_ref config)%nat ->
  delete_rule config rule h = Ok h' -> (x < n0)%nat -> h' !! x = h !! x.
Proof.
  intros Hclosed Ht H Hx. unfold delete_rule in H.
  apply bind_Ok in H as (tes & Htes & H). apply get_dict_Ok in Htes.
  eapply delete_from_tables_local; [done|].
  intros tn d ces cn Hin Hd Hcn.
  assert (n0 <= d)%nat as Hdn by by eapply Hclosed.
  assert (n0 <= x)%nat by by eapply Hclosed. lia.
Qed.

(** Replacing the rules of a list, or adding a key for a new empty
    container, keeps the policy well formed. *)
Lemma wf_tables_update_list (h : store) (t l : loc)
    (rules rules' : list FirewallRule) :
  wf_tables h t -> h !! l = Some (OList rules) ->
  wf_tables (<[l := OList rules']> h) t.
Proof.
  intros (tes & Ht & Hall) Hl.
  pose proof (lookup_lt_Some _ _ _ Hl) as Hlt.
  assert (forall y, is_list h y -> is_list (<[l := OList rules']> h) y) as Hlist.
  { intros y [rs Hy]. destruct (decide (y = l)) as [->|Hne].
    - exists rules'. by apply list_lookup_insert_eq.
    - exists rs. by rewrite list_lookup_insert_ne. }
  assert (forall y es, h !! y = Some (ODict es) ->
            (<[l := OList rules']> h) !! y = Some (ODict es)) as Hdict.
  { intros y es Hy. rewrite list_lookup_insert_ne; [done|]. congruence. }
  exists tes. split; [by apply Hdict|].
  intros tn d Hin. destruct (Hall tn d Hin) as (ces & Hd & Hlists).
  exists ces. split; [by apply Hdict|].
  intros cn y Hy. apply Hlist. by eapply Hlists.
Qed.

Lemma wf_child_not_tables (h : store) (t : loc) (tes : list (string * loc))
    (tn : string) (d : loc) :
  h !! t = Some (ODict tes) -> (tn, d) ∈ tes -> wf_chains h d -> d <> t.
Proof.
  intros Ht Hin (ces & Hd & Hlists) ->.
  rewrite Ht in Hd. injection Hd as <-.
  destruct (Hlists tn t Hin) as [rs Hrs]. congruence.
Qed.

Lemma wf_tables_add_table (h : store) (t : loc) (tes : list (string * loc))
    (k : string) :
  wf_tables h t -> h !! t = Some (ODict tes) ->
  wf_tables (<[t := ODict (tes ++ [(k, length h)])]> (h ++ [ODict []])) t.
Proof.
  intros (tes0 & Ht0 & Hall) Ht. rewrite Ht in Ht0. injection Ht0 as <-.
  pose proof (lookup_lt_Some _ _ _ Ht) as Hlt.
  assert (forall y o, y <> t -> h !! y = Some o ->
            (<[t := ODict (tes ++ [(k, length h)])]> (h ++ [ODict []])) !! y
            = Some o) as Hkeep.
  { intros y o Hy Ho. rewrite list_lookup_insert_ne by done.
    rewrite lookup_app_l; [done|]. by eapply lookup_lt_Some. }
  exists (tes ++ [(k, length h)]). split.
  { apply list_lookup_insert_eq. rewrite length_app. lia. }
  intros tn d Hin. apply elem_of_app in Hin as [Hin|Hin].
  - pose proof (Hall tn d Hin) as Hwf.
    pose proof (wf_child_not_tables _ _ _ _ _ Ht Hin Hwf) as Hne.
    destruct Hwf as (ces & Hd & Hlists). exists ces.
    split; [by apply Hkeep|].
    intros cn l Hl. destruct (Hlists cn l Hl) as [rs Hrs]. exists rs.
    apply Hkeep; [|done]. intros ->. congruence.
  - apply list_elem_of_singleton in Hin. injection Hin as -> ->.
    exists []. split.
    + rewrite list_lookup_insert_ne by lia. by apply list_lookup_middle.
    + intros cn l Hl. by apply elem_of_nil in Hl.
Qed.

Lemma wf_tables_add_chain (h : store) (t d : loc) (tes ces : list (string * loc))
    (tn k : string) :
  wf_tables h t -> h !! t = Some (ODict tes) -> (tn, d) ∈ tes ->
  h !! d = Some (ODict ces) ->
  wf_tables (<[d := ODict (ces ++ [(k, length h)])]> (h ++ [OList []])) t.
Proof.
  intros (tes0 & Ht0 & Hall) Ht Hin Hd. rewrite Ht in Ht0. injection Ht0 as <-.
  pose proof (lookup_lt_Some _ _ _ Hd) as Hlt.
  pose proof (wf_child_not_tables _ _ _ _ _ Ht Hin (Hall tn d Hin)) as Hne.
  assert (forall y o, y <> d -> h !! y = Some o ->
            (<[d := ODict (ces ++ [(k, length h)])]> (h ++ [OList []])) !! y
            = Some o) as Hkeep.
  { intros y o Hy Ho. rewrite list_lookup_insert_ne by done.
    rewrite lookup_app_l; [done|]. by eapply lookup_lt_Some. }
  assert (forall y, is_list h y ->
            is_list (<[d := ODict (ces ++ [(k, length h)])]> (h ++ [OList []])) y)
    as Hlist.
  { intros y [rs Hrs]. exists rs. apply Hkeep; [|done]. intros ->. congruence. }
  exists tes. split; [by apply Hkeep|].
  intros tn' d' Hin'. destruct (Hall tn' d' Hin') as (ces' & Hd' & Hlists).
  destruct (decide (d' = d)) as [->|Hne'].
  - rewrite Hd in Hd'. injection Hd' as <-.
    exists (ces ++ [(k, length h)]). split.
    { apply list_lookup_insert_eq. rewrite length_app. lia. }
    intros cn l Hl. apply elem_of_app in Hl as [Hl|Hl].
    + apply Hlist. by eapply Hlists.
    + apply list_elem_of_singleton in Hl. injection Hl as -> ->.
      exists []. rewrite list_lookup_insert_ne by lia.
      by apply list_lookup_middle.
  - exists ces'. split; [by apply Hkeep|].
    intros cn l Hl. apply Hlist. by eapply Hlists.
Qed.

(** [if k not in d: d[k] = <new empty container>], for the dictionary at
    [x]: afterwards the key is there, and the store is as before or has
    the one new key for the one new container. *)
Lemma ensure_key (h : store) (x : loc) (es : list (string * loc)) (k : string)
    (o : obj) :
  h !! x = Some (ODict es) ->
  exists hA esA v,
    (if negb (dict_has es k)
     then Ok (<[x := ODict (dict_set es k (length h))]> (h ++ [o]))
     else Ok h) = Ok hA /\
    hA !! x = Some (ODict esA) /\ dict_get esA k = Some v /\
    (hA = h \/
     (dict_get es k = None /\
      hA = <[x := ODict (es ++ [(k, length h)])]> (h ++ [o]))).
Proof.
  intros Hx. pose proof (lookup_lt_Some _ _ _ Hx) as Hlt.
  unfold dict_has. destruct (dict_get es k) as [v|] eqn:Hget.
  - rewrite bool_decide_true by eauto. simpl.
    exists h, es, v. split; [done|]. split; [done|]. split; [done|]. by left.
  - rewrite bool_decide_false by (intros [? ?]; discriminate). simpl.
    rewrite dict_set_absent by done.
    exists (<[x := ODict (es ++ [(k, length h)])]> (h ++ [o])),
           (es ++ [(k, length h)]), (length h).
    split; [done|]. split.
    { apply list_lookup_insert_eq. rewrite length_app. lia. }
    split; [|by right].
    rewrite dict_get_app, Hget. simpl. by rewrite bool_decide_true.
Qed.

Lemma add_rule_spec (n0 : nat) (News : list FirewallRule) (h1 h : store)
    (config : FirewallConfigRef) (new_rule : FirewallRule) :
  applied n0 News h1 h -> wf_config h config ->
  (n0 <= tables_ref config)%nat -> new_rule ∈ News ->
  exists h',
    add_rule config new_rule h = Ok h' /\
    applied n0 News h1 h' /\ wf_config h' config.
Proof.
  intros Hap Hwf Ht0 Hnew. unfold add_rule.
  pose proof Hwf as (tes & Ht & Hall).
  rewrite (proj2 (get_dict_Ok _ _ _) Ht). simpl.
  (* the table *)
  destruct (ensure_key h (tables_ref config) tes (table new_rule) (ODict []) Ht)
    as (hA & tesA & dA & -> & HtA & HdA & HcaseA).
  simpl.
  assert (applied n0 News h1 hA /\ wf_config hA config) as [HapA HwfA].
  { destruct HcaseA as [->|[Hnone ->]]; [done|]. split.
    - apply applied_extend_dict; [done..|by left].
    - by apply wf_tables_add_table. }
  rewrite (proj2 (get_dict_Ok _ _ _) HtA). simpl.
  unfold dict_getitem. rewrite HdA. simpl.
  apply dict_get_elem in HdA.
  pose proof HwfA as (tesA' & HtA' & HallA).
  rewrite HtA in HtA'. injection HtA' as <-.
  pose proof (HallA _ _ HdA) as HwfdA.
  pose proof (wf_child_not_tables _ _ _ _ _ HtA HdA HwfdA) as HneA.
  destruct HwfdA as (ces & Hces & Hlists).
  assert (n0 <= dA)%nat as HdA0 by by eapply (ap_closed _ _ _ _ HapA).
  rewrite (proj2 (get_dict_Ok _ _ _) Hces). simpl.
  (* the chain *)
  destruct (ensure_key hA dA ces (chain new_rule) (OList []) Hces)
    as (hB & cesB & lB & -> & HcesB & HlB & HcaseB).
  simpl.
  assert (applied n0 News h1 hB /\ wf_config hB config /\
          hB !! tables_ref config = Some (ODict tesA)) as (HapB & HwfB & HtB).
  { destruct HcaseB as [->|[Hnone ->]]; [done|]. split; [|split].
    - apply applied_extend_dict; [done..|by right].
    - by eapply wf_tables_add_chain.
    - rewrite list_lookup_insert_ne by done.
      rewrite lookup_app_l; [done|]. by eapply lookup_lt_Some. }
  rewrite (proj2 (get_dict_Ok _ _ _) HcesB). simpl.
  unfold dict_getitem. rewrite HlB. simpl.
  apply dict_get_elem in HlB.
  pose proof HwfB as (tesB' & HtB' & HallB).
  rewrite HtB in HtB'. injection HtB' as <-.
  destruct (HallB _ _ HdA) as (cesB' & HcesB' & HlistsB).
  rewrite HcesB in HcesB'. injection HcesB' as <-.
  destruct (HlistsB _ _ HlB) as [rules Hrules].
  assert (n0 <= lB)%nat as HlB0 by by eapply (ap_closed _ _ _ _ HapB).
  rewrite (proj2 (get_list_Ok _ _ _) Hrules). simpl.
  (* the rule *)
  eexists. split; [reflexivity|]. split.
  - eapply applied_update_list; [done..|]. right. by exists new_rule.
  - by eapply wf_tables_update_list.
Qed.

Lemma delete_rules_applied (n0 : nat) (News : list FirewallRule) (h1 h : store)
    (config : FirewallConfigRef) (rules : list FirewallRule) :
  applied n0 News h1 h -> wf_config h config ->
  (n0 <= tables_ref config)%nat ->
  exists h',
    for_each rules (delete_rule config) h = Ok h' /\
    applied n0 News h1 h' /\ wf_config h' config.
Proof.
  revert h. induction rules as [|r rules IH]; intros h Hap Hwf Ht0.
  - by exists h.
  - destruct (delete_rule_total config r h Hwf) as [hA HA].
    pose proof (delete_rule_shrinks _ _ _ _ HA) as Hsh.
    destruct (IH hA) as (h' & Hrun & Hap' & Hwf').
    + eapply applied_shrinks; [done..|].
      intros x Hx. eapply delete_rule_below; [|done..].
      apply (ap_closed _ _ _ _ Hap).
    + by eapply shrinks_wf_config.
    + done.
    + exists h'. simpl. rewrite HA. simpl. done.
Qed.

Lemma add_rules_applied (n0 : nat) (News : list FirewallRule) (h1 h : store)
    (config : FirewallConfigRef) (rules : list FirewallRule) :
  applied n0 News h1 h -> wf_config h config ->
  (n0 <= tables_ref config)%nat ->
  (forall r, r ∈ rules -> r ∈ News) ->
  exists h',
    for_each rules (add_rule config) h = Ok h' /\
    applied n0 News h1 h' /\ wf_config h' config.
Proof.
  revert h. induction rules as [|r rules IH]; intros h Hap Hwf Ht0 Hnew.
  - by exists h.
  - destruct (add_rule_spec n0 News h1 h config r Hap Hwf Ht0)
      as (hA & HA & HapA & HwfA); [apply Hnew; by left|].
    destruct (IH hA HapA HwfA Ht0) as (h' & Hrun & Hap' & Hwf').
    { intros r' Hin. apply Hnew. by right. }
    exists h'. simpl. rewrite HA. simpl. done.
Qed.

Lemma apply_recommendations_applied (n0 : nat) (News : list FirewallRule)
    (h1 h : store) (config : FirewallConfigRef) (recs : list Recommendation) :
  applied n0 News h1 h -> wf_config h config ->
  (n0 <= tables_ref config)%nat ->
  (forall rec r, rec ∈ recs -> rec_type rec = ADD_RULE ->
                 r ∈ new_rules rec -> r ∈ News) ->
  exists h',
    apply_recommendations config recs h = Ok h' /\
    applied n0 News h1 h' /\ wf_config h' config.
Proof.
  revert h. induction recs as [|rec recs IH]; intros h Hap Hwf Ht0 Hnew.
  - by exists h.
  - assert (exists hA, apply_recommendation config rec h = Ok hA /\
                       applied n0 News h1 hA /\ wf_config hA config)
      as (hA & HA & HapA & HwfA).
    { unfold apply_recommendation, _apply_delete_recommendation,
        _apply_add_recommendation.
      destruct (rec_type rec) eqn:Hty; try by exists h.
      - by apply delete_rules_applied.
      - apply add_rules_applied; [done..|].
        intros r Hr. apply (Hnew rec); [by left|done..]. }
    destruct (IH hA HapA HwfA Ht0) as (h' & Hrun & Hap' & Hwf').
    { intros rec' r Hin. apply Hnew. by right. }
    exists h'. unfold apply_recommendations. simpl. rewrite HA. simpl. done.
Qed.

(** What a chain of the policy holds once the plan is applied, against
    what it held in the fresh copy. *)
Lemma applied_lookup_chain (n0 : nat) (News : list FirewallRule) (h1 h : store)
    (config : FirewallConfigRef) (tn cn : string) (rules' : list FirewallRule) :
  applied n0 News h1 h -> wf_config h1 config ->
  lookup_chain h config tn cn = Some rules' ->
  grown News (default [] (lookup_chain h1 config tn cn)) rules'.
Proof.
  intros Hap (tes1 & Ht1 & Hall1) Hlook.
  destruct (ap_dict _ _ _ _ Hap _ _ Ht1) as (tes' & Ht & Htnew).
  unfold lookup_chain in *.
  rewrite (proj2 (get_dict_Ok _ _ _) Ht) in Hlook.
  rewrite (proj2 (get_dict_Ok _ _ _) Ht1).
  rewrite dict_get_app in Hlook.
  assert (forall l, (length h1 <= l)%nat -> get_list h l = Ok rules' ->
                    grown News [] rules') as Hfresh.
  { intros l Hl Hget. apply get_list_Ok in Hget.
    exists [], rules'. split; [done|]. split; [done|].
    by eapply (ap_new_list _ _ _ _ Hap). }
  assert (forall base, grown News [] rules' -> grown News base rules') as Hweak.
  { intros base (kept & added & -> & Hk & Ha). exists kept, added.
    split; [done|]. split; [|done].
    apply sublist_nil_r in Hk as ->. apply sublist_nil_l. }
  destruct (dict_get tes1 tn) as [d|] eqn:Hd.
  - apply dict_get_elem in Hd.
    destruct (Hall1 tn d Hd) as (ces1 & Hces1 & Hlists1).
    destruct (ap_dict _ _ _ _ Hap _ _ Hces1) as (ces' & Hces & Hcnew).
    rewrite (proj2 (get_dict_Ok _ _ _) Hces) in Hlook.
    rewrite (proj2 (get_dict_Ok _ _ _) Hces1).
    rewrite dict_get_app in Hlook.
    destruct (dict_get ces1 cn) as [l|] eqn:Hl.
    + apply dict_get_elem in Hl. destruct (Hlists1 cn l Hl) as [rs1 Hrs1].
      destruct (ap_list _ _ _ _ Hap _ _ Hrs1) as (rs & Hrs & Hg).
      rewrite (proj2 (get_list_Ok _ _ _) Hrs) in Hlook.
      rewrite (proj2 (get_list_Ok _ _ _) Hrs1). simpl.
      by injection Hlook as <-.
    + apply Hweak.
      destruct (dict_get ces' cn) as [l|] eqn:Hl'; [|discriminate].
      apply dict_get_elem in Hl'. destruct (Hcnew cn l Hl') as [_ Hlen].
      destruct (get_list h l) as [rs|e] eqn:Hget; [|discriminate].
      injection Hlook as <-. by eapply Hfresh.
  - apply Hweak.
    destruct (dict_get tes' tn) as [d|] eqn:Hd'; [|discriminate].
    apply dict_get_elem in Hd'. destruct (Htnew tn d Hd') as [_ Hlen].
    destruct (get_dict h d) as [ces|e] eqn:Hces; [|discriminate].
    apply get_dict_Ok in Hces.
    destruct (dict_get ces cn) as [l|] eqn:Hl; [|discriminate].
    apply dict_get_elem in Hl.
    pose proof (ap_new_dict _ _ _ _ Hap _ _ _ _ Hlen Hces Hl) as Hlenl.
    destruct (get_list h l) as [rs|e] eqn:Hget; [|discriminate].
    injection Hlook as <-. by eapply Hfresh.
Qed.

Lemma prefix_of_lookups (h h' : store) :
  (length h <= length h')%nat ->
  (forall x, (x < length h)%nat -> h' !! x = h !! x) ->
  h `prefix_of` h'.
Proof.
  intros Hlen Hsame. exists (drop (length h) h').
  rewrite <- (take_drop (length h) h') at 1. f_equal.
  apply list_eq. intros i. destruct (decide (i < length h)%nat) as [Hlt|Hge].
  - rewrite lookup_take_lt by done. by apply Hsame.
  - rewrite lookup_take_ge by lia. symmetry. apply lookup_ge_None. lia.
Qed.

(** A policy reads the same in a store that only has more containers. *)
Lemma prefix_lookup_chain (h h' : store) (config : FirewallConfigRef)
    (tn cn : string) :
  h `prefix_of` h' -> wf_config h config ->
  lookup_chain h' config tn cn = lookup_chain h config tn cn.
Proof.
  intros Hpre (tes & Ht & Hall). unfold lookup_chain.
  rewrite (proj2 (get_dict_Ok _ _ _) Ht).
  rewrite (proj2 (get_dict_Ok _ _ _) (prefix_lookup_Some _ _ _ _ Ht Hpre)).
  destruct (dict_get tes tn) as [d|] eqn:Hd; [|done].
  apply dict_get_elem in Hd. destruct (Hall tn d Hd) as (ces & Hces & Hlists).
  rewrite (proj2 (get_dict_Ok _ _ _) Hces).
  rewrite (proj2 (get_dict_Ok _ _ _) (prefix_lookup_Some _ _ _ _ Hces Hpre)).
  destruct (dict_get ces cn) as [l|] eqn:Hl; [|done].
  apply dict_get_elem in Hl. destruct (Hlists cn l Hl) as [rs Hrs].
  rewrite (proj2 (get_list_Ok _ _ _) Hrs).
  by rewrite (proj2 (get_list_Ok _ _ _) (prefix_lookup_Some _ _ _ _ Hrs Hpre)).
Qed.

(** C8.  Applying a plan to a well-formed policy succeeds and returns a
    policy whose containers are all new; every container that was in the
    store before, the original policy with its tables, chains and rules
    included, is as before; and each chain of the returned policy holds a
    subsequence of the rules the same chain held in the original (each
    surviving rule identical, raw text included, in the original order),
    followed by new rules of the plan's add-rule recommendations. *)
Theorem generate_optimized_config_frame (h : store)
    (original_config : FirewallConfigRef) (plan : OptimizationPlan) :
  wf_config h original_config ->
  exists optimized_config h',
    generate_optimized_config original_config plan h
      = Ok (optimized_config, h') /\
    h `prefix_of` h' /\
    (forall tn cn, lookup_chain h' original_config tn cn
                   = lookup_chain h original_config tn cn) /\
    (length h <= tables_ref optimized_config)%nat /\
    (forall x es k v, (length h <= x)%nat -> h' !! x = Some (ODict es) ->
                      (k, v) ∈ es -> (length h <= v)%nat) /\
    wf_config h' optimized_config /\
    forall tn cn rules',
      lookup_chain h' optimized_config tn cn = Some rules' ->
      exists kept added,
        rules' = kept ++ added /\
        kept `sublist_of` default [] (lookup_chain h original_config tn cn) /\
        Forall (fun r => r ∈ plan_new_rules plan) added.
Proof.
  intros Hwf.
  destruct (deepcopy_spec h original_config Hwf)
    as (config' & h1 & memo & Hcopy & Hinv & Hm & _ & _).
  pose proof (ci_prefix _ _ _ Hinv) as Hpre1.
  pose proof (copied_wf_tables _ _ _ _ _ Hinv Hm Hwf) as Hwf1.
  destruct (ci_memo _ _ _ Hinv _ _ Hm) as [[Ht0 _] _].
  assert (applied (length h) (plan_new_rules plan) h1 h1) as Hap1.
  { apply applied_init; [by apply prefix_length|]. apply (ci_closed _ _ _ Hinv). }
  destruct (apply_recommendations_applied (length h) (plan_new_rules plan)
              h1 h1 config' (sorted_by_priority (recommendations plan))
              Hap1 Hwf1 Ht0) as (h' & Hrun & Hap & Hwf').
  { intros rec r Hin Hty Hr.
    apply (proj1 (elem_of_sorted_by_priority _ _)) in Hin.
    unfold plan_new_rules. apply list_elem_of_join. exists (new_rules rec).
    split; [done|]. apply list_elem_of_fmap. exists rec. split; [done|].
    unfold get_by_type. by apply list_elem_of_filter. }
  assert (h `prefix_of` h') as Hpre.
  { apply prefix_of_lookups.
    - pose proof (ap_len _ _ _ _ Hap). apply prefix_length in Hpre1. lia.
    - intros x Hx. rewrite (ap_old _ _ _ _ Hap) by done.
      destruct (lookup_lt_is_Some_2 h x Hx) as [o Ho]. rewrite Ho.
      by eapply prefix_lookup_Some. }
  exists config', h'. split.
  { unfold generate_optimized_config. rewrite Hcopy. simpl.
    by rewrite Hrun. }
  split; [exact Hpre|].
  split; [intros tn cn; by apply prefix_lookup_chain|].
  split; [exact Ht0|].
  split; [apply (ap_closed _ _ _ _ Hap)|].
  split; [exact Hwf'|].
  intros tn cn rules' Hlook.
  pose proof (applied_lookup_chain _ _ _ _ _ _ _ _ Hap Hwf1 Hlook) as Hg.
  by rewrite (copied_lookup_chain _ _ _ _ _ tn cn Hinv Hm Hwf) in Hg.
Qed.

Lemma generate_optimized_config_frame_witness :
  exists optimized_config h',
    generate_optimized_config StoredScenario.config
      (StoredScenario.plan_of
         [unreachable_delete_recommendation Scenario.ssh2;
          default_drop_recommendation "filter" "OUTPUT"])
      (StoredScenario.store_of [Scenario.ssh1; Scenario.ssh2; Scenario.drop3])
      = Ok (optimized_config, h') /\
    StoredScenario.store_of [Scenario.ssh1; Scenario.ssh2; Scenario.drop3]
      `prefix_of` h'.
Proof.
  destruct (generate_optimized_config_frame
              (StoredScenario.store_of
                 [Scenario.ssh1; Scenario.ssh2; Scenario.drop3])
              StoredScenario.config
              (StoredScenario.plan_of
                 [unreachable_delete_recommendation Scenario.ssh2;
                  default_drop_recommendation "filter" "OUTPUT"])
              (stored_scenario_wf _))
    as (optimized_config & h' & Hrun & Hpre & _).
  by exists optimized_config, h'.
Defined.

(** * Further properties *)

(** ** Port specifications as intervals *)

Lemma port_contains_parsed (g s : string) (a b c d : Z) :
  port_bounds g = Ok (a, b) -> port_bounds s = Ok (c, d) ->
  _port_contains (Some g) (Some s) = Ok ((a <=? c) && (d <=? b)).
Proof. intros Hg Hs. simpl. by rewrite Hg, Hs. Qed.

Lemma port_contains_unparsed (g s : string) :
  (exists e, port_bounds g = Raise e) \/ (exists e, port_bounds s = Raise e) ->
  _port_contains (Some g) (Some s) = Ok (bool_decide (g = s)).
Proof.
  intros Hfail. simpl. rewrite try_except_ValueError_caught.
  - f_equal. apply bool_decide_ext. split; congruence.
  - destruct Hfail as [[e He]|[e He]].
    + rewrite He. simpl. by rewrite (port_bounds_raises _ _ He).
    + destruct (port_bounds g) as [[gs ge]|e1] eqn:Ea; simpl.
      * rewrite He. simpl. by rewrite (port_bounds_raises _ _ He).
      * by rewrite (port_bounds_raises _ _ Ea).
Qed.

Lemma port_contains_refl (p : option string) : _port_contains p p = Ok true.
Proof.
  destruct p as [p|]; [|done].
  destruct (port_bounds p) as [[a b]|e] eqn:E.
  - rewrite (port_contains_parsed p p a b a b E E). f_equal.
    apply andb_true_intro. split; apply Z.leb_le; lia.
  - rewrite port_contains_unparsed by eauto. by rewrite bool_decide_true.
Qed.

Lemma port_contains_trans (p q r : option string) :
  _port_contains p q = Ok true -> _port_contains q r = Ok true ->
  _port_contains p r = Ok true.
Proof.
  destruct p as [p|]; [|done].
  destruct q as [q|]; [|discriminate].
  destruct r as [r|]; [|discriminate].
  destruct (port_bounds p) as [[a b]|e] eqn:Ep.
  - destruct (port_bounds q) as [[c d]|e] eqn:Eq.
    + destruct (port_bounds r) as [[x y]|e] eqn:Er.
      * rewrite (port_contains_parsed _ _ _ _ _ _ Ep Eq),
          (port_contains_parsed _ _ _ _ _ _ Eq Er),
          (port_contains_parsed _ _ _ _ _ _ Ep Er).
        intros [= H1] [= H2]. f_equal.
        apply andb_prop in H1 as [H1 H1'], H2 as [H2 H2'].
        apply Z.leb_le in H1, H1', H2, H2'.
        apply andb_true_intro. split; apply Z.leb_le; lia.
      * intros _. rewrite (port_contains_unparsed q r) by eauto.
        intros [= H]. apply bool_decide_eq_true in H. congruence.
    + rewrite (port_contains_unparsed p q) by eauto.
      intros [= H]. apply bool_decide_eq_true in H. congruence.
  - rewrite (port_contains_unparsed p q) by eauto.
    intros [= H]. apply bool_decide_eq_true in H. by subst q.
Qed.

(** X1.  [_port_contains] raises nothing, and it is a preorder on port
    specifications, parsable or not: every specification contains
    itself, and containment is transitive. *)
Theorem port_contains_preorder :
  (forall p q, exists b, _port_contains p q = Ok b) /\
  (forall p, _port_contains p p = Ok true) /\
  (forall p q r,
     _port_contains p q = Ok true -> _port_contains q r = Ok true ->
     _port_contains p r = Ok true).
Proof.
  split; [apply _port_contains_total|].
  split; [apply port_contains_refl | apply port_contains_trans].
Qed.

(** ** Port validation *)

Lemma has_char_lstrip (c : ascii) (s : string) :
  is_space c = false -> has_char c (lstrip s) = has_char c s.
Proof.
  intros Hc. induction s as [|a s IH]; [done|]. simpl.
  destruct (is_space a) eqn:Ea; [|done].
  rewrite IH. case_bool_decide; [congruence|done].
Qed.

Lemma has_char_rstrip (c : ascii) (s : string) :
  is_space c = false -> has_char c (rstrip s) = has_char c s.
Proof.
  intros Hc. induction s as [|a s IH]; [done|]. simpl.
  destruct (rstrip s) as [|b t] eqn:Er.
  - simpl in IH. destruct (is_space a) eqn:Ea; simpl.
    + case_bool_decide; [congruence|done].
    + by rewrite <- IH.
  - change (has_char c (String a (String b t)))
      with (if bool_decide (a = c) then true else has_char c (String b t)).
    by rewrite IH.
Qed.

Lemma has_char_strip (c : ascii) (s : string) :
  is_space c = false -> has_char c (strip s) = has_char c s.
Proof.
  intros Hc. unfold strip. by rewrite has_char_rstrip, has_char_lstrip.
Qed.

Lemma int_digits_colon (s : string) (acc : Z) (prev : bool) :
  has_char ":" s = true -> int_digits s acc prev = Raise ValueError.
Proof.
  revert acc prev. induction s as [|a s IH]; intros acc prev; [done|].
  simpl. case_bool_decide as Ha.
  - subst a. intros _. simpl. done.
  - intros H. destruct (digit_of a); [by apply IH|].
    destruct (bool_decide (a = "_"%char) && prev); [by apply IH|done].
Qed.

Lemma int_colon (s : string) : has_char ":" s = true -> int s = Raise ValueError.
Proof.
  intros H. rewrite <- (has_char_strip ":" s) in H by done.
  unfold int. destruct (strip s) as [|a s']; [done|].
  simpl in H. case_bool_decide as Ha.
  - subst a. reflexivity.
  - assert (Hl : forall t, has_char ":" t = true ->
                         int_literal t = Raise ValueError).
    { intros t Ht. unfold int_literal. by rewrite int_digits_colon. }
    assert (Hd : int_literal (String a s') = Raise ValueError).
    { apply Hl. simpl. by rewrite bool_decide_false. }
    repeat case_match; subst; try apply Hd; by rewrite (Hl s' H).
Qed.

Lemma split_on_nonempty (c : ascii) (s : string) : split_on c s <> [].
Proof.
  destruct s as [|a s]; [done|]. simpl.
  case_bool_decide; [done|]. by destruct (split_on c s).
Qed.

Lemma split_on_no_sep (c : ascii) (s : string) :
  has_char c s = false -> split_on c s = [s].
Proof.
  induction s as [|a s IH]; [done|]. simpl.
  case_bool_decide as Ha; [done|]. intros Hs. by rewrite (IH Hs).
Qed.

(** The split at the first separator against the split at every one. *)
Lemma split_once_split_on (c : ascii) (s : string) :
  has_char c s = true ->
  exists a b, split_once c s = [a; b] /\ split_on c s = a :: split_on c b.
Proof.
  induction s as [|x s IH]; [done|]. simpl.
  case_bool_decide as Hx; [by eexists _, _|].
  intros H. destruct (IH H) as (a & b & -> & ->). by eexists _, _.
Qed.

Ltac leb_cases :=
  repeat match goal with
    | H : context [(?x <=? ?y)] |- _ => destruct (Z.leb_spec x y); simpl in H
    | |- context [(?x <=? ?y)] => destruct (Z.leb_spec x y); simpl
    end; try done; try lia.

Lemma _is_valid_port_spec (port_str : string) :
  _is_valid_port port_str =
  Ok (match port_bounds port_str with
      | Ok (a, b) => (1 <=? a) && (a <=? b) && (b <=? 65535)
      | Raise _ => false
      end).
Proof.
  unfold _is_valid_port, port_bounds.
  destruct (has_char ":" port_str) eqn:Hc.
  - destruct (split_once_split_on _ _ Hc) as (a & b & -> & ->).
    destruct (has_char ":" b) eqn:Hb.
    + destruct (split_once_split_on _ _ Hb) as (b1 & b2 & _ & ->).
      rewrite (int_colon b Hb).
      assert (Hr : exists e, (_ ← int a; _ ← int b1; Raise ValueError)
                             = Raise (A := Z * Z) e).
      { destruct (int a); simpl; [|eauto]. destruct (int b1); simpl; eauto. }
      destruct (split_on ":" b2) as [|b3 bs] eqn:E3;
        [by apply split_on_nonempty in E3|].
      destruct Hr as [e ->].
      destruct (int a) as [s1|e1] eqn:Ea; simpl.
      * by destruct (negb _).
      * by rewrite (int_raises _ _ Ea).
    + rewrite (split_on_no_sep _ _ Hb).
      destruct (int a) as [s1|e1] eqn:Ea; simpl;
        [|by rewrite (int_raises _ _ Ea)].
      destruct (negb ((1 <=? s1) && (s1 <=? 65535))) eqn:H1.
      * simpl. destruct (int b) as [e1|e2]; simpl; [|done]. f_equal.
        leb_cases.
      * destruct (int b) as [e1|e2] eqn:Eb; simpl;
          [|by rewrite (int_raises _ _ Eb)].
        destruct (negb ((1 <=? e1) && (e1 <=? 65535))) eqn:H2; simpl;
          f_equal; leb_cases.
  - destruct (int port_str) as [port|e] eqn:Ep; simpl;
      [|by rewrite (int_raises _ _ Ep)].
    f_equal. leb_cases.
Qed.

(** X2.  [_is_valid_port] raises nothing, and accepts exactly the
    specifications that the analyzer's port check reads as an interval
    [a..b] with [1 <= a <= b <= 65535]. *)
Theorem valid_port_is_interval (port_str : string) :
  _is_valid_port port_str =
  Ok (match port_bounds port_str with
      | Ok (a, b) => (1 <=? a) && (a <=? b) && (b <=? 65535)
      | Raise _ => false
      end).
Proof. apply _is_valid_port_spec. Qed.

(** ** Rule validation *)

Lemma _is_valid_port_true (port_str : string) :
  _is_valid_port port_str = Ok true <->
  exists a b, port_bounds port_str = Ok (a, b) /\ 1 <= a /\ a <= b /\ b <= 65535.
Proof.
  rewrite _is_valid_port_spec. split.
  - destruct (port_bounds port_str) as [[a b]|e]; [|discriminate].
    intros [= H]. exists a, b. split; [done|]. leb_cases.
  - intros (a & b & -> & Ha & Hab & Hb). f_equal. leb_cases.
Qed.

Lemma _is_valid_ip_or_network_spec {L : IpLib} (ip_str : string) :
  _is_valid_ip_or_network ip_str =
  Ok (match ip_network ip_str with Ok _ => true | Raise _ => false end).
Proof.
  unfold _is_valid_ip_or_network.
  destruct (ip_network ip_str) as [n|e] eqn:E; [done|].
  by rewrite (ip_network_raises _ _ E).
Qed.

Lemma check_field_spec (value : option string) (valid : string -> res bool)
    (message : string) (errors : list string) :
  (exists b, valid (or_empty value) = Ok b) ->
  check_field value valid message errors
  = Ok (errors ++ field_errors value valid message).
Proof.
  intros [b Hb]. unfold check_field, field_errors.
  destruct (truthy value); [|by rewrite app_nil_r].
  rewrite Hb. simpl. destruct b; simpl; [by rewrite app_nil_r|done].
Qed.

Lemma address_field_errors {L : IpLib} (value : option string) (message : string) :
  field_errors value _is_valid_ip_or_network message = [] <->
  address_field_ok value.
Proof.
  unfold field_errors, address_field_ok.
  destruct (truthy value); [|split; [intros _ ?; discriminate | done]].
  rewrite _is_valid_ip_or_network_spec.
  destruct (ip_network (or_empty value)) as [n|e]; split; eauto; try done.
  intros H. by destruct (H eq_refl).
Qed.

Lemma port_field_errors (value : option string) (message : string) :
  field_errors value _is_valid_port message = [] <-> port_field_ok value.
Proof.
  unfold field_errors, port_field_ok.
  destruct (truthy value); [|split; [intros _ ?; discriminate | done]].
  destruct (_is_valid_port (or_empty value)) as [[|]|e] eqn:E.
  - split; [|done]. intros _ _. by apply _is_valid_port_true.
  - split; [done|]. intros H. apply (proj2 (_is_valid_port_true _)) in H; [|done].
    congruence.
  - split; [done|]. intros H. apply (proj2 (_is_valid_port_true _)) in H; [|done].
    congruence.
Qed.

(** X3.  [validate_rule] raises nothing, returns [True] exactly with an empty
    error list, and accepts a rule exactly when its chain and target are
    not empty, each address field is empty or parsed by the address
    library, and each port field is empty or a port or range within
    1..65535 (so that the analyzer reads it as an interval). *)
Theorem validate_rule_accepts {L : IpLib} (rule : FirewallRule) :
  (exists ok errors,
     validate_rule rule = Ok (ok, errors) /\ (ok = true <-> errors = [])) /\
  (validate_rule rule = Ok (true, []) <->
   chain rule <> "" /\ target rule <> "" /\
   address_field_ok (source_ip rule) /\
   address_field_ok (destination_ip rule) /\
   port_field_ok (source_port rule) /\
   port_field_ok (destination_port rule)).
Proof.
  assert (Hip : forall s, exists b, _is_valid_ip_or_network s = Ok b).
  { intros s. rewrite _is_valid_ip_or_network_spec. eauto. }
  assert (Hport : forall s, exists b, _is_valid_port s = Ok b).
  { intros s. rewrite _is_valid_port_spec. eauto. }
  unfold validate_rule.
  rewrite (check_field_spec (source_ip rule)) by apply Hip. simpl.
  rewrite (check_field_spec (destination_ip rule)) by apply Hip. simpl.
  rewrite (check_field_spec (source_port rule)) by apply Hport. simpl.
  rewrite (check_field_spec (destination_port rule)) by apply Hport. simpl.
  rewrite <- address_field_errors with (message := "Invalid source IP: ").
  rewrite <- (address_field_errors (destination_ip rule)
                "Invalid destination IP: ").
  rewrite <- (port_field_errors (source_port rule) "Invalid source port: ").
  rewrite <- (port_field_errors (destination_port rule)
                "Invalid destination port: ").
  set (e3 := field_errors (source_ip rule) _ _).
  set (e4 := field_errors (destination_ip rule) _ _).
  set (e5 := field_errors (source_port rule) _ _).
  set (e6 := field_errors (destination_port rule) _ _).
  set (errors := (((_ ++ e3) ++ e4) ++ e5) ++ e6).
  split.
  - exists (bool_decide (length errors = 0%nat)), errors. split; [done|].
    rewrite bool_decide_eq_true. apply length_zero_iff_nil.
  - split.
    + intros [= Hok Herr]. subst errors.
      apply app_eq_nil in Herr as [Herr H6].
      apply app_eq_nil in Herr as [Herr H5].
      apply app_eq_nil in Herr as [Herr H4].
      apply app_eq_nil in Herr as [Herr H3].
      repeat case_bool_decide; simpl in Herr; try discriminate.
      done.
    + intros (Hc & Ht & H3 & H4 & H5 & H6). subst errors.
      rewrite H3, H4, H5, H6.
      rewrite (bool_decide_false _ Hc), (bool_decide_false _ Ht). done.
Qed.

Lemma validate_rule_accepts_witness :
  validate_rule (L := ipv4_lib) Scenario.range2 = Ok (true, []).
Proof.
  apply (validate_rule_accepts (L := ipv4_lib) Scenario.range2).
  split; [done|]. split; [done|].
  split; [intros H; discriminate H|]. split; [intros H; discriminate H|].
  split; [intros H; discriminate H|].
  intros _. exists 80, 90. split; [vm_compute; reflexivity|lia].
Defined.

Lemma port_contains_preorder_witness :
  _port_contains (Some "1:1024") (Some "22") = Ok true.
Proof.
  apply (proj2 (proj2 port_contains_preorder)
           (Some "1:1024") (Some "20:25") (Some "22"));
    vm_compute; reflexivity.
Defined.

(** ** Symmetry of the conflict test *)

Section ConflictSymmetry.
Context {L : IpLib}.
Hypothesis overlaps_sym : forall n m, overlaps n m = overlaps m n.

Lemma _ip_ranges_overlap_sym (ip1 ip2 : string) :
  _ip_ranges_overlap ip1 ip2 = _ip_ranges_overlap ip2 ip1.
Proof.
  unfold _ip_ranges_overlap.
  destruct (ip_network ip1) as [n1|e1] eqn:E1,
           (ip_network ip2) as [n2|e2] eqn:E2; simpl;
    rewrite ?(ip_network_raises _ _ E1), ?(ip_network_raises _ _ E2);
    simpl; try done.
  by rewrite overlaps_sym.
Qed.

Lemma fields_compatible_sym (rule1 rule2 : FirewallRule) (c : criterion) :
  fields_compatible rule1 rule2 c = fields_compatible rule2 rule1 c.
Proof.
  unfold fields_compatible.
  destruct (getattr rule1 c) as [v1|], (getattr rule2 c) as [v2|]; try done.
  rewrite _ip_ranges_overlap_sym. f_equal.
  apply bool_decide_ext. split; congruence.
Qed.

Lemma conflicts_sym (rule1 rule2 : FirewallRule) :
  conflicts rule1 rule2 = conflicts rule2 rule1.
Proof.
  unfold conflicts.
  rewrite (bool_decide_ext (target rule1 = target rule2)
             (target rule2 = target rule1)) by (split; congruence).
  assert (forallb (fields_compatible rule1 rule2) same_traffic_criteria
          = forallb (fields_compatible rule2 rule1) same_traffic_criteria) as ->.
  { induction same_traffic_criteria as [|c cs IH]; [done|]. simpl.
    by rewrite IH, fields_compatible_sym. }
  rewrite <- !andb_assoc. f_equal. f_equal. apply andb_comm.
Qed.

End ConflictSymmetry.

(** X4.  When the address library's [overlaps] is symmetric, so is the
    conflict test: [_rules_conflict] gives the same answer for a pair of
    rules in either order. *)
Theorem rules_conflict_symmetric {L : IpLib} :
  (forall n m, overlaps n m = overlaps m n) ->
  forall rule1 rule2,
    _rules_conflict rule1 rule2 = _rules_conflict rule2 rule1.
Proof.
  intros Hsym rule1 rule2.
  by rewrite !_rules_conflict_spec, (conflicts_sym Hsym).
Qed.

Lemma ipv4_overlaps_sym (n m : IPv4.net) :
  IPv4.net_overlaps n m = IPv4.net_overlaps m n.
Proof.
  unfold IPv4.net_overlaps.
  destruct (IPv4.contains m (IPv4.network_address n)),
           (IPv4.contains m (IPv4.broadcast_address n)),
           (IPv4.contains n (IPv4.network_address m)),
           (IPv4.contains n (IPv4.broadcast_address m)); reflexivity.
Qed.

Lemma rules_conflict_symmetric_witness :
  _rules_conflict (L := ipv4_lib) Scenario.ssh1 Scenario.drop3
  = _rules_conflict (L := ipv4_lib) Scenario.drop3 Scenario.ssh1.
Proof.
  apply (rules_conflict_symmetric (L := ipv4_lib) ipv4_overlaps_sym).
Defined.

(** ** The redundancy check *)

Lemma first_same_signature_snoc (pre : list FirewallRule) (x rule : FirewallRule) :
  first_same_signature (pre ++ [x]) rule =
  match first_same_signature pre rule with
  | Some E => Some E
  | None => if bool_decide (_create_rule_signature x = _create_rule_signature rule)
            then Some x else None
  end.
Proof.
  unfold first_same_signature.
  destruct (list_find _ pre) as [[j E]|] eqn:Hf.
  - by rewrite (list_find_app_l _ _ _ _ _ Hf).
  - rewrite (list_find_app_r _ _ _ Hf). simpl.
    case_bool_decide as Hx.
    + by rewrite decide_True.
    + by rewrite decide_False.
Qed.

Lemma first_same_signature_Some (earlier : list FirewallRule)
    (rule E : FirewallRule) :
  first_same_signature earlier rule = Some E <->
  exists j, earlier !! j = Some E /\
            _create_rule_signature E = _create_rule_signature rule /\
            forall j' E', earlier !! j' = Some E' -> (j' < j)%nat ->
                          _create_rule_signature E' <> _create_rule_signature rule.
Proof.
  unfold first_same_signature. split.
  - destruct (list_find _ earlier) as [[j y]|] eqn:Hf; [|discriminate].
    simpl. intros [= ->]. apply list_find_Some in Hf as (Hj & Hy & Hmin).
    exists j. split; [done|]. split; [done|]. exact Hmin.
  - intros (j & Hj & HE & Hmin).
    assert (list_find (fun E => _create_rule_signature E
                                = _create_rule_signature rule) earlier
            = Some (j, E)) as ->; [|done].
    apply list_find_Some. split; [done|]. split; [done|]. exact Hmin.
Qed.

Lemma first_same_signature_None (earlier : list FirewallRule)
    (rule : FirewallRule) :
  first_same_signature earlier rule = None <->
  _create_rule_signature rule ∉ signatures earlier.
Proof.
  unfold first_same_signature, signatures.
  rewrite fmap_None, list_find_None, elem_of_list_to_set, list_elem_of_fmap,
    Forall_forall.
  split.
  - intros H (E & Hs & HE). by apply (H E).
  - intros H E HE Hs. apply H. by exists E.
Qed.

(** The loop of [_check_redundant_rules] from the middle of a chain, with
    [seen_rules] holding, for each signature met so far, the first rule
    that had it. *)
Lemma check_redundant_from (rules pre suffix : list FirewallRule)
    (seen : gmap string FirewallRule) (result : AnalysisResult) :
  rules = pre ++ suffix ->
  (forall rule, seen !! _create_rule_signature rule
                = first_same_signature pre rule) ->
  issues (fold_left redundant_step suffix (seen, result)).2 =
  issues result ++
  omap (fun '(i, rule) =>
          (fun E => redundant_issue E rule)
            <$> first_same_signature (take i rules) rule)
       (zip (seq (length pre) (length suffix)) suffix).
Proof.
  revert pre seen result. induction suffix as [|x suffix IH];
    intros pre seen result Hrules Hseen.
  - simpl. by rewrite app_nil_r.
  - assert (Htake : take (length pre) rules = pre).
    { subst rules. by rewrite take_app_length. }
    simpl. rewrite Htake, <- Hseen.
    specialize (IH (pre ++ [x])).
    rewrite length_app in IH. simpl in IH.
    replace (length pre + 1)%nat with (S (length pre)) in IH by lia.
    destruct (seen !! _create_rule_signature x) as [orig|] eqn:Hx; simpl.
    + rewrite (IH seen (add_issue result (redundant_issue orig x)));
        [simpl; by rewrite <- app_assoc | by rewrite <- app_assoc |].
      intros rule. rewrite first_same_signature_snoc, <- Hseen.
      destruct (seen !! _create_rule_signature rule) as [E|] eqn:Hr; [done|].
      rewrite bool_decide_false; [done|]. congruence.
    + rewrite (IH (<[_create_rule_signature x := x]> seen) result);
        [done | by rewrite <- app_assoc |].
      intros rule. rewrite first_same_signature_snoc, <- Hseen.
      destruct (decide (_create_rule_signature x = _create_rule_signature rule))
        as [Heq|Hne].
      * rewrite <- Heq, lookup_insert_eq, Hx. by rewrite bool_decide_true.
      * rewrite lookup_insert_ne by done.
        destruct (seen !! _create_rule_signature rule); [done|].
        by rewrite bool_decide_false.
Qed.

Lemma signatures_snoc (pre : list FirewallRule) (x : FirewallRule) :
  size (signatures (pre ++ [x])) =
  (size (signatures pre)
   + match first_same_signature pre x with Some _ => 0 | None => 1 end)%nat.
Proof.
  unfold signatures. rewrite fmap_app, list_to_set_app_L. simpl.
  destruct (first_same_signature pre x) as [E|] eqn:Hf.
  - assert (_create_rule_signature x ∈ signatures pre) as Hin.
    { destruct (decide (_create_rule_signature x ∈ signatures pre)); [done|].
      apply first_same_signature_None in n. congruence. }
    unfold signatures in Hin. rewrite union_empty_r_L.
    rewrite union_comm_L, (subseteq_union_1_L {[_create_rule_signature x]}),
      Nat.add_0_r; [done|].
    by apply singleton_subseteq_l.
  - apply first_same_signature_None in Hf. unfold signatures in Hf.
    rewrite union_empty_r_L, size_union, size_singleton; [done|].
    by apply disjoint_singleton_r.
Qed.

Lemma redundant_count_from (rules pre suffix : list FirewallRule) :
  rules = pre ++ suffix ->
  (length (omap (fun '(i, rule) =>
                   (fun E => redundant_issue E rule)
                     <$> first_same_signature (take i rules) rule)
                (zip (seq (length pre) (length suffix)) suffix))
   + size (signatures rules)
   = length suffix + size (signatures pre))%nat.
Proof.
  revert pre. induction suffix as [|x suffix IH]; intros pre Hrules.
  - simpl. subst rules. by rewrite app_nil_r.
  - assert (Htake : take (length pre) rules = pre).
    { subst rules. by rewrite take_app_length. }
    specialize (IH (pre ++ [x])).
    rewrite length_app in IH. simpl in IH.
    replace (length pre + 1)%nat with (S (length pre)) in IH by lia.
    specialize (IH ltac:(by rewrite <- app_assoc)).
    rewrite signatures_snoc in IH.
    simpl. rewrite Htake. unfold omap in IH.
    destruct (first_same_signature pre x); simpl; simpl in IH; lia.
Qed.

(** X5.  [_check_redundant_rules] adds exactly [redundant_findings]: going
    through the chain in order, one issue for each rule whose signature
    an earlier rule already has, and the issue names the first rule of the
    chain with that signature and then the rule itself.  The number of
    issues added is the number of rules less the number of distinct
    signatures. *)
Theorem redundant_reports_first_occurrence (rules : list FirewallRule)
    (result : AnalysisResult) :
  issues (_check_redundant_rules rules result) =
    issues result ++ redundant_findings rules /\
  (length (redundant_findings rules) + size (signatures rules)
   = length rules)%nat /\
  (forall i R E,
     rules !! i = Some R ->
     (first_same_signature (take i rules) R = Some E <->
      exists j, (j < i)%nat /\ rules !! j = Some E /\
                _create_rule_signature E = _create_rule_signature R /\
                forall j' E', rules !! j' = Some E' -> (j' < j)%nat ->
                              _create_rule_signature E'
                              <> _create_rule_signature R)) /\
  (forall E R, affected_rules (redundant_issue E R) = [E; R]).
Proof.
  split; [|split; [|split]].
  - apply (check_redundant_from rules [] rules ∅ result eq_refl).
    intros rule. by rewrite lookup_empty.
  - pose proof (redundant_count_from rules [] rules eq_refl) as H.
    change (size (signatures [])) with (size (∅ : gset string)) in H.
    rewrite size_empty in H. change (length (@nil FirewallRule)) with 0%nat in H.
    unfold redundant_findings, enumerate. lia.
  - intros i R E Hi. split.
    + intros Hfirst.
      apply first_same_signature_Some in Hfirst as (j & Hj & Hs & Hmin).
      apply lookup_take_Some in Hj as [Hj Hlt].
      exists j. split; [done|]. split; [done|]. split; [done|].
      intros j' E' Hj' Hlt'. apply (Hmin j'); [|done].
      by rewrite lookup_take_lt by lia.
    + intros (j & Hlt & Hj & Hs & Hmin). apply first_same_signature_Some.
      exists j. split; [by rewrite lookup_take_lt|]. split; [done|].
      intros j' E' Hj' Hlt'. apply lookup_take_Some in Hj' as [Hj' _].
      by apply (Hmin j').
  - done.
Qed.

Lemma redundant_reports_first_occurrence_witness :
  first_same_signature [Scenario.ssh1] Scenario.ssh2 = Some Scenario.ssh1.
Proof.
  destruct (redundant_reports_first_occurrence
              [Scenario.ssh1; Scenario.ssh2; Scenario.drop3] new_AnalysisResult)
    as (_ & _ & Hfirst & _).
  apply (Hfirst 1%nat Scenario.ssh2 Scenario.ssh1 eq_refl).
  exists 0%nat. split; [lia|]. split; [reflexivity|]. split; [reflexivity|].
  intros j' E' _ Hlt. lia.
Defined.

(** ** The ordering check *)

Lemma ordering_inner_spec (rules : list FirewallRule) (rule : FirewallRule)
    (n k : nat) (result : AnalysisResult) :
  (k + n <= length rules)%nat ->
  exists result',
    for_each (seq k n) (fun j (result : AnalysisResult) =>
      earlier_rule ← getitem rules j;
      if _is_more_general earlier_rule rule
         && bool_decide (target rule ≠ target earlier_rule)
      then Ok (add_issue result (ordering_issue earlier_rule rule))
      else Ok result) result = Ok result' /\
    issues result' =
    issues result ++
    ((fun E => ordering_issue E rule)
       <$> filter (fun E => (restriction_count E < restriction_count rule)%nat
                            /\ target rule <> target E)
             (take n (drop k rules))).
Proof.
  revert k result. induction n as [|n IH]; intros k result Hlen.
  - exists result. split; [done|]. by rewrite take_0, app_nil_r.
  - destruct (lookup_lt_is_Some_2 rules k ltac:(lia)) as [x Hx].
    rewrite (drop_S _ _ _ Hx), firstn_cons, filter_cons.
    assert (Hg : getitem rules k = Ok x) by (unfold getitem; by rewrite Hx).
    simpl. rewrite Hg. simpl.
    destruct (_is_more_general x rule
              && bool_decide (target rule ≠ target x)) eqn:Eb.
    + apply andb_true_iff in Eb as [Hc Ht].
      apply bool_decide_eq_true in Hc, Ht.
      rewrite decide_True by done.
      destruct (IH (S k) (add_issue result (ordering_issue x rule)) ltac:(lia))
        as (result' & Hrun & Hiss).
      exists result'. split; [exact Hrun|].
      rewrite Hiss. simpl. by rewrite <- app_assoc.
    + rewrite decide_False.
      * apply (IH (S k) result). lia.
      * intros [Hc Ht].
        apply andb_false_iff in Eb as [Eb|Eb];
          apply bool_decide_eq_false in Eb; contradiction.
Qed.

Lemma check_ordering_from (rules pre suffix : list FirewallRule)
    (result : AnalysisResult) :
  rules = pre ++ suffix ->
  exists result',
    for_each (zip (seq (length pre) (length suffix)) suffix)
      (fun '(i, rule) (result : AnalysisResult) =>
         for_each (range i) (fun j (result : AnalysisResult) =>
           earlier_rule ← getitem rules j;
           if _is_more_general earlier_rule rule
              && bool_decide (target rule ≠ target earlier_rule)
           then Ok (add_issue result (ordering_issue earlier_rule rule))
           else Ok result) result) result = Ok result' /\
    issues result' =
    issues result ++
    mjoin ((fun '(i, rule) =>
              (fun E => ordering_issue E rule)
                <$> filter (fun E => (restriction_count E < restriction_count rule)%nat
                                     /\ target rule <> target E)
                      (take i rules))
             <$> zip (seq (length pre) (length suffix)) suffix).
Proof.
  revert pre result. induction suffix as [|x suffix IH]; intros pre result Hrules.
  - exists result. split; [reflexivity|]. simpl. by rewrite app_nil_r.
  - simpl.
    destruct (ordering_inner_spec rules x (length pre) 0 result)
      as (r1 & Hr1 & Hiss1).
    { subst rules. rewrite length_app. lia. }
    rewrite drop_0 in Hiss1. unfold range. rewrite Hr1. simpl.
    specialize (IH (pre ++ [x]) r1).
    rewrite length_app in IH. simpl in IH.
    replace (length pre + 1)%nat with (S (length pre)) in IH by lia.
    destruct IH as (result' & Hrun & Hiss); [by rewrite <- app_assoc|].
    exists result'. split; [exact Hrun|].
    by rewrite Hiss, Hiss1, <- app_assoc.
Qed.

Lemma ordering_findings_elem (rules : list FirewallRule) (issue : RuleIssue) :
  issue ∈ ordering_findings rules <->
  exists j i E R,
    (j < i)%nat /\ rules !! j = Some E /\ rules !! i = Some R /\
    (restriction_count E < restriction_count R)%nat /\
    target R <> target E /\ issue = ordering_issue E R.
Proof.
  unfold ordering_findings, enumerate. rewrite list_elem_of_join. split.
  - intros (l & Hin & Hl).
    apply list_elem_of_fmap in Hl as ([i R] & -> & Hz).
    apply list_elem_of_lookup in Hz as (k & Hk).
    apply lookup_zip_with_Some in Hk as (i' & r' & [= <- <-] & Hseq & Hrule).
    apply lookup_seq in Hseq as [-> _]. simpl in Hrule.
    apply list_elem_of_fmap in Hin as (E & -> & Hf).
    apply list_elem_of_filter in Hf as [[Hc Ht] HE].
    apply list_elem_of_lookup in HE as (j & Hj).
    apply lookup_take_Some in Hj as [Hj Hlt].
    exists j, k, E, R. done.
  - intros (j & i & E & R & Hlt & Hj & Hi & Hc & Ht & ->).
    exists ((fun E => ordering_issue E R)
              <$> filter (fun E => (restriction_count E < restriction_count R)%nat
                                   /\ target R <> target E) (take i rules)).
    split.
    + apply list_elem_of_fmap. exists E. split; [done|].
      apply list_elem_of_filter. split; [done|].
      apply list_elem_of_lookup. exists j. by rewrite lookup_take_lt.
    + apply list_elem_of_fmap. exists (i, R). split; [done|].
      apply list_elem_of_lookup. exists i.
      apply lookup_zip_with_Some. exists i, R. repeat split; [|done].
      apply lookup_seq. split; [done|]. by eapply lookup_lt_Some.
Qed.

(** X6.  [_check_rule_ordering] raises nothing (its index is always within the
    chain) and adds exactly [ordering_findings]: an issue for a pair of
    positions j < i exactly when the earlier rule restricts fewer of
    protocol, source, destination, source port and destination port than
    the later one and the two targets differ.  A chain in which no rule
    restricts more of them than a rule before it gets no ordering
    issue. *)
Theorem ordering_check_characterised (rules : list FirewallRule)
    (result : AnalysisResult) :
  (exists result',
     _check_rule_ordering rules result = Ok result' /\
     issues result' = issues result ++ ordering_findings rules) /\
  (forall issue,
     issue ∈ ordering_findings rules <->
     exists j i E R,
       (j < i)%nat /\ rules !! j = Some E /\ rules !! i = Some R /\
       (restriction_count E < restriction_count R)%nat /\
       target R <> target E /\ issue = ordering_issue E R) /\
  ((forall j i E R,
      (j < i)%nat -> rules !! j = Some E -> rules !! i = Some R ->
      (restriction_count R <= restriction_count E)%nat) ->
   ordering_findings rules = []).
Proof.
  split; [|split].
  - apply (check_ordering_from rules [] rules result eq_refl).
  - apply ordering_findings_elem.
  - intros Hsorted.
    destruct (ordering_findings rules) as [|issue l] eqn:Hf; [done|].
    assert (issue ∈ ordering_findings rules) as Hin by (rewrite Hf; left).
    apply ordering_findings_elem in Hin
      as (j & i & E & R & Hlt & Hj & Hi & Hc & _).
    specialize (Hsorted j i E R Hlt Hj Hi). lia.
Qed.

Lemma ordering_check_characterised_witness :
  ordering_findings [Scenario.ssh1; Scenario.ssh2; Scenario.drop3] = [].
Proof.
  apply (ordering_check_characterised
           [Scenario.ssh1; Scenario.ssh2; Scenario.drop3] new_AnalysisResult).
  intros j i E R Hlt Hj Hi.
  destruct i as [|[|[|i]]]; destruct j as [|[|[|j]]];
    try lia; try discriminate;
    injection Hj as <-; injection Hi as <-; vm_compute; lia.
Defined.

(** ** The security checks *)

Lemma check_security_issues_spec (rules : list FirewallRule)
    (result : AnalysisResult) :
  issues (_check_security_issues rules result)
  = issues result ++ security_findings rules.
Proof.
  unfold _check_security_issues, security_findings.
  revert result. induction rules as [|rule rules IH]; intros result; simpl.
  - by rewrite app_nil_r.
  - rewrite IH. unfold security_step, security_findings_of.
    change (bool_decide (target rule = "ACCEPT")
            && bool_decide (source_ip rule ∈ [None; Some "0.0.0.0/0"; Some "any"])
            && bool_decide (destination_port rule
                            ∈ [Some "22"; Some "3389"; Some "23"]))
      with (is_admin_port_rule rule).
    change (bool_decide (target rule = "DROP")
            && negb (has_substring "LOG" (raw_rule rule)))
      with (is_unlogged_drop rule).
    destruct (is_admin_port_rule rule), (is_unlogged_drop rule); simpl;
      by rewrite <- ?app_assoc.
Qed.

Lemma check_permissive_rules_spec (rules : list FirewallRule)
    (result : AnalysisResult) :
  issues (_check_permissive_rules rules result)
  = issues result ++ permissive_findings rules.
Proof.
  unfold _check_permissive_rules, permissive_findings.
  revert result. induction rules as [|rule rules IH]; intros result; simpl.
  - by rewrite app_nil_r.
  - rewrite IH, filter_cons. unfold permissive_step.
    change (bool_decide (target rule = "ACCEPT")
            && negb (truthy (source_ip rule))
            && negb (truthy (destination_ip rule))
            && negb (truthy (destination_port rule))
            && negb (truthy (protocol rule)))
      with (is_unrestricted_accept rule).
    destruct (is_unrestricted_accept rule).
    + rewrite decide_True by done. simpl. by rewrite <- app_assoc.
    + by rewrite decide_False by done.
Qed.

Lemma admin_port_truthy (rule : FirewallRule) :
  destination_port rule ∈ [Some "22"; Some "3389"; Some "23"] ->
  truthy (destination_port rule) = true.
Proof.
  intros Hp. repeat (apply elem_of_cons in Hp as [->|Hp]); try done.
  by apply elem_of_nil in Hp.
Qed.

Lemma security_tests_exclusive (rule : FirewallRule) :
  (length (security_findings_of rule
           ++ if is_unrestricted_accept rule then [permissive_issue rule]
              else []) <= 1)%nat.
Proof.
  unfold security_findings_of, is_admin_port_rule, is_unlogged_drop,
    is_unrestricted_accept.
  destruct (bool_decide (target rule = "ACCEPT")) eqn:Ea,
           (bool_decide (target rule = "DROP")) eqn:Ed,
           (bool_decide (destination_port rule
                         ∈ [Some "22"; Some "3389"; Some "23"])) eqn:Ep,
           (truthy (destination_port rule)) eqn:Et,
           (bool_decide (source_ip rule ∈ [None; Some "0.0.0.0/0"; Some "any"])),
           (has_substring "LOG" (raw_rule rule)),
           (truthy (source_ip rule)), (truthy (destination_ip rule)),
           (truthy (protocol rule)); simpl; try lia;
    try (apply bool_decide_eq_true in Ea, Ed; congruence);
    apply bool_decide_eq_true, admin_port_truthy in Ep; congruence.
Qed.

Lemma security_findings_cons (rule : FirewallRule) (rules : list FirewallRule) :
  security_findings (rule :: rules)
  = security_findings_of rule ++ security_findings rules.
Proof. reflexivity. Qed.

Lemma permissive_findings_cons (rule : FirewallRule) (rules : list FirewallRule) :
  permissive_findings (rule :: rules)
  = (if is_unrestricted_accept rule then [permissive_issue rule] else [])
    ++ permissive_findings rules.
Proof.
  unfold permissive_findings. rewrite filter_cons.
  destruct (is_unrestricted_accept rule).
  - by rewrite decide_True by done.
  - by rewrite decide_False by done.
Qed.

(** X7.  The security check and the permissive check add exactly
    [security_findings] and [permissive_findings]; no rule passes more
    than one of the three tests (administrative port open to all,
    drop without logging, unrestricted accept), so together they add at
    most one issue per rule of the chain. *)
Theorem security_checks_one_per_rule (rules : list FirewallRule)
    (result : AnalysisResult) :
  issues (_check_permissive_rules rules (_check_security_issues rules result))
  = issues result ++ security_findings rules ++ permissive_findings rules /\
  (length (security_findings rules ++ permissive_findings rules)
   <= length rules)%nat.
Proof.
  split.
  - by rewrite check_permissive_rules_spec, check_security_issues_spec,
      <- app_assoc.
  - induction rules as [|rule rules IH]; [done|].
    pose proof (security_tests_exclusive rule) as H1.
    rewrite security_findings_cons, permissive_findings_cons.
    rewrite !length_app in *.
    change (length (rule :: rules)) with (S (length rules)). lia.
Qed.

(** ** The analysis of a policy, chain by chain *)

Lemma for_each_appends {A} (xs : list A) (body : A -> AnalysisResult -> res AnalysisResult)
    (F : A -> list RuleIssue) :
  (forall x s s', x ∈ xs -> body x s = Ok s' -> issues s' = issues s ++ F x) ->
  forall s s', for_each xs body s = Ok s' ->
               issues s' = issues s ++ mjoin (F <$> xs).
Proof.
  induction xs as [|x xs IH]; intros Hbody s s' Hrun.
  - injection Hrun as <-. simpl. by rewrite app_nil_r.
  - simpl in Hrun. apply bind_Ok in Hrun as (s1 & H1 & Hrest).
    rewrite (IH (fun y t t' Hy => Hbody y t t' (list_elem_of_further _ _ _ Hy))
               _ _ Hrest).
    rewrite (Hbody x s s1 (list_elem_of_here _ _) H1).
    simpl. by rewrite <- app_assoc.
Qed.

Lemma for_each_total {A S} (xs : list A) (body : A -> S -> res S) :
  (forall x s, x ∈ xs -> exists s', body x s = Ok s') ->
  forall s, exists s', for_each xs body s = Ok s'.
Proof.
  induction xs as [|x xs IH]; intros Hbody s.
  - by exists s.
  - destruct (Hbody x s (list_elem_of_here _ _)) as [s1 H1].
    simpl. rewrite H1. simpl. apply IH.
    intros y t Hy. apply Hbody. by right.
Qed.

Lemma join_fmap_join {A B} (f : A -> list B) (ls : list (list A)) :
  mjoin (f <$> mjoin ls) = mjoin ((fun l => mjoin (f <$> l)) <$> ls).
Proof.
  induction ls as [|l ls IH]; [done|].
  simpl. by rewrite fmap_app, join_app, IH.
Qed.

Section Analysis.
Context {L : IpLib}.

Lemma analyze_chain_findings (rules : list FirewallRule)
    (result result' : AnalysisResult) :
  analyze_chain rules result = Ok result' ->
  issues result' = issues result ++ chain_findings rules.
Proof.
  unfold analyze_chain. case_bool_decide as Hnil.
  - subst rules. intros [= <-]. by rewrite app_nil_r.
  - intros Hrun.
    apply bind_Ok in Hrun as (r2 & H2 & Hrun).
    apply bind_Ok in Hrun as (r3 & H3 & Hrun).
    apply bind_Ok in Hrun as (r4 & H4 & Hrun).
    injection Hrun as <-.
    rewrite check_permissive_rules_spec, check_security_issues_spec.
    rewrite (check_unreachable_from rules [] rules _ _ eq_refl H4).
    destruct (check_ordering_from rules [] rules r2 eq_refl)
      as (r3' & H3' & Hi3).
    assert (r3' = r3) as ->
      by (unfold _check_rule_ordering, enumerate in H3; simpl in H3';
          congruence).
    destruct (check_conflicting_from rules [] rules
                (_check_redundant_rules rules result) eq_refl)
      as (r2' & H2' & Hi2).
    assert (r2' = r2) as ->
      by (unfold _check_conflicting_rules, enumerate in H2; simpl in H2';
          congruence).
    rewrite Hi3, Hi2.
    unfold _check_redundant_rules.
    rewrite (check_redundant_from rules [] rules ∅ result eq_refl)
      by (intros rule; by rewrite lookup_empty).
    unfold chain_findings, redundant_findings, conflict_findings,
      ordering_findings, unreachable_findings, enumerate.
    simpl. by rewrite <- !app_assoc.
Qed.

Lemma analyze_chain_total (rules : list FirewallRule) (result : AnalysisResult) :
  (forall E R, E ∈ rules -> R ∈ rules ->
               exists b, _rule_covers_completely E R = Ok b) ->
  exists result', analyze_chain rules result = Ok result'.
Proof.
  intros Hcov. unfold analyze_chain. case_bool_decide as Hnil; [eauto|].
  destruct (check_conflicting_from rules [] rules
              (_check_redundant_rules rules result) eq_refl)
    as (r2 & H2 & _).
  unfold _check_conflicting_rules, enumerate. simpl in H2. rewrite H2. simpl.
  destruct (check_ordering_from rules [] rules r2 eq_refl) as (r3 & H3 & _).
  unfold _check_rule_ordering, enumerate. simpl in H3. rewrite H3. simpl.
  destruct (check_unreachable_total_from rules [] rules r3 eq_refl Hcov)
    as (r4 & H4).
  unfold _check_unreachable_rules, enumerate. simpl in H4. rewrite H4. simpl.
  eauto.
Qed.

Lemma analyze_tables_findings (tbls : Tables) (analysis : AnalysisResult) :
  analyze_tables tbls = Ok analysis ->
  issues analysis = policy_findings tbls.
Proof.
  unfold analyze_tables. intros Hrun.
  apply bind_Ok in Hrun as (r & Hr & Hrun). injection Hrun as <-. simpl.
  apply (for_each_appends tbls _
           (fun '(table_name, chains) =>
              mjoin (chain_findings <$> (snd <$> chains)))) in Hr.
  - rewrite Hr. simpl. unfold policy_findings, all_chains_of.
    rewrite join_fmap_join, <- list_fmap_compose.
    f_equal. apply list_fmap_ext. by intros i [tn chs] _.
  - intros [tn chs] s s' _ Hchains.
    apply (for_each_appends chs _ (fun '(chain_name, rules) =>
                                     chain_findings rules)) in Hchains.
    + rewrite Hchains. f_equal. f_equal. rewrite <- list_fmap_compose.
      apply list_fmap_ext. by intros i [cn rules] _.
    + intros [cn rules] t t' _. apply analyze_chain_findings.
Qed.

Lemma analyze_tables_total (tbls : Tables) :
  (forall E R, exists b, _rule_covers_completely E R = Ok b) ->
  exists analysis, analyze_tables tbls = Ok analysis.
Proof.
  intros Hcov. unfold analyze_tables.
  destruct (for_each_total tbls
              (fun '(table_name, chains) (result : AnalysisResult) =>
                 for_each chains
                   (fun '(chain_name, rules) (result : AnalysisResult) =>
                      analyze_chain rules result) result)) with (s := new_AnalysisResult)
    as [r Hr].
  - intros [tn chs] s _. apply for_each_total.
    intros [cn rules] t _. apply analyze_chain_total. intros E R _ _. apply Hcov.
  - rewrite Hr. simpl. eauto.
Qed.

Lemma covers_check_total (c : criterion) (g s : option string) :
  (forall n m, exists b, supernet_of n m = Ok b) ->
  exists b, covers_check c g s = Ok b.
Proof.
  intros Hsup.
  assert (Hip : exists b, _ip_contains g s = Ok b).
  { unfold _ip_contains. apply try_except_ValueError_Ok; [|eauto].
    intros e H. destruct g as [g|]; [|discriminate].
    destruct s as [s|]; [|discriminate].
    destruct (ip_network g) as [n1|e1] eqn:E1; simpl in H;
      [|injection H as <-; by eapply ip_network_raises].
    destruct (ip_network s) as [n2|e2] eqn:E2; simpl in H;
      [|injection H as <-; by eapply ip_network_raises].
    destruct (Hsup n1 n2) as [b Hb]. rewrite Hb in H. discriminate. }
  destruct c; simpl; eauto; destruct g as [g|]; eauto;
    apply _port_contains_total.
Qed.

Lemma _rule_covers_completely_total (E R : FirewallRule) :
  (forall n m, exists b, supernet_of n m = Ok b) ->
  exists b, _rule_covers_completely E R = Ok b.
Proof.
  intros Hsup. unfold _rule_covers_completely.
  induction same_traffic_criteria as [|c cs IH]; simpl; [eauto|].
  destruct (covers_check_total c (getattr E c) (getattr R c) Hsup) as [b ->].
  simpl. destruct b; simpl; eauto.
Qed.

End Analysis.

(** X8.  The issues of an analysis are [policy_findings]: the findings of the
    six checks (redundant, conflicting, ordering, unreachable, security,
    permissive, in this order) on each chain, chain after chain and table
    after table; no issue depends on a rule of another chain.  With an
    address library whose [supernet_of] raises nothing (one that knows a
    single IP version, say), the analysis of any policy returns. *)
Theorem analysis_is_chainwise {L : IpLib} (cfg : FirewallConfig) :
  (forall analysis,
     analyze_configuration (Some cfg) = Ok analysis ->
     issues analysis = policy_findings (tables cfg)) /\
  ((forall n m, exists b, supernet_of n m = Ok b) ->
   exists analysis, analyze_configuration (Some cfg) = Ok analysis).
Proof.
  split.
  - intros analysis. apply analyze_tables_findings.
  - intros Hsup. apply analyze_tables_total.
    intros E R. by apply _rule_covers_completely_total.
Qed.

Lemma analysis_is_chainwise_witness :
  exists analysis,
    analyze_configuration (L := ipv4_lib) (Some Scenario.duplicate_policy)
    = Ok analysis /\
    issues analysis
    = policy_findings (L := ipv4_lib) (tables Scenario.duplicate_policy).
Proof.
  destruct (analysis_is_chainwise (L := ipv4_lib) Scenario.duplicate_policy)
    as [Hfind Htotal].
  destruct Htotal as [analysis Hrun].
  - intros n m. by eexists.
  - exists analysis. split; [exact Hrun|]. by apply Hfind.
Defined.

(** ** Scores and issues *)

Lemma fold_left_snoc {A B} (f : A -> B -> A) (l : list B) (x : B) (a : A) :
  fold_left f (l ++ [x]) a = f (fold_left f l a) x.
Proof. by rewrite fold_left_app. Qed.

(** X9.  Both scores lie between 0 and 100, and one more issue never raises
    either of them.  An issue that is a conflict or a missing log leaves
    both scores as they are, whatever its severity. *)
Theorem scores_bounded_and_monotone (result : AnalysisResult)
    (issue : RuleIssue) :
  (0 <= _calculate_efficiency_score (add_issue result issue)
     <= _calculate_efficiency_score result /\
   _calculate_efficiency_score result <= 100) /\
  (0 <= _calculate_security_score (add_issue result issue)
     <= _calculate_security_score result /\
   _calculate_security_score result <= 100) /\
  (issue_type issue = CONFLICTING \/ issue_type issue = MISSING_LOG ->
   _calculate_efficiency_score (add_issue result issue)
     = _calculate_efficiency_score result /\
   _calculate_security_score (add_issue result issue)
     = _calculate_security_score result).
Proof.
  unfold _calculate_efficiency_score, _calculate_security_score, add_issue.
  simpl. rewrite !fold_left_snoc.
  set (e := fold_left efficiency_step (issues result) 100).
  set (s := fold_left security_score_step (issues result) 100).
  unfold efficiency_step, security_score_step.
  split; [|split].
  - destruct (issue_type issue); lia.
  - destruct (issue_type issue), (severity issue); lia.
  - intros [-> | ->]; done.
Qed.

Lemma scores_bounded_and_monotone_witness :
  _calculate_security_score
    (add_issue new_AnalysisResult
       (conflicting_issue Scenario.ssh1 Scenario.drop3))
  = _calculate_security_score new_AnalysisResult.
Proof.
  apply (scores_bounded_and_monotone new_AnalysisResult
           (conflicting_issue Scenario.ssh1 Scenario.drop3)).
  left. reflexivity.
Defined.

(** ** Statistics *)

Ltac stats_lookup :=
  repeat first [ rewrite lookup_insert_eq
               | rewrite lookup_insert_ne by done
               | rewrite lookup_empty ].

Ltac stats_eq :=
  apply map_eq; intros k; unfold stats_map; rewrite <- ?insert_empty;
  destruct (decide (k = "total_rules")) as [->|?]; [by stats_lookup|];
  destruct (decide (k = "total_chains")) as [->|?]; [by stats_lookup|];
  destruct (decide (k = "total_tables")) as [->|?]; [by stats_lookup|];
  destruct (decide (k = "accept_rules")) as [->|?]; [by stats_lookup|];
  destruct (decide (k = "drop_rules")) as [->|?]; [by stats_lookup|];
  destruct (decide (k = "reject_rules")) as [->|?]; [by stats_lookup|];
  destruct (decide (k = "custom_chains")) as [->|?]; [by stats_lookup|];
  by stats_lookup.

Lemma stat_add_known (k : string) (n v : Z) (stats : gmap string Z) :
  stats !! k = Some v -> stat_add k n stats = <[k := v + n]> stats.
Proof. intros H. unfold stat_add. by rewrite H. Qed.

Section StatsMap.
Variables tr tc tt a d r cc n : Z.

Lemma stat_add_total_rules :
  stat_add "total_rules" n (stats_map tr tc tt a d r cc)
  = stats_map (tr + n) tc tt a d r cc.
Proof. rewrite (stat_add_known _ _ tr) by done. stats_eq. Qed.

Lemma stat_add_total_chains :
  stat_add "total_chains" n (stats_map tr tc tt a d r cc)
  = stats_map tr (tc + n) tt a d r cc.
Proof. rewrite (stat_add_known _ _ tc) by done. stats_eq. Qed.

Lemma stat_add_accept_rules :
  stat_add "accept_rules" n (stats_map tr tc tt a d r cc)
  = stats_map tr tc tt (a + n) d r cc.
Proof. rewrite (stat_add_known _ _ a) by done. stats_eq. Qed.

Lemma stat_add_drop_rules :
  stat_add "drop_rules" n (stats_map tr tc tt a d r cc)
  = stats_map tr tc tt a (d + n) r cc.
Proof. rewrite (stat_add_known _ _ d) by done. stats_eq. Qed.

Lemma stat_add_reject_rules :
  stat_add "reject_rules" n (stats_map tr tc tt a d r cc)
  = stats_map tr tc tt a d (r + n) cc.
Proof. rewrite (stat_add_known _ _ r) by done. stats_eq. Qed.

Lemma stat_add_custom_chains :
  stat_add "custom_chains" n (stats_map tr tc tt a d r cc)
  = stats_map tr tc tt a d r (cc + n).
Proof. rewrite (stat_add_known _ _ cc) by done. stats_eq. Qed.

End StatsMap.

Lemma count_target_cons (tgt : string) (rule : FirewallRule)
    (rules : list FirewallRule) :
  count_target tgt (rule :: rules)
  = (if bool_decide (target rule = tgt) then 1 else 0) + count_target tgt rules.
Proof.
  unfold count_target. rewrite filter_cons.
  case_bool_decide as H.
  - rewrite decide_True by done. rewrite length_cons. lia.
  - rewrite decide_False by done. lia.
Qed.

Lemma count_target_app (tgt : string) (l1 l2 : list FirewallRule) :
  count_target tgt (l1 ++ l2) = count_target tgt l1 + count_target tgt l2.
Proof. unfold count_target. rewrite filter_app, length_app. lia. Qed.

Lemma count_rules_spec (rules : list FirewallRule) (tr tc tt a d r cc : Z) :
  fold_left count_rule rules (stats_map tr tc tt a d r cc)
  = stats_map tr tc tt (a + count_target "ACCEPT" rules)
      (d + count_target "DROP" rules) (r + count_target "REJECT" rules) cc.
Proof.
  revert a d r. induction rules as [|rule rules IH]; intros a d r.
  - unfold count_target. simpl. by rewrite !Z.add_0_r.
  - simpl. unfold count_rule. rewrite !count_target_cons.
    destruct (decide (target rule = "ACCEPT")) as [Ha|Ha].
    { rewrite (bool_decide_true _ Ha), stat_add_accept_rules, IH.
      rewrite !bool_decide_false by congruence. f_equal; lia. }
    rewrite (bool_decide_false _ Ha).
    destruct (decide (target rule = "DROP")) as [Hd|Hd].
    { rewrite (bool_decide_true _ Hd), stat_add_drop_rules, IH.
      rewrite !bool_decide_false by congruence. f_equal; lia. }
    rewrite (bool_decide_false _ Hd).
    destruct (decide (target rule = "REJECT")) as [Hr|Hr].
    { rewrite (bool_decide_true _ Hr), stat_add_reject_rules, IH.
      f_equal; lia. }
    rewrite (bool_decide_false _ Hr), IH. f_equal; lia.
Qed.

Lemma count_chains_spec (chains : list (string * list FirewallRule))
    (tr tc tt a d r cc : Z) :
  fold_left count_chain chains (stats_map tr tc tt a d r cc)
  = let rules := mjoin (snd <$> chains) in
    stats_map (tr + Z.of_nat (length rules)) tc tt
      (a + count_target "ACCEPT" rules) (d + count_target "DROP" rules)
      (r + count_target "REJECT" rules)
      (cc + Z.of_nat (length (filter (fun entry => entry.1 ∉ builtin_chains)
                                chains))).
Proof.
  cbv zeta. revert tr a d r cc.
  induction chains as [|[cn rules] chains IH]; intros tr a d r cc.
  - unfold count_target. simpl. by rewrite !Z.add_0_r.
  - change (mjoin (snd <$> (cn, rules) :: chains))
      with (rules ++ mjoin (snd <$> chains)).
    rewrite filter_cons, !count_target_app, length_app.
    cbn [fold_left count_chain fst].
    rewrite stat_add_total_rules.
    destruct (decide (cn ∉ builtin_chains)) as [Hc|Hc].
    + rewrite (bool_decide_true _ Hc), stat_add_custom_chains,
        count_rules_spec, IH.
      rewrite length_cons. f_equal; lia.
    + rewrite (bool_decide_false _ Hc), count_rules_spec, IH. f_equal; lia.
Qed.

Lemma count_tables_spec (tbls : Tables) (tr tc tt a d r cc : Z) :
  fold_left count_table tbls (stats_map tr tc tt a d r cc)
  = let rules := mjoin (snd <$> all_chain_entries tbls) in
    stats_map (tr + Z.of_nat (length rules))
      (tc + Z.of_nat (length (all_chain_entries tbls))) tt
      (a + count_target "ACCEPT" rules) (d + count_target "DROP" rules)
      (r + count_target "REJECT" rules)
      (cc + Z.of_nat (length (filter (fun entry => entry.1 ∉ builtin_chains)
                                (all_chain_entries tbls)))).
Proof.
  cbv zeta. unfold all_chain_entries. revert tr tc a d r cc.
  induction tbls as [|[tn chains] tbls IH]; intros tr tc a d r cc.
  - unfold count_target. simpl. by rewrite !Z.add_0_r.
  - change (mjoin (snd <$> (tn, chains) :: tbls))
      with (chains ++ mjoin (snd <$> tbls)).
    cbn [fold_left count_table].
    rewrite stat_add_total_chains, count_chains_spec, IH. cbv zeta.
    rewrite fmap_app, join_app, filter_app, !count_target_app, !length_app.
    f_equal; lia.
Qed.

Lemma calculate_statistics_spec (tbls : Tables) :
  _calculate_statistics tbls = policy_statistics tbls.
Proof.
  unfold _calculate_statistics, policy_statistics.
  change ({[ "total_rules" := 0; "total_chains" := 0;
             "total_tables" := Z.of_nat (length tbls);
             "accept_rules" := 0; "drop_rules" := 0; "reject_rules" := 0;
             "custom_chains" := 0 ]} : gmap string Z)
    with (stats_map 0 0 (Z.of_nat (length tbls)) 0 0 0 0).
  rewrite count_tables_spec. cbv zeta. f_equal; lia.
Qed.

(** X10.  The statistics of an analysis are [policy_statistics]: the number of
    tables, of chains (a chain name counted once per table that has it)
    and of rules, the number of rules whose target is ACCEPT, DROP and
    REJECT, and the number of chains not named after a built-in chain;
    the three target counts never add up to more than the number of
    rules. *)
Theorem statistics_are_counts {L : IpLib} (cfg : FirewallConfig) :
  _calculate_statistics (tables cfg) = policy_statistics (tables cfg) /\
  (forall analysis,
     analyze_configuration (Some cfg) = Ok analysis ->
     statistics analysis = policy_statistics (tables cfg)) /\
  count_target "ACCEPT" (mjoin (snd <$> all_chain_entries (tables cfg)))
  + count_target "DROP" (mjoin (snd <$> all_chain_entries (tables cfg)))
  + count_target "REJECT" (mjoin (snd <$> all_chain_entries (tables cfg)))
  <= Z.of_nat (length (mjoin (snd <$> all_chain_entries (tables cfg)))).
Proof.
  split; [apply calculate_statistics_spec|]. split.
  - intros analysis Hrun. simpl in Hrun. unfold analyze_tables in Hrun.
    apply bind_Ok in Hrun as (r & _ & Hrun). injection Hrun as <-. simpl.
    apply calculate_statistics_spec.
  - induction (mjoin (snd <$> all_chain_entries (tables cfg)))
      as [|rule rules IH].
    + unfold count_target. simpl. lia.
    + rewrite !count_target_cons, length_cons.
      repeat case_bool_decide; try congruence; lia.
Qed.

Lemma statistics_are_counts_witness :
  exists analysis,
    analyze_configuration (L := ipv4_lib) (Some Scenario.duplicate_policy)
      = Ok analysis /\
    statistics analysis = policy_statistics (tables Scenario.duplicate_policy).
Proof.
  destruct (analyze_configuration (L := ipv4_lib)
              (Some Scenario.duplicate_policy)) as [analysis|e] eqn:Hrun;
    [|vm_compute in Hrun; discriminate].
  exists analysis. split; [reflexivity|].
  by apply (statistics_are_counts (L := ipv4_lib) Scenario.duplicate_policy).
Defined.

(** ** Merge candidates *)

Lemma pattern_class_snoc (pattern : merge_pattern) (rules : list FirewallRule)
    (rule : FirewallRule) :
  pattern_class pattern (rules ++ [rule]) =
  pattern_class pattern rules
  ++ (if decide (in_pattern pattern rule) then [rule] else []).
Proof.
  unfold pattern_class. by rewrite filter_app.
Qed.

Lemma group_append_map (keys : list merge_pattern)
    (G : merge_pattern -> list FirewallRule) (pattern : merge_pattern)
    (rule : FirewallRule) :
  NoDup keys ->
  group_append ((fun p => (p, G p)) <$> keys) pattern rule =
  ((fun p => (p, if decide (p = pattern) then G p ++ [rule] else G p)) <$> keys)
  ++ (if decide (pattern ∈ keys) then [] else [(pattern, [rule])]).
Proof.
  induction keys as [|k keys IH]; intros Hnd.
  - by rewrite decide_False by apply not_elem_of_nil.
  - apply NoDup_cons in Hnd as [Hk Hnd].
    rewrite !fmap_cons. cbn [group_append].
    destruct (decide (k = pattern)) as [->|Hne].
    + rewrite bool_decide_true by done.
      rewrite (decide_True (P := pattern ∈ pattern :: keys)) by left.
      rewrite app_nil_r. f_equal.
      apply list_fmap_ext. intros i p Hp.
      rewrite decide_False; [done|]. intros ->.
      apply Hk. by eapply list_elem_of_lookup_2.
    + rewrite bool_decide_false by done. rewrite (IH Hnd).
      rewrite <- app_comm_cons. f_equal.
      destruct (decide (pattern ∈ keys)) as [Hin|Hin].
      * by rewrite (decide_True (P := pattern ∈ k :: keys)) by (by right).
      * rewrite (decide_False (P := pattern ∈ k :: keys)); [done|].
        intros [->|H]%elem_of_cons; [done|contradiction].
Qed.

(** [pattern_groups] holds, for each pattern that some terminal rule
    has, the rules of that pattern, and nothing else. *)
Lemma pattern_groups_keys (rules : list FirewallRule) :
  exists keys,
    NoDup keys /\
    pattern_groups rules = (fun p => (p, pattern_class p rules)) <$> keys /\
    forall p, p ∈ keys <-> pattern_class p rules <> [].
Proof.
  unfold pattern_groups.
  induction rules as [|rule rules IH] using rev_ind.
  - exists []. split; [constructor|]. split; [done|].
    intros p. split; [intros H; by apply elem_of_nil in H | done].
  - destruct IH as (keys & Hnd & HPG & Hkeys).
    rewrite fold_left_app. cbn [fold_left]. rewrite HPG.
    destruct (is_terminal (target rule)) eqn:Ht; cbn [negb].
    + rewrite (group_append_map _ _ _ _ Hnd).
      assert (Hclass : forall p, pattern_class p (rules ++ [rule]) =
                (if decide (p = pattern_of rule)
                 then pattern_class p rules ++ [rule]
                 else pattern_class p rules)).
      { intros p. rewrite pattern_class_snoc.
        destruct (decide (p = pattern_of rule)) as [->|Hne].
        - by rewrite decide_True by done.
        - rewrite decide_False by (intros [_ H]; congruence).
          by rewrite app_nil_r. }
      destruct (decide (pattern_of rule ∈ keys)) as [Hin|Hin].
      * exists keys. split; [done|]. split.
        { rewrite app_nil_r. apply list_fmap_ext. intros i p _.
          by rewrite Hclass. }
        intros p. rewrite Hclass.
        destruct (decide (p = pattern_of rule)) as [->|Hne]; [|apply Hkeys].
        split; [|done]. intros _ H. by apply app_eq_nil in H as [_ H].
      * exists (keys ++ [pattern_of rule]). split.
        { apply NoDup_app. split; [done|]. split; [|apply NoDup_singleton].
          intros p Hp ->%list_elem_of_singleton. contradiction. }
        assert (pattern_class (pattern_of rule) rules = []) as Hempty.
        { destruct (pattern_class (pattern_of rule) rules) eqn:Hc; [done|].
          exfalso. apply Hin, Hkeys. by rewrite Hc. }
        split.
        { rewrite fmap_app. f_equal.
          - apply list_fmap_ext. intros i p _. by rewrite Hclass.
          - simpl. rewrite Hclass, decide_True by done. by rewrite Hempty. }
        intros p. rewrite elem_of_app, list_elem_of_singleton, Hclass.
        destruct (decide (p = pattern_of rule)) as [->|Hne].
        -- split; [|by right]. intros _ H. by apply app_eq_nil in H as [_ H].
        -- rewrite Hkeys. split; [intros [H|H]; [done|contradiction] | by left].
    + exists keys. split; [done|].
      assert (Hclass : forall p, pattern_class p (rules ++ [rule])
                                 = pattern_class p rules).
      { intros p. rewrite pattern_class_snoc.
        rewrite decide_False by (intros [H _]; congruence).
        by rewrite app_nil_r. }
      split.
      * apply list_fmap_ext. intros i p _. by rewrite Hclass.
      * intros p. by rewrite Hclass.
Qed.

Lemma pattern_groups_spec (rules : list FirewallRule) (p : merge_pattern)
    (g : list FirewallRule) :
  (p, g) ∈ pattern_groups rules <-> g = pattern_class p rules /\ g <> [].
Proof.
  destruct (pattern_groups_keys rules) as (keys & _ & -> & Hkeys).
  rewrite list_elem_of_fmap. split.
  - intros (p' & [= <- ->] & Hin). split; [done|]. by apply Hkeys.
  - intros [-> Hne]. exists p. split; [done|]. by apply Hkeys.
Qed.

Lemma size_list_to_set_le (l : list string) :
  (size (list_to_set l : gset string) <= length l)%nat /\
  (size (list_to_set l : gset string) = length l -> NoDup l).
Proof.
  induction l as [|x l [IHle IHnd]].
  - split; [by rewrite list_to_set_nil, size_empty|]. intros _. constructor.
  - rewrite list_to_set_cons, length_cons.
    destruct (decide (x ∈ l)) as [Hin|Hin].
    + rewrite (subseteq_union_1_L {[x]})
        by (by apply singleton_subseteq_l, elem_of_list_to_set).
      split; lia.
    + rewrite size_union, size_singleton
        by (by apply disjoint_singleton_l; rewrite elem_of_list_to_set).
      split; [lia|]. intros H. apply NoDup_cons. split; [done|].
      apply IHnd. lia.
Qed.

(** The truthy destination ports of a group, in order. *)
Lemma group_ports_spec (group_rules : list FirewallRule) :
  group_ports group_rules =
  list_to_set (omap (fun rule => if truthy (destination_port rule)
                                 then Some (or_empty (destination_port rule))
                                 else None) group_rules).
Proof.
  unfold group_ports.
  assert (forall acc : gset string,
    fold_left (fun (ports : gset string) rule =>
                 if truthy (destination_port rule)
                 then {[ or_empty (destination_port rule) ]} ∪ ports
                 else ports) group_rules acc
    = list_to_set (omap (fun rule => if truthy (destination_port rule)
                                     then Some (or_empty (destination_port rule))
                                     else None) group_rules) ∪ acc) as H.
  { induction group_rules as [|rule rules IH]; intros acc; simpl.
    - by rewrite union_empty_l_L.
    - rewrite IH. destruct (truthy (destination_port rule)); simpl; [|done].
      by rewrite (union_assoc_L _ {[ _ ]} acc), (union_comm_L _ {[ _ ]}). }
  by rewrite H, union_empty_r_L.
Qed.

Lemma group_ports_full (group_rules : list FirewallRule) :
  size (group_ports group_rules) = length group_rules <->
  Forall (fun rule => truthy (destination_port rule) = true) group_rules /\
  NoDup (destination_port <$> group_rules).
Proof.
  rewrite group_ports_spec.
  set (f := fun rule : FirewallRule =>
              if truthy (destination_port rule)
              then Some (or_empty (destination_port rule)) else None).
  assert (Hlen : (length (omap f group_rules) <= length group_rules)%nat /\
                 (length (omap f group_rules) = length group_rules ->
                  Forall (fun rule => truthy (destination_port rule) = true)
                    group_rules)).
  { induction group_rules as [|rule rules [IHle IHall]].
    - split; [done|]. intros _. constructor.
    - change (omap f (rule :: rules))
        with (match f rule with
              | Some y => y :: omap f rules
              | None => omap f rules
              end).
      rewrite length_cons.
      destruct (f rule) as [y|] eqn:Hf.
      + assert (truthy (destination_port rule) = true) as Ht.
        { unfold f in Hf. by destruct (truthy _). }
        rewrite length_cons. split; [lia|].
        intros H. constructor; [done|]. apply IHall. lia.
      + split; [lia|]. intros H. lia. }
  assert (Hmap : Forall (fun rule => truthy (destination_port rule) = true)
                   group_rules ->
                 destination_port <$> group_rules = Some <$> omap f group_rules).
  { clear Hlen. induction 1 as [|rule rules Ht _ IH]; [done|].
    change (omap f (rule :: rules))
      with (match f rule with
            | Some y => y :: omap f rules
            | None => omap f rules
            end).
    assert (f rule = Some (or_empty (destination_port rule))) as ->
      by (unfold f; by rewrite Ht).
    rewrite !fmap_cons, <- IH. f_equal.
    by destruct (destination_port rule). }
  destruct Hlen as [Hle Hall].
  destruct (size_list_to_set_le (omap f group_rules)) as [Hsle Hnd].
  split.
  - intros Hsize. assert (Forall (fun rule => truthy (destination_port rule) = true)
                            group_rules) as Ht by (apply Hall; lia).
    split; [done|]. rewrite (Hmap Ht).
    apply (NoDup_fmap_2 Some). apply Hnd. lia.
  - intros [Ht Hno]. rewrite (Hmap Ht) in Hno.
    apply (NoDup_fmap_1 Some) in Hno.
    rewrite (size_list_to_set _ Hno).
    apply (f_equal length) in Hmap; [|done].
    by rewrite !length_fmap in Hmap.
Qed.

Lemma find_mergeable_spec (rules : list FirewallRule) :
  _find_mergeable_rules rules =
  (filter (fun entry : merge_pattern * list FirewallRule =>
             mergeable entry.2) (pattern_groups rules)).*2.
Proof.
  unfold _find_mergeable_rules.
  assert (forall groups (acc : list (list FirewallRule)),
    fold_left (fun groups '(pattern, group_rules) =>
      if bool_decide (1 < length group_rules)%nat then
        let ports := group_ports group_rules in
        if bool_decide (size ports = length group_rules)
           && bool_decide (1 < size ports)%nat
        then groups ++ [group_rules] else groups
      else groups) groups acc
    = acc ++ (filter (fun entry : merge_pattern * list FirewallRule =>
                        mergeable entry.2) groups).*2) as H.
  { induction groups as [|[p g] groups IH]; intros acc; simpl.
    - by rewrite app_nil_r.
    - rewrite IH, filter_cons. simpl.
      destruct (decide (mergeable g)) as [(Hlen & Hm)|Hno].
      + apply group_ports_full in Hm.
        rewrite bool_decide_true by lia.
        rewrite (bool_decide_true _ Hm), bool_decide_true by lia.
        simpl. by rewrite <- app_assoc.
      + case_bool_decide as Hlen; [|done].
        case_bool_decide as Hsize; [|done]. simpl.
        exfalso. apply Hno. split; [lia|]. by apply group_ports_full. }
  by rewrite H.
Qed.

(** X11.  [_find_mergeable_rules] returns exactly the merge candidates among
    the pattern classes: a list of rules is one of its groups if and only
    if it consists of all the rules with a terminal target and one
    (protocol, target, source, in-interface, out-interface) pattern, in
    their order, has at least two rules, and each rule has a destination
    port that no other rule of the group has. *)
Theorem find_mergeable_characterised (rules group : list FirewallRule) :
  group ∈ _find_mergeable_rules rules <->
  exists pattern, group = pattern_class pattern rules /\ mergeable group.
Proof.
  rewrite find_mergeable_spec, list_elem_of_fmap.
  split.
  - intros ([p g] & -> & Hin). apply list_elem_of_filter in Hin as [Hm Hin].
    apply pattern_groups_spec in Hin as [Hg _]. by exists p.
  - intros (p & Hg & Hm). exists (p, group). split; [done|].
    apply list_elem_of_filter. split; [done|].
    apply pattern_groups_spec. split; [done|].
    intros ->. destruct Hm as [Hlen _]. simpl in Hlen. lia.
Qed.

(** ** Generating the plan *)

Lemma join_cons {A} (l : list A) (ls : list (list A)) :
  mjoin (l :: ls) = l ++ mjoin ls.
Proof. reflexivity. Qed.

Lemma join_singletons {A B} (f : A -> B) (l : list A) :
  mjoin ((fun x => [f x]) <$> l) = f <$> l.
Proof.
  induction l as [|x l IH]; [done|].
  by rewrite !fmap_cons, join_cons, IH.
Qed.

Lemma extend_plan_nil (plan : OptimizationPlan) : extend_plan plan [] = plan.
Proof. destruct plan. unfold extend_plan. simpl. by rewrite app_nil_r. Qed.

Lemma extend_plan_app (plan : OptimizationPlan) (recs1 recs2 : list Recommendation) :
  extend_plan (extend_plan plan recs1) recs2 = extend_plan plan (recs1 ++ recs2).
Proof. unfold extend_plan. simpl. by rewrite app_assoc. Qed.

Lemma add_recommendation_extend (plan : OptimizationPlan) (rec : Recommendation) :
  add_recommendation plan rec = extend_plan plan [rec].
Proof. reflexivity. Qed.

Lemma fold_left_extend {A} (step : OptimizationPlan -> A -> OptimizationPlan)
    (g : A -> list Recommendation) (xs : list A) (plan : OptimizationPlan) :
  (forall p x, x ∈ xs -> step p x = extend_plan p (g x)) ->
  fold_left step xs plan = extend_plan plan (mjoin (g <$> xs)).
Proof.
  revert plan. induction xs as [|x xs IH]; intros plan Hstep.
  - simpl. by rewrite extend_plan_nil.
  - simpl. rewrite (Hstep plan x) by left.
    rewrite IH by (intros p y Hy; apply Hstep; by right).
    by rewrite extend_plan_app.
Qed.

Lemma for_each_extend {A} (body : A -> OptimizationPlan -> res OptimizationPlan)
    (g : A -> list Recommendation) (xs : list A) (plan : OptimizationPlan) :
  (forall p x, x ∈ xs -> body x p = Ok (extend_plan p (g x))) ->
  for_each xs body plan = Ok (extend_plan plan (mjoin (g <$> xs))).
Proof.
  revert plan. induction xs as [|x xs IH]; intros plan Hbody.
  - simpl. by rewrite extend_plan_nil.
  - simpl. rewrite (Hbody plan x) by left. simpl.
    rewrite IH by (intros p y Hy; apply Hbody; by right).
    by rewrite extend_plan_app.
Qed.

Lemma for_each_raises {A S} (body : A -> S -> res S) (xs : list A) (s : S)
    (e : exn) :
  (forall x t e', body x t = Raise e' -> e' = e) ->
  (exists x, x ∈ xs /\ forall t, body x t = Raise e) ->
  for_each xs body s = Raise e.
Proof.
  intros Honly (x & Hx & Hraise). revert s.
  induction xs as [|y xs IH]; intros s; [by apply elem_of_nil in Hx|].
  simpl. destruct (body y s) as [s'|e'] eqn:Hy.
  - simpl. apply elem_of_cons in Hx as [->|Hx]; [|by apply IH].
    rewrite Hraise in Hy. discriminate.
  - simpl. by rewrite (Honly _ _ _ Hy).
Qed.

Lemma _handle_redundant_rules_spec (analysis : AnalysisResult)
    (plan : OptimizationPlan) :
  _handle_redundant_rules analysis plan =
  extend_plan plan (mjoin (redundant_recommendations
                             <$> get_issues_by_type analysis REDUNDANT)).
Proof.
  apply fold_left_extend. intros p issue _.
  unfold redundant_recommendations.
  destruct (affected_rules issue) as [|primary [|d ds]];
    try (by rewrite extend_plan_nil).
  rewrite (fold_left_extend _ (fun duplicate =>
             [redundant_delete_recommendation primary duplicate])) by done.
  by rewrite join_singletons.
Qed.

Lemma _handle_conflicting_rules_spec (analysis : AnalysisResult)
    (plan : OptimizationPlan) :
  _handle_conflicting_rules analysis plan =
  extend_plan plan (mjoin (conflict_recommendations
                             <$> get_issues_by_type analysis CONFLICTING)).
Proof.
  apply fold_left_extend. intros p issue _.
  unfold conflict_recommendations.
  by destruct (affected_rules issue) as [|rule1 [|rule2 l]];
    try (by rewrite extend_plan_nil).
Qed.

Lemma _handle_ordering_issues_spec (analysis : AnalysisResult)
    (plan : OptimizationPlan) :
  _handle_ordering_issues analysis plan =
  extend_plan plan (mjoin (reorder_recommendations
                             <$> get_issues_by_type analysis INEFFICIENT_ORDER)).
Proof.
  apply fold_left_extend. intros p issue _.
  unfold reorder_recommendations.
  by destruct (affected_rules issue) as [|rule1 [|rule2 l]];
    try (by rewrite extend_plan_nil).
Qed.

Lemma get_issues_by_type_elem (analysis : AnalysisResult) (t : IssueType)
    (issue : RuleIssue) :
  issue ∈ get_issues_by_type analysis t <->
  issue_type issue = t /\ issue ∈ issues analysis.
Proof. unfold get_issues_by_type. by rewrite list_elem_of_filter. Qed.

Lemma getitem_0 {A} (xs : list A) :
  getitem xs 0 = match xs with x :: _ => Ok x | [] => Raise IndexError end.
Proof. by destruct xs. Qed.

Lemma getitem_last_nonempty {A} (xs : list A) :
  xs <> [] -> exists x, last xs = Some x /\ getitem_last xs = Ok x.
Proof.
  intros Hne. unfold getitem_last.
  destruct (last xs) as [x|] eqn:Hl; [by exists x|].
  by apply last_None in Hl.
Qed.

Section Handlers.
Variable analysis : AnalysisResult.
Hypothesis Hev : evidence_present analysis.

Lemma _handle_unreachable_rules_spec (plan : OptimizationPlan) :
  _handle_unreachable_rules analysis plan =
  Ok (extend_plan plan (mjoin (unreachable_recommendations
                                 <$> get_issues_by_type analysis UNREACHABLE))).
Proof.
  apply for_each_extend. intros p issue Hin.
  apply get_issues_by_type_elem in Hin as [Ht Hin].
  destruct (getitem_last_nonempty (affected_rules issue)) as (r & Hl & Hg).
  { apply Hev; [done|]. by rewrite Ht. }
  unfold unreachable_recommendations. by rewrite Hg, Hl.
Qed.

Lemma _handle_security_issues_spec (plan : OptimizationPlan) :
  _handle_security_issues analysis plan =
  Ok (extend_plan plan
        (mjoin (security_recommendations
                  <$> get_issues_by_type analysis SECURITY_RISK)
         ++ mjoin (logging_recommendations
                     <$> get_issues_by_type analysis MISSING_LOG))).
Proof.
  unfold _handle_security_issues.
  rewrite (for_each_extend _ security_recommendations).
  - simpl. rewrite (for_each_extend _ logging_recommendations).
    + by rewrite extend_plan_app.
    + intros p issue Hin. apply get_issues_by_type_elem in Hin as [Ht Hin].
      rewrite getitem_0. unfold logging_recommendations.
      destruct (affected_rules issue) as [|rule l] eqn:Ha; [|done].
      exfalso. apply (Hev issue); [done| by rewrite Ht | done].
  - intros p issue Hin. apply get_issues_by_type_elem in Hin as [Ht Hin].
    rewrite getitem_0. unfold security_recommendations.
    destruct (affected_rules issue) as [|rule l] eqn:Ha.
    + exfalso. apply (Hev issue); [done| by rewrite Ht | done].
    + simpl. destruct (has_substring _ _); [done|by rewrite extend_plan_nil].
Qed.

Lemma _handle_permissive_rules_spec (plan : OptimizationPlan) :
  _handle_permissive_rules analysis plan =
  Ok (extend_plan plan (mjoin (permissive_recommendations
                                 <$> get_issues_by_type analysis
                                       OVERLY_PERMISSIVE))).
Proof.
  apply for_each_extend. intros p issue Hin.
  apply get_issues_by_type_elem in Hin as [Ht Hin].
  rewrite getitem_0. unfold permissive_recommendations.
  destruct (affected_rules issue) as [|rule l] eqn:Ha; [|done].
  exfalso. apply (Hev issue); [done| by rewrite Ht | done].
Qed.

End Handlers.

Lemma typed_recommendations (analysis : AnalysisResult) (t : IssueType)
    (g : RuleIssue -> list Recommendation) :
  (forall issue, issue_type issue = t -> issue_recommendations issue = g issue) ->
  mjoin (g <$> get_issues_by_type analysis t)
  = mjoin (issue_recommendations <$> get_issues_by_type analysis t).
Proof.
  intros Hg. f_equal. apply list_fmap_ext. intros i issue Hi.
  symmetry. apply Hg. apply list_elem_of_lookup_2 in Hi.
  by apply get_issues_by_type_elem in Hi as [Ht _].
Qed.

Lemma _check_default_policies_spec (tbls : Tables) (plan : OptimizationPlan) :
  _check_default_policies tbls plan
  = extend_plan plan (mjoin (table_default_proposals <$> tbls)).
Proof.
  apply fold_left_extend. intros p [tn chs] _.
  unfold table_default_proposals. simpl.
  case_bool_decide; [|by rewrite extend_plan_nil].
  assert (Hstep : forall q cn,
            default_policy_step tn chs q cn
            = extend_plan q (chain_default_proposals tn chs cn)).
  { intros q cn. unfold default_policy_step, chain_default_proposals.
    destruct (dict_get chs cn) as [rules|]; [|by rewrite extend_plan_nil].
    destruct (last rules) as [last_rule|]; [|by rewrite extend_plan_nil].
    by destruct (_ || _); [|rewrite extend_plan_nil]. }
  by rewrite !Hstep, !extend_plan_app, app_nil_r, app_assoc.
Qed.

Lemma _add_general_optimizations_spec (tbls : Tables) (plan : OptimizationPlan) :
  _add_general_optimizations tbls plan
  = extend_plan plan (general_recommendations tbls).
Proof.
  unfold _add_general_optimizations, general_recommendations.
  rewrite _check_default_policies_spec.
  rewrite (fold_left_extend _ (fun group => [merge_recommendation group])).
  - by rewrite extend_plan_app, join_singletons.
  - intros p group Hin. rewrite bool_decide_true; [done|].
    rewrite find_mergeable_spec in Hin.
    apply list_elem_of_fmap in Hin as ([pat g] & -> & Hin).
    apply list_elem_of_filter in Hin as [[Hlen _] _]. simpl in *. lia.
Qed.

Lemma generate_recommendations_spec (config : FirewallConfig)
    (analysis : AnalysisResult) :
  evidence_present analysis ->
  generate_recommendations config analysis =
  Ok {| recommendations :=
          sorted_by_priority (unsorted_recommendations config analysis);
        backup_required := true |}.
Proof.
  intros Hev. unfold generate_recommendations.
  rewrite _handle_redundant_rules_spec, _handle_conflicting_rules_spec,
    _handle_ordering_issues_spec.
  rewrite (_handle_unreachable_rules_spec _ Hev). simpl.
  rewrite (_handle_security_issues_spec _ Hev). simpl.
  rewrite (_handle_permissive_rules_spec _ Hev). simpl.
  rewrite _add_general_optimizations_spec.
  rewrite !extend_plan_app. simpl. f_equal. f_equal. f_equal.
  unfold unsorted_recommendations, issues_by_handler, handler_order.
  rewrite !fmap_cons, !join_cons, !fmap_app, !join_app. simpl.
  rewrite app_nil_r, <- !app_assoc.
  rewrite <- (typed_recommendations analysis REDUNDANT redundant_recommendations),
    <- (typed_recommendations analysis CONFLICTING conflict_recommendations),
    <- (typed_recommendations analysis INEFFICIENT_ORDER reorder_recommendations),
    <- (typed_recommendations analysis UNREACHABLE unreachable_recommendations),
    <- (typed_recommendations analysis SECURITY_RISK security_recommendations),
    <- (typed_recommendations analysis MISSING_LOG logging_recommendations),
    <- (typed_recommendations analysis OVERLY_PERMISSIVE permissive_recommendations);
    try (intros issue Ht; unfold issue_recommendations; by rewrite Ht).
  done.
Qed.

Lemma for_each_only {A S} (body : A -> S -> res S) (xs : list A) (s : S)
    (e e' : exn) :
  (forall x t e', body x t = Raise e' -> e' = e) ->
  for_each xs body s = Raise e' -> e' = e.
Proof.
  intros Honly. revert s. induction xs as [|x xs IH]; intros s; [done|].
  simpl. destruct (body x s) as [s'|e1] eqn:Hx; simpl.
  - apply IH.
  - intros [= <-]. by eapply Honly.
Qed.

Lemma getitem_raises {A} (xs : list A) (j : nat) (e : exn) :
  getitem xs j = Raise e -> e = IndexError.
Proof. unfold getitem. destruct (xs !! j); congruence. Qed.

Lemma getitem_last_raises {A} (xs : list A) (e : exn) :
  getitem_last xs = Raise e -> e = IndexError.
Proof. unfold getitem_last. destruct (last xs); congruence. Qed.

Ltac only_index_error :=
  let x := fresh "x" in let t := fresh "t" in
  let e' := fresh "e'" in let H := fresh "H" in
  let r := fresh "r" in let e1 := fresh "e1" in let Hg := fresh "Hg" in
  intros x t e' H;
  match type of H with
  | context [getitem ?xs ?j] =>
      destruct (getitem xs j) as [r|e1] eqn:Hg; simpl in H;
      [ repeat case_match; discriminate
      | injection H as <-; by eapply getitem_raises ]
  | context [getitem_last ?xs] =>
      destruct (getitem_last xs) as [r|e1] eqn:Hg; simpl in H;
      [ discriminate | injection H as <-; by eapply getitem_last_raises ]
  end.

Lemma generate_recommendations_raises (config : FirewallConfig)
    (analysis : AnalysisResult) (issue : RuleIssue) :
  issue ∈ issues analysis -> needs_evidence (issue_type issue) = true ->
  affected_rules issue = [] ->
  generate_recommendations config analysis = Raise IndexError.
Proof.
  intros Hin Hneeds Hempty. unfold generate_recommendations.
  set (p3 := _handle_ordering_issues _ _).
  destruct (_handle_unreachable_rules analysis p3) as [p4|e] eqn:H4; simpl.
  2: { f_equal. revert H4. apply for_each_only. only_index_error. }
  destruct (_handle_security_issues analysis p4) as [p5|e] eqn:H5; simpl.
  2: { f_equal. revert H5. unfold _handle_security_issues.
       destruct (for_each (get_issues_by_type analysis SECURITY_RISK) _ p4)
         as [q|e1] eqn:Hs; simpl.
       - apply for_each_only. only_index_error.
       - intros [= <-]. revert Hs. apply for_each_only. only_index_error. }
  destruct (_handle_permissive_rules analysis p5) as [p6|e] eqn:H6; simpl.
  2: { f_equal. revert H6. apply for_each_only. only_index_error. }
  exfalso.
  assert (Hbad : forall t, issue_type issue = t ->
                           issue ∈ get_issues_by_type analysis t).
  { intros t Ht. by apply get_issues_by_type_elem. }
  destruct (issue_type issue) eqn:Ht; try discriminate.
  - unfold _handle_unreachable_rules in H4.
    rewrite (for_each_raises _ _ _ IndexError) in H4; [discriminate| |].
    + only_index_error.
    + exists issue. split; [by apply Hbad|]. intros t. by rewrite Hempty.
  - unfold _handle_security_issues in H5.
    rewrite (for_each_raises _ _ _ IndexError) in H5; [discriminate| |].
    + only_index_error.
    + exists issue. split; [by apply Hbad|]. intros t. by rewrite Hempty.
  - unfold _handle_permissive_rules in H6.
    rewrite (for_each_raises _ _ _ IndexError) in H6; [discriminate| |].
    + only_index_error.
    + exists issue. split; [by apply Hbad|]. intros t. by rewrite Hempty.
  - unfold _handle_security_issues in H5.
    destruct (for_each (get_issues_by_type analysis SECURITY_RISK) _ p4)
      as [q|e1] eqn:Hs; simpl in H5; [|discriminate].
    rewrite (for_each_raises _ _ _ IndexError) in H5; [discriminate| |].
    + only_index_error.
    + exists issue. split; [by apply Hbad|]. intros t. by rewrite Hempty.
Qed.

Lemma evidence_present_dec (analysis : AnalysisResult) :
  evidence_present analysis \/
  exists issue, issue ∈ issues analysis /\
                needs_evidence (issue_type issue) = true /\
                affected_rules issue = [].
Proof.
  unfold evidence_present.
  induction (issues analysis) as [|issue l IH].
  - left. intros issue H. by apply elem_of_nil in H.
  - destruct IH as [IH|(bad & Hin & Hbad)].
    + destruct (needs_evidence (issue_type issue)) eqn:Hn.
      * destruct (affected_rules issue) as [|r rs] eqn:Ha.
        -- right. exists issue. split; [left|done].
        -- left. intros i [->|Hi]%elem_of_cons; [by rewrite Ha | by apply IH].
      * left. intros i [->|Hi]%elem_of_cons; [congruence | by apply IH].
    + right. exists bad. split; [by right|done].
Qed.

(** X12.  [generate_recommendations] returns exactly when every unreachable,
    security-risk, missing-log and overly-permissive issue names at least
    one rule, and raises IndexError otherwise (issues of the other types
    with fewer than two rules are passed over).  When it returns, the
    plan holds the handlers' recommendations, issue type after issue
    type, followed by the merge and default-policy proposals, sorted by
    priority; a backup is required. *)
Theorem generate_recommendations_characterised (config : FirewallConfig)
    (analysis : AnalysisResult) :
  (evidence_present analysis ->
   generate_recommendations config analysis =
   Ok {| recommendations :=
           sorted_by_priority (unsorted_recommendations config analysis);
         backup_required := true |}) /\
  (~ evidence_present analysis ->
   generate_recommendations config analysis = Raise IndexError).
Proof.
  split; [apply generate_recommendations_spec|].
  intros Hno.
  destruct (evidence_present_dec analysis)
    as [Hev|(issue & Hin & Hneeds & Hempty)]; [contradiction|].
  by eapply generate_recommendations_raises.
Qed.

Lemma generate_recommendations_characterised_witness :
  generate_recommendations Scenario.duplicate_policy
    (add_issue new_AnalysisResult
       {| issue_type := UNREACHABLE; severity := SEV_MEDIUM;
          description := ""; affected_rules := []; recommendation := "" |})
  = Raise IndexError.
Proof.
  apply (generate_recommendations_characterised Scenario.duplicate_policy).
  intros Hev. apply (Hev _ ltac:(left)); reflexivity.
Defined.

(** ** The order of the plan *)

Lemma Forall_insert_by_priority (P : Recommendation -> Prop)
    (rec : Recommendation) (sorted : list Recommendation) :
  P rec -> Forall P sorted -> Forall P (insert_by_priority rec sorted).
Proof.
  intros Hrec Hall. apply Forall_forall. intros x Hx.
  apply elem_of_insert_by_priority in Hx as [->|Hx]; [done|].
  by eapply (proj1 (Forall_forall _ _)).
Qed.

Lemma insert_by_priority_descending (rec : Recommendation)
    (sorted : list Recommendation) :
  descending sorted -> descending (insert_by_priority rec sorted).
Proof.
  induction sorted as [|r sorted IH]; intros Hd.
  - simpl. split; [constructor|done].
  - destruct Hd as [Hall Hd]. cbn [insert_by_priority].
    destruct (priority_value (priority rec) <? priority_value (priority r))
      eqn:Hlt.
    + apply Z.ltb_lt in Hlt. split; [|by apply IH].
      apply Forall_insert_by_priority; [lia|done].
    + apply Z.ltb_ge in Hlt. split; [|by split].
      constructor; [done|].
      eapply Forall_impl; [exact Hall|]. simpl. intros x Hx. lia.
Qed.

Lemma sorted_by_priority_descending (recs : list Recommendation) :
  descending (sorted_by_priority recs).
Proof.
  unfold sorted_by_priority. induction recs as [|rec recs IH]; [done|].
  simpl. by apply insert_by_priority_descending.
Qed.

Lemma descending_lookup (recs : list Recommendation) (i j : nat)
    (a b : Recommendation) :
  descending recs -> (i < j)%nat -> recs !! i = Some a -> recs !! j = Some b ->
  priority_value (priority b) <= priority_value (priority a).
Proof.
  revert i j. induction recs as [|r recs IH]; intros i j Hd Hlt Hi Hj;
    [done|].
  destruct Hd as [Hall Hd].
  destruct j as [|j]; [lia|]. simpl in Hj.
  destruct i as [|i].
  - injection Hi as <-.
    apply (proj1 (Forall_forall _ _) Hall). by eapply list_elem_of_lookup_2.
  - simpl in Hi. apply (IH i j); [done|lia|done..].
Qed.

Lemma filter_insert_by_priority (p : RecommendationPriority)
    (rec : Recommendation) (sorted : list Recommendation) :
  filter (fun r => priority r = p) (insert_by_priority rec sorted) =
  filter (fun r => priority r = p) (rec :: sorted).
Proof.
  induction sorted as [|r sorted IH]; [done|].
  cbn [insert_by_priority].
  destruct (priority_value (priority rec) <? priority_value (priority r))
    eqn:Hlt; [|done].
  apply Z.ltb_lt in Hlt.
  rewrite (filter_cons _ r), IH, !(filter_cons _ rec), (filter_cons _ r).
  destruct (decide (priority rec = p)) as [Hrec|Hrec]; [|done].
  destruct (decide (priority r = p)) as [Hr|Hr]; [|done].
  rewrite Hrec, Hr in Hlt. lia.
Qed.

Lemma filter_sorted_by_priority (p : RecommendationPriority)
    (recs : list Recommendation) :
  filter (fun r => priority r = p) (sorted_by_priority recs) =
  filter (fun r => priority r = p) recs.
Proof.
  unfold sorted_by_priority. induction recs as [|rec recs IH]; [done|].
  simpl. rewrite filter_insert_by_priority, !filter_cons, IH. done.
Qed.



Lemma generate_recommendations_Ok (config : FirewallConfig)
    (analysis : AnalysisResult) (plan : OptimizationPlan) :
  generate_recommendations config analysis = Ok plan ->
  plan = {| recommendations :=
              sorted_by_priority (unsorted_recommendations config analysis);
            backup_required := true |}.
Proof.
  intros Hrun.
  destruct (evidence_present_dec analysis)
    as [Hev|(issue & Hin & Hneeds & Hempty)].
  - rewrite (generate_recommendations_spec _ _ Hev) in Hrun. congruence.
  - rewrite (generate_recommendations_raises _ _ _ Hin Hneeds Hempty) in Hrun.
    discriminate.
Qed.

(** X13.  A generated plan lists its recommendations by priority, highest
    first, and the recommendations of one priority stand in the order in
    which they were generated: [get_by_priority] returns them as the
    handlers produced them. *)
Theorem plan_is_sorted_and_stable (config : FirewallConfig)
    (analysis : AnalysisResult) (plan : OptimizationPlan) :
  generate_recommendations config analysis = Ok plan ->
  (forall i j a b,
     (i < j)%nat -> recommendations plan !! i = Some a ->
     recommendations plan !! j = Some b ->
     priority_value (priority b) <= priority_value (priority a)) /\
  (forall p, get_by_priority plan p =
             filter (fun rec => priority rec = p)
               (unsorted_recommendations config analysis)) /\
  (forall rec, rec ∈ recommendations plan <->
               rec ∈ unsorted_recommendations config analysis).
Proof.
  intros Hrun. apply generate_recommendations_Ok in Hrun as ->. simpl.
  split; [|split].
  - intros i j a b. apply descending_lookup, sorted_by_priority_descending.
  - intros p. unfold get_by_priority. simpl. apply filter_sorted_by_priority.
  - intros rec. apply elem_of_sorted_by_priority.
Qed.

Lemma plan_is_sorted_and_stable_witness :
  exists analysis plan,
    analyze_configuration (Some Scenario.duplicate_policy) = Ok analysis /\
    generate_recommendations Scenario.duplicate_policy analysis = Ok plan /\
    (priority <$> recommendations plan) =
      [PRIO_HIGH; PRIO_HIGH; PRIO_HIGH; PRIO_HIGH; PRIO_MEDIUM; PRIO_MEDIUM;
       PRIO_LOW] /\
    (forall i j a b,
       (i < j)%nat ->
       recommendations plan !! i = Some a ->
       recommendations plan !! j = Some b ->
       priority_value (priority b) <= priority_value (priority a)) /\
    (forall p,
       get_by_priority plan p =
         filter (fun rec => priority rec = p)
           (unsorted_recommendations Scenario.duplicate_policy analysis)) /\
    (forall rec,
       rec ∈ recommendations plan <->
       rec ∈ unsorted_recommendations Scenario.duplicate_policy analysis).
Proof.
  destruct (analyze_configuration (L := ipv4_lib)
              (Some Scenario.duplicate_policy)) as [analysis|e] eqn:Hrun;
    [|vm_compute in Hrun; discriminate].
  destruct (generate_recommendations Scenario.duplicate_policy analysis)
    as [plan|e] eqn:Hplan;
    [|vm_compute in Hrun; injection Hrun as <-;
      vm_compute in Hplan; discriminate].
  exists analysis, plan. split; [reflexivity|]. split; [exact Hplan|].
  split; [|exact (plan_is_sorted_and_stable _ _ _ Hplan)].
  vm_compute in Hrun. injection Hrun as <-.
  vm_compute in Hplan. injection Hplan as <-.
  vm_compute. reflexivity.
Defined.

(** ** From the analysis to the plan *)

Section Findings.
Context {L : IpLib}.

Lemma chain_findings_analyzer (rules : list FirewallRule) (issue : RuleIssue) :
  issue ∈ chain_findings rules -> analyzer_issue issue.
Proof.
  unfold chain_findings, analyzer_issue. rewrite !elem_of_app.
  intros [H|[H|[H|[H|[H|H]]]]].
  - left. unfold redundant_findings in H.
    apply list_elem_of_omap in H as ([i R] & _ & H).
    destruct (first_same_signature (take i rules) R) as [E|]; [|done].
    injection H as <-. by exists E, R.
  - right; left. apply conflict_findings_elem in H
      as (i & j & rule1 & rule2 & _ & _ & _ & _ & ->). by exists rule1, rule2.
  - do 2 right; left. apply ordering_findings_elem in H
      as (j & i & E & R & _ & _ & _ & _ & _ & ->). by exists E, R.
  - do 3 right; left. unfold unreachable_findings in H.
    apply list_elem_of_omap in H as ([i R] & _ & H).
    destruct (first_cover (take i rules) R) as [E|]; [|done].
    injection H as <-. by exists E, R.
  - unfold security_findings in H.
    apply list_elem_of_join in H as (l & H & Hl).
    apply list_elem_of_fmap in Hl as (rule & -> & _).
    unfold security_findings_of in H. apply elem_of_app in H as [H|H].
    + do 4 right; left. destruct (is_admin_port_rule rule);
        [|by apply elem_of_nil in H].
      apply list_elem_of_singleton in H as ->. by exists rule.
    + do 5 right; left. destruct (is_unlogged_drop rule);
        [|by apply elem_of_nil in H].
      apply list_elem_of_singleton in H as ->. by exists rule.
  - do 6 right. unfold permissive_findings in H.
    apply list_elem_of_fmap in H as (rule & -> & _). by exists rule.
Qed.

Lemma policy_findings_analyzer (tbls : Tables) (issue : RuleIssue) :
  issue ∈ policy_findings tbls -> analyzer_issue issue.
Proof.
  unfold policy_findings. intros H.
  apply list_elem_of_join in H as (l & H & Hl).
  apply list_elem_of_fmap in Hl as (rules & -> & _).
  by eapply chain_findings_analyzer.
Qed.

End Findings.



Lemma issues_by_handler_elem (analysis : AnalysisResult) (issue : RuleIssue) :
  issue ∈ issues_by_handler analysis -> issue ∈ issues analysis.
Proof.
  unfold issues_by_handler. intros H.
  apply list_elem_of_join in H as (l & H & Hl).
  apply list_elem_of_fmap in Hl as (t & -> & _).
  by apply get_issues_by_type_elem in H as [_ H].
Qed.




(** ** Applying single recommendations *)

Lemma lookup_chain_path (h : store) (config : FirewallConfigRef)
    (tn cn : string) (tes ces : list (string * loc)) (d l : loc)
    (rules : list FirewallRule) :
  h !! tables_ref config = Some (ODict tes) -> dict_get tes tn = Some d ->
  h !! d = Some (ODict ces) -> dict_get ces cn = Some l ->
  h !! l = Some (OList rules) ->
  lookup_chain h config tn cn = Some rules.
Proof.
  intros Ht Hd Hces Hl Hrules. unfold lookup_chain.
  rewrite (proj2 (get_dict_Ok _ _ _) Ht), Hd,
    (proj2 (get_dict_Ok _ _ _) Hces), Hl.
  by rewrite (proj2 (get_list_Ok _ _ _) Hrules).
Qed.

Lemma lookup_chain_no_table (h : store) (config : FirewallConfigRef)
    (tn cn : string) (tes : list (string * loc)) :
  h !! tables_ref config = Some (ODict tes) -> dict_get tes tn = None ->
  lookup_chain h config tn cn = None.
Proof.
  intros Ht Hd. unfold lookup_chain.
  by rewrite (proj2 (get_dict_Ok _ _ _) Ht), Hd.
Qed.

Lemma lookup_chain_no_chain (h : store) (config : FirewallConfigRef)
    (tn cn : string) (tes ces : list (string * loc)) (d : loc) :
  h !! tables_ref config = Some (ODict tes) -> dict_get tes tn = Some d ->
  h !! d = Some (ODict ces) -> dict_get ces cn = None ->
  lookup_chain h config tn cn = None.
Proof.
  intros Ht Hd Hces Hl. unfold lookup_chain.
  by rewrite (proj2 (get_dict_Ok _ _ _) Ht), Hd,
    (proj2 (get_dict_Ok _ _ _) Hces), Hl.
Qed.

Lemma dict_get_new_key {V} (d : list (string * V)) (k : string) (v w : V) :
  dict_get d k = None -> dict_get (d ++ [(k, v)]) k = Some w -> w = v.
Proof.
  intros Hnone. rewrite dict_get_app, Hnone. simpl.
  rewrite bool_decide_true by done. congruence.
Qed.

(** X15.  [add_rule] on a well-formed policy raises nothing and leaves the new
    rule at the end of its chain: the chain named by the rule's table
    and chain then holds what it held before (nothing, if the table or
    the chain was not there) followed by the new rule. *)
Theorem add_rule_appends (h : store) (config : FirewallConfigRef)
    (new_rule : FirewallRule) :
  wf_config h config ->
  exists h',
    add_rule config new_rule h = Ok h' /\ wf_config h' config /\
    lookup_chain h' config (table new_rule) (chain new_rule)
    = Some (default [] (lookup_chain h config (table new_rule) (chain new_rule))
            ++ [new_rule]).
Proof.
  intros Hwf. unfold add_rule.
  pose proof Hwf as (tes & Ht & Hall).
  rewrite (proj2 (get_dict_Ok _ _ _) Ht). simpl.
  destruct (ensure_key h (tables_ref config) tes (table new_rule) (ODict []) Ht)
    as (hA & tesA & dA & -> & HtA & HdA & HcaseA).
  simpl.
  assert (wf_config hA config) as HwfA.
  { destruct HcaseA as [->|[Hnone ->]]; [done|]. by apply wf_tables_add_table. }
  rewrite (proj2 (get_dict_Ok _ _ _) HtA). simpl.
  unfold dict_getitem. rewrite HdA. simpl.
  pose proof (dict_get_elem _ _ _ HdA) as HdAin.
  pose proof HwfA as (tesA' & HtA' & HallA).
  rewrite HtA in HtA'. injection HtA' as <-.
  pose proof (HallA _ _ HdAin) as HwfdA.
  pose proof (wf_child_not_tables _ _ _ _ _ HtA HdAin HwfdA) as HneA.
  destruct HwfdA as (ces & Hces & Hlists).
  rewrite (proj2 (get_dict_Ok _ _ _) Hces). simpl.
  destruct (ensure_key hA dA ces (chain new_rule) (OList []) Hces)
    as (hB & cesB & lB & -> & HcesB & HlB & HcaseB).
  simpl.
  assert (wf_config hB config /\
          hB !! tables_ref config = Some (ODict tesA)) as (HwfB & HtB).
  { destruct HcaseB as [->|[Hnone ->]]; [done|]. split.
    - by eapply wf_tables_add_chain.
    - rewrite list_lookup_insert_ne by done.
      rewrite lookup_app_l; [done|]. by eapply lookup_lt_Some. }
  rewrite (proj2 (get_dict_Ok _ _ _) HcesB). simpl.
  unfold dict_getitem. rewrite HlB. simpl.
  pose proof (dict_get_elem _ _ _ HlB) as HlBin.
  pose proof HwfB as (tesB' & HtB' & HallB).
  rewrite HtB in HtB'. injection HtB' as <-.
  destruct (HallB _ _ HdAin) as (cesB' & HcesB' & HlistsB).
  rewrite HcesB in HcesB'. injection HcesB' as <-.
  destruct (HlistsB _ _ HlBin) as [rules Hrules].
  rewrite (proj2 (get_list_Ok _ _ _) Hrules). simpl.
  eexists. split; [reflexivity|]. split.
  { by eapply wf_tables_update_list. }
  pose proof (lookup_lt_Some _ _ _ Hrules) as HltB.
  assert (lookup_chain (<[lB := OList (rules ++ [new_rule])]> hB) config
            (table new_rule) (chain new_rule) = Some (rules ++ [new_rule])) as ->.
  { apply (lookup_chain_path _ _ _ _ tesA cesB dA lB); [|done| |done|].
    - rewrite list_lookup_insert_ne; [done|]. congruence.
    - rewrite list_lookup_insert_ne; [done|]. congruence.
    - by apply list_lookup_insert_eq. }
  f_equal. f_equal.
  destruct HcaseA as [->|[HnoneA ->]].
  - (* the table was there *)
    rewrite Ht in HtA. injection HtA as <-.
    destruct HcaseB as [->|[HnoneB ->]].
    + rewrite Hces in HcesB. injection HcesB as <-.
      by rewrite (lookup_chain_path _ _ _ _ _ _ _ _ _ Ht HdA Hces HlB Hrules).
    + rewrite (lookup_chain_no_chain _ _ _ _ _ _ _ Ht HdA Hces HnoneB). simpl.
      pose proof (lookup_lt_Some _ _ _ Hces) as HltA.
      rewrite list_lookup_insert_eq in HcesB by (rewrite length_app; lia).
      injection HcesB as <-.
      apply (dict_get_new_key _ _ _ _ HnoneB) in HlB. subst lB.
      rewrite list_lookup_insert_ne in Hrules by lia.
      rewrite list_lookup_middle in Hrules by done. congruence.
  - (* the table is new *)
    rewrite (lookup_chain_no_table _ _ _ _ _ Ht HnoneA). simpl.
    pose proof (lookup_lt_Some _ _ _ Ht) as Hlt.
    rewrite list_lookup_insert_eq in HtA by (rewrite length_app; lia).
    injection HtA as <-.
    apply (dict_get_new_key _ _ _ _ HnoneA) in HdA. subst dA.
    rewrite list_lookup_insert_ne in Hces by lia.
    rewrite list_lookup_middle in Hces by done. injection Hces as <-.
    destruct HcaseB as [->|[HnoneB ->]].
    + rewrite list_lookup_insert_ne in HcesB by lia.
      rewrite list_lookup_middle in HcesB by done. injection HcesB as <-.
      discriminate.
    + rewrite list_lookup_insert_eq in HcesB
        by (rewrite ?length_app, ?length_insert, ?length_app; simpl; lia).
      injection HcesB as <-.
      apply (dict_get_new_key _ _ _ _ HnoneB) in HlB. subst lB.
      rewrite list_lookup_insert_ne in Hrules
        by (rewrite ?length_app, ?length_insert, ?length_app; simpl; lia).
      rewrite list_lookup_middle in Hrules by done. congruence.
Qed.

Lemma add_rule_appends_witness :
  exists h',
    add_rule StoredScenario.config Scenario.drop3
      (StoredScenario.store_of [Scenario.ssh1; Scenario.ssh2]) = Ok h' /\
    lookup_chain h' StoredScenario.config "filter" "INPUT"
    = Some [Scenario.ssh1; Scenario.ssh2; Scenario.drop3].
Proof.
  destruct (add_rule_appends
              (StoredScenario.store_of [Scenario.ssh1; Scenario.ssh2])
              StoredScenario.config Scenario.drop3 (stored_scenario_wf _))
    as (h' & Hrun & _ & Hlook).
  exists h'. split; [exact Hrun|exact Hlook].
Defined.

(** X16.  A delete recommendation on a well-formed policy raises nothing and
    only takes rules out of lists.  When no rule occurs twice within a
    table, none of the rules it names is left in any chain afterwards;
    when none of them is in the policy to begin with, the store stays as
    it is. *)
Theorem delete_recommendation_removes (h : store) (config : FirewallConfigRef)
    (rec : Recommendation) :
  wf_config h config ->
  (exists h', _apply_delete_recommendation config rec h = Ok h' /\
              shrinks h h' /\ wf_config h' config) /\
  (distinct_rules h config ->
   exists h', _apply_delete_recommendation config rec h = Ok h' /\
              forall rule, rule ∈ rec_affected_rules rec ->
                           rule_absent h' config rule) /\
  ((forall rule, rule ∈ rec_affected_rules rec -> rule_absent h config rule) ->
   _apply_delete_recommendation config rec h = Ok h).
Proof.
  intros Hwf. unfold _apply_delete_recommendation. split; [|split].
  - generalize (rec_affected_rules rec). intros rules. revert h Hwf.
    induction rules as [|r rules IH]; intros h Hwf.
    + exists h. split; [done|]. split; [apply shrinks_refl|done].
    + destruct (delete_rule_total config r h Hwf) as [h1 H1].
      pose proof (delete_rule_shrinks _ _ _ _ H1) as Hsh1.
      destruct (IH h1 (shrinks_wf_config _ _ _ Hsh1 Hwf)) as (h' & Hrun & Hsh & Hwf').
      exists h'. simpl. rewrite H1. simpl. split; [done|].
      split; [by eapply shrinks_trans|done].
  - intros Hnd.
    destruct (delete_rules_run config (rec_affected_rules rec) h Hwf Hnd)
      as (h' & Hrun & _ & Habs).
    by exists h'.
  - by apply delete_rules_absent.
Qed.

Lemma delete_recommendation_removes_witness :
  exists h',
    _apply_delete_recommendation StoredScenario.config
      (unreachable_delete_recommendation Scenario.ssh2)
      (StoredScenario.store_of [Scenario.ssh1; Scenario.ssh2; Scenario.drop3])
    = Ok h' /\
    rule_absent h' StoredScenario.config Scenario.ssh2.
Proof.
  destruct (delete_recommendation_removes
              (StoredScenario.store_of
                 [Scenario.ssh1; Scenario.ssh2; Scenario.drop3])
              StoredScenario.config
              (unreachable_delete_recommendation Scenario.ssh2)
              (stored_scenario_wf _)) as (_ & Hgone & _).
  destruct Hgone as (h' & Hrun & Habs).
  - apply stored_scenario_distinct.
    repeat (apply NoDup_cons; split;
            [rewrite ?elem_of_cons, elem_of_nil; intros H;
             repeat destruct H as [H|H]; discriminate H || done|]).
    apply NoDup_nil_2.
  - exists h'. split; [exact Hrun|]. apply Habs. left.
Defined.

(** ** Plans that change nothing *)

Lemma copied_chain_rules (h0 h : store) (memo : gmap nat nat)
    (ces ces' : list (string * loc)) :
  copy_inv h0 h memo -> Forall2 (entry_copied memo) ces ces' ->
  (forall cn l, (cn, l) ∈ ces -> is_list h0 l) ->
  chain_rules h ces' = chain_rules h0 ces.
Proof.
  intros Hinv Hf. unfold chain_rules.
  induction Hf as [|[cn l] [cn' l'] ces ces' [_ Hl] _ IH]; intros Hlists;
    [done|].
  simpl in Hl. rewrite !fmap_cons. simpl.
  rewrite IH by (intros cn0 l0 Hin; eapply Hlists; by right).
  f_equal. destruct (Hlists cn l) as [rules Hrules]; [by left|].
  unfold rules_at. by rewrite Hrules, (copied_list _ _ _ _ _ _ Hinv Hl Hrules).
Qed.

Lemma copied_rule_absent (h0 h : store) (memo : gmap nat nat)
    (config config' : FirewallConfigRef) (rule : FirewallRule) :
  copy_inv h0 h memo ->
  memo !! tables_ref config = Some (tables_ref config') ->
  wf_config h0 config -> rule_absent h0 config rule ->
  rule_absent h config' rule.
Proof.
  intros Hinv Hm (tes & Ht & Hall) Habs tes' tn d' Ht' Hin.
  destruct (copied_dict _ _ _ _ _ _ Hinv Hm Ht) as (tes2 & Ht2 & Hf).
  rewrite Ht' in Ht2. injection Ht2 as <-.
  apply list_elem_of_lookup in Hin as [i Hi].
  destruct (Forall2_lookup_r _ _ _ _ _ Hf Hi) as ([tn0 d] & Hi0 & _ & Hd).
  simpl in Hd. apply list_elem_of_lookup_2 in Hi0.
  destruct (Hall tn0 d Hi0) as (ces & Hces & Hlists).
  destruct (copied_dict _ _ _ _ _ _ Hinv Hd Hces) as (ces' & Hces' & Hfc).
  unfold table_rules. rewrite Hces'.
  rewrite (copied_chain_rules _ _ _ _ _ Hinv Hfc Hlists).
  specialize (Habs tes tn0 d Ht Hi0). unfold table_rules in Habs.
  by rewrite Hces in Habs.
Qed.

(** X17.  A plan that has no add-rule recommendation and whose delete-rule
    recommendations name only rules that are in no chain of the policy
    (a plan of reorder, merge, modify, logging and restrict-source
    recommendations, for one) yields an exact copy: every chain of the
    returned policy holds the rules the same chain of the original
    holds. *)
Theorem idle_plan_copies (h : store) (original_config : FirewallConfigRef)
    (plan : OptimizationPlan) :
  wf_config h original_config ->
  (forall rec, rec ∈ recommendations plan -> rec_type rec <> ADD_RULE) ->
  (forall rec rule,
     rec ∈ recommendations plan -> rec_type rec = DELETE_RULE ->
     rule ∈ rec_affected_rules rec -> rule_absent h original_config rule) ->
  exists optimized_config h',
    generate_optimized_config original_config plan h
      = Ok (optimized_config, h') /\
    forall tn cn, lookup_chain h' optimized_config tn cn
                  = lookup_chain h original_config tn cn.
Proof.
  intros Hwf Hno Habs.
  destruct (deepcopy_spec h original_config Hwf)
    as (config' & h1 & memo & Hcopy & Hinv & Hm & _ & _).
  pose proof (copied_wf_tables _ _ _ _ _ Hinv Hm Hwf) as Hwf1.
  exists config', h1. split.
  - unfold generate_optimized_config. rewrite Hcopy. simpl.
    rewrite recommendations_absent; [done|exact Hwf1| |].
    + intros rec Hin. apply Hno. by apply elem_of_sorted_by_priority.
    + intros rec rule Hin Hdel Hr.
      apply (copied_rule_absent h h1 memo original_config); [done..|].
      apply (Habs rec); [|done..]. by apply elem_of_sorted_by_priority.
  - intros tn cn. by apply (copied_lookup_chain h h1 memo).
Qed.

Lemma idle_plan_copies_witness :
  exists optimized_config h',
    generate_optimized_config StoredScenario.config
      (StoredScenario.plan_of
         [restrict_source_recommendation Scenario.ssh1;
          unreachable_delete_recommendation Scenario.web3])
      (StoredScenario.store_of [Scenario.ssh1; Scenario.ssh2; Scenario.drop3])
      = Ok (optimized_config, h') /\
    lookup_chain h' optimized_config "filter" "INPUT"
    = Some [Scenario.ssh1; Scenario.ssh2; Scenario.drop3].
Proof.
  destruct (idle_plan_copies
              (StoredScenario.store_of
                 [Scenario.ssh1; Scenario.ssh2; Scenario.drop3])
              StoredScenario.config
              (StoredScenario.plan_of
                 [restrict_source_recommendation Scenario.ssh1;
                  unreachable_delete_recommendation Scenario.web3])
              (stored_scenario_wf _))
    as (optimized_config & h' & Hrun & Hsame).
  - intros rec Hin.
    repeat (apply elem_of_cons in Hin as [->|Hin]); try discriminate.
    by apply elem_of_nil in Hin.
  - intros rec rule Hin Hdel Hr tes tn d Ht Htn.
    repeat (apply elem_of_cons in Hin as [->|Hin]); try discriminate;
      [|by apply elem_of_nil in Hin].
    apply list_elem_of_singleton in Hr as ->.
    injection Ht as <-. apply list_elem_of_singleton in Htn.
    injection Htn as -> ->.
    unfold table_rules, chain_rules, rules_at. simpl.
    rewrite !elem_of_cons, elem_of_nil.
    intros H. repeat destruct H as [H|H]; discriminate H || done.
  - exists optimized_config, h'. split; [exact Hrun|]. apply Hsame.
Defined.

(** ** Rules that are always reported *)

Section AlwaysReported.
Context {L : IpLib}.

Lemma catch_all_covers (E R : FirewallRule) :
  catch_all E -> _rule_covers_completely E R = Ok true.
Proof.
  intros Hall. unfold _rule_covers_completely.
  induction same_traffic_criteria as [|c cs IH]; [done|].
  simpl. rewrite (Hall c). by destruct c.
Qed.

Lemma first_cover_exists (earlier : list FirewallRule) (R E : FirewallRule) :
  E ∈ earlier -> covers_and_terminal R E = true ->
  is_Some (first_cover earlier R).
Proof.
  intros Hin Hc. unfold first_cover.
  destruct (list_find_elem_of (fun E => covers_and_terminal R E = true)
              earlier E Hin Hc) as [[j y] ->].
  by eexists.
Qed.

Lemma enumerate_lookup {A} (xs : list A) (i : nat) (x : A) :
  xs !! i = Some x -> (i, x) ∈ enumerate xs.
Proof.
  intros Hi. unfold enumerate. apply list_elem_of_lookup. exists i.
  apply lookup_zip_with_Some. exists i, x. split; [done|]. split; [|done].
  apply lookup_seq. split; [done|]. by eapply lookup_lt_Some.
Qed.

End AlwaysReported.

(** X18.  Every rule that stands after a terminal rule without match criteria
    is reported unreachable: the affected-rules list of some unreachable
    finding of the chain ends with it. *)
Theorem rules_after_catch_all_unreachable {L : IpLib}
    (rules : list FirewallRule) (result result' : AnalysisResult)
    (j i : nat) (E R : FirewallRule) :
  _check_unreachable_rules rules result = Ok result' ->
  rules !! j = Some E -> rules !! i = Some R -> (j < i)%nat ->
  catch_all E -> is_terminal (target E) = true ->
  exists E', unreachable_issue E' R ∈ issues result'.
Proof.
  intros Hrun Hj Hi Hlt Hall Hterm.
  rewrite (check_unreachable_from rules [] rules _ _ eq_refl Hrun).
  change (omap _ (zip (seq (length []) (length rules)) rules))
    with (unreachable_findings rules).
  setoid_rewrite elem_of_app.
  destruct (first_cover_exists (take i rules) R E) as [E' HE'].
  - apply list_elem_of_lookup. exists j. by rewrite lookup_take_lt.
  - unfold covers_and_terminal. by rewrite catch_all_covers, Hterm.
  - exists E'. right. unfold unreachable_findings. apply list_elem_of_omap.
    exists (i, R). split; [by apply enumerate_lookup|]. by rewrite HE'.
Qed.

Lemma rules_after_catch_all_unreachable_witness :
  exists result' E',
    _check_unreachable_rules (L := ipv4_lib) Scenario.shadowed_chain
      new_AnalysisResult = Ok result' /\
    unreachable_issue E' Scenario.web3 ∈ issues result'.
Proof.
  destruct (_check_unreachable_rules (L := ipv4_lib) Scenario.shadowed_chain
              new_AnalysisResult) as [result'|e] eqn:Hrun;
    [|vm_compute in Hrun; discriminate].
  destruct (rules_after_catch_all_unreachable (L := ipv4_lib)
              Scenario.shadowed_chain new_AnalysisResult result'
              1 2 Scenario.drop2 Scenario.web3 Hrun)
    as [E' HE']; [reflexivity | reflexivity | lia | | reflexivity |].
  - intros c. by destruct c.
  - by exists result', E'.
Defined.

Lemma same_signature_fields_signature (rule1 rule2 : FirewallRule) :
  same_signature_fields rule1 rule2 ->
  _create_rule_signature rule1 = _create_rule_signature rule2.
Proof.
  intros (Hc & Ht & Hs & Hf). unfold _create_rule_signature.
  rewrite Hc, Ht, Hs.
  pose proof (Hf c_protocol) as H1. pose proof (Hf c_source_ip) as H2.
  pose proof (Hf c_destination_ip) as H3. pose proof (Hf c_source_port) as H4.
  pose proof (Hf c_destination_port) as H5.
  pose proof (Hf c_interface_in) as H6. pose proof (Hf c_interface_out) as H7.
  simpl in *. by rewrite H1, H2, H3, H4, H5, H6, H7.
Qed.

(** X19.  The redundancy check looks at ten fields only (chain, target,
    protocol, the two addresses, the two ports, the two interfaces and
    the state), an absent field counting as an empty one: a rule that
    agrees on them with a rule before it in the chain is reported
    redundant, whatever its table, match module, line, text or other
    parameters. *)
Theorem same_fields_reported_redundant (rules : list FirewallRule)
    (result : AnalysisResult) (j i : nat) (E R : FirewallRule) :
  rules !! j = Some E -> rules !! i = Some R -> (j < i)%nat ->
  same_signature_fields E R ->
  exists E', redundant_issue E' R
             ∈ issues (_check_redundant_rules rules result).
Proof.
  intros Hj Hi Hlt Hsame. unfold _check_redundant_rules.
  rewrite (check_redundant_from rules [] rules ∅ result eq_refl)
    by (intros rule; by rewrite lookup_empty).
  change (omap _ (zip (seq (length []) (length rules)) rules))
    with (redundant_findings rules).
  setoid_rewrite elem_of_app.
  destruct (first_same_signature (take i rules) R) as [E'|] eqn:HE'.
  - exists E'. right. unfold redundant_findings. apply list_elem_of_omap.
    exists (i, R). split; [by apply enumerate_lookup|]. by rewrite HE'.
  - exfalso. apply first_same_signature_None in HE'. apply HE'.
    unfold signatures. apply elem_of_list_to_set, list_elem_of_fmap.
    exists E. split; [by rewrite (same_signature_fields_signature E R)|].
    apply list_elem_of_lookup. exists j. by rewrite lookup_take_lt.
Qed.

Lemma same_fields_reported_redundant_witness :
  exists E', redundant_issue E' Scenario.ssh2
             ∈ issues (_check_redundant_rules
                         [Scenario.ssh1; Scenario.ssh2; Scenario.drop3]
                         new_AnalysisResult).
Proof.
  apply (same_fields_reported_redundant
           [Scenario.ssh1; Scenario.ssh2; Scenario.drop3] new_AnalysisResult
           0 1 Scenario.ssh1 Scenario.ssh2);
    [reflexivity | reflexivity | lia |].
  split; [reflexivity|]. split; [reflexivity|]. split; [reflexivity|].
  intros c. by destruct c.
Defined.

(** ** The default-policy proposals *)

Lemma chain_default_proposals_elem (table_name : string) (chains : Chains)
    (chain_name : string) (rec : Recommendation) :
  rec ∈ chain_default_proposals table_name chains chain_name ->
  rec = default_drop_recommendation table_name chain_name.
Proof.
  unfold chain_default_proposals. intros Hin.
  destruct (dict_get chains chain_name) as [rules|];
    [|by apply elem_of_nil in Hin].
  destruct (last rules) as [last_rule|]; [|by apply elem_of_nil in Hin].
  destruct (_ || _); [|by apply elem_of_nil in Hin].
  by apply list_elem_of_singleton in Hin.
Qed.

(** X20.  The default-policy pass adds [table_default_proposals] for each
    table: only unconditional drops, for the INPUT, FORWARD and OUTPUT
    chains of the table named filter; and a chain that ends with the rule
    the pass proposes for it gets no proposal. *)
Theorem default_proposals_shape (tbls : Tables) (plan : OptimizationPlan) :
  _check_default_policies tbls plan
  = extend_plan plan (mjoin (table_default_proposals <$> tbls)) /\
  (forall rec, rec ∈ mjoin (table_default_proposals <$> tbls) ->
     rec_type rec = ADD_RULE /\
     exists new_rule,
       new_rules rec = [new_rule] /\ target new_rule = "DROP" /\
       catch_all new_rule /\ table new_rule = "filter" /\
       chain new_rule ∈ ["INPUT"; "FORWARD"; "OUTPUT"]) /\
  (forall table_name chains chain_name rules new_rule,
     dict_get chains chain_name = Some (rules ++ [new_rule]) ->
     new_rules (default_drop_recommendation table_name chain_name) = [new_rule] ->
     chain_default_proposals table_name chains chain_name = []).
Proof.
  split; [apply _check_default_policies_spec|]. split.
  - intros rec Hin. apply list_elem_of_join in Hin as (l & Hin & Hl).
    apply list_elem_of_fmap in Hl as ([tn chs] & -> & _).
    unfold table_default_proposals in Hin. cbn [fst snd] in Hin.
    case_bool_decide as Htn; [|by apply elem_of_nil in Hin]. subst tn.
    apply list_elem_of_join in Hin as (l & Hin & Hl).
    apply list_elem_of_fmap in Hl as (cn & -> & Hcn).
    apply chain_default_proposals_elem in Hin as ->.
    split; [done|]. eexists. split; [reflexivity|].
    split; [done|]. split; [intros c; by destruct c|]. split; [done|].
    exact Hcn.
  - intros table_name chains chain_name rules new_rule Hget [= <-].
    unfold chain_default_proposals. by rewrite Hget, last_snoc.
Qed.

Lemma default_proposals_shape_witness :
  chain_default_proposals "filter"
    [("INPUT", [Scenario.ssh1;
                new_FirewallRule "filter" "INPUT" "DROP" "-A INPUT -j DROP"])]
    "INPUT" = [].
Proof.
  destruct (default_proposals_shape [] new_OptimizationPlan)
    as (_ & _ & Hquiet).
  apply (Hquiet "filter" _ "INPUT" [Scenario.ssh1]
           (new_FirewallRule "filter" "INPUT" "DROP" "-A INPUT -j DROP"));
    reflexivity.
Defined.

(** ** Severities and the savings estimate *)

Lemma count_issues_ext (P Q : RuleIssue -> bool) (l : list RuleIssue) :
  (forall i, i ∈ l -> P i = Q i) -> count_issues P l = count_issues Q l.
Proof.
  induction l as [|i l IH]; intros H; [done|].
  rewrite !count_issues_cons, (H i) by left.
  rewrite IH; [done|]. intros j Hj. apply H. by right.
Qed.

Lemma count_issues_none (P : RuleIssue -> bool) (l : list RuleIssue) :
  (forall i, i ∈ l -> P i = false) -> count_issues P l = 0.
Proof.
  induction l as [|i l IH]; intros H; [done|].
  rewrite count_issues_cons, (H i) by left.
  rewrite IH; [done|]. intros j Hj. apply H. by right.
Qed.

Lemma analyzer_issue_severity (issue : RuleIssue) :
  analyzer_issue issue ->
  severity issue <> SEV_CRITICAL /\
  (issue_type issue = SECURITY_RISK -> severity issue = SEV_HIGH) /\
  (severity issue = SEV_LOW <-> issue_type issue = MISSING_LOG).
Proof.
  intros [(E & R & ->)|[(r1 & r2 & ->)|[(E & R & ->)|[(E & R & ->)|
          [(r & ->)|[(r & ->)|(r & ->)]]]]]]; simpl;
    try (split; [done|]; split; [done|]; split; done).
  unfold conflict_severity. destruct (_ || _);
    (split; [done|]; split; [done|]; split; done).
Qed.

(** X21.  No issue of an analysis has critical severity, and low severity
    goes with missing-log issues only; every security-risk issue has
    high severity, so the security score of an analysis is 100 less 15
    per security-risk issue and 8 per overly-permissive issue, clamped to
    [0, 100]. *)
Theorem analysis_severities {L : IpLib} (cfg : FirewallConfig)
    (analysis : AnalysisResult) :
  analyze_configuration (Some cfg) = Ok analysis ->
  get_issues_by_severity analysis SEV_CRITICAL = [] /\
  get_issues_by_severity analysis SEV_LOW
    = get_issues_by_type analysis MISSING_LOG /\
  security_score analysis =
    clamp (100
           - 15 * count_issues (fun i => bool_decide (issue_type i = SECURITY_RISK))
                    (issues analysis)
           - 8 * count_issues (fun i => bool_decide (issue_type i = OVERLY_PERMISSIVE))
                   (issues analysis)).
Proof.
  intros Hrun.
  assert (Hall : forall issue, issue ∈ issues analysis -> analyzer_issue issue).
  { intros issue Hin. simpl in Hrun.
    rewrite (analyze_tables_findings _ _ Hrun) in Hin.
    by eapply policy_findings_analyzer. }
  split; [|split].
  - unfold get_issues_by_severity.
    destruct (filter _ (issues analysis)) as [|issue l] eqn:Hf; [done|].
    assert (issue ∈ filter (fun issue => severity issue = SEV_CRITICAL)
                      (issues analysis)) as Hin by (rewrite Hf; left).
    apply list_elem_of_filter in Hin as [Hsev Hin].
    by destruct (analyzer_issue_severity issue (Hall issue Hin)) as [Hno _].
  - unfold get_issues_by_severity, get_issues_by_type.
    induction (issues analysis) as [|issue l IH]; [done|].
    rewrite !filter_cons, IH by (intros i Hi; apply Hall; by right).
    destruct (analyzer_issue_severity issue (Hall issue ltac:(left)))
      as (_ & _ & Hlow).
    destruct (decide (severity issue = SEV_LOW)) as [Hs|Hs].
    + by rewrite decide_True by by apply Hlow.
    + rewrite decide_False; [done|]. intros Ht. by apply Hs, Hlow.
  - destruct (analyze_tables_scores _ _ Hrun) as [_ ->].
    unfold _calculate_security_score, clamp. rewrite security_fold.
    rewrite (count_issues_none (fun i => _ && bool_decide (severity i = SEV_CRITICAL))),
      (count_issues_none (fun i => _ && bool_decide (severity i = SEV_MEDIUM))),
      (count_issues_ext (fun i => _ && bool_decide (severity i = SEV_HIGH))
         (fun i => bool_decide (issue_type i = SECURITY_RISK))).
    + f_equal. f_equal. lia.
    + intros i Hi.
      destruct (analyzer_issue_severity i (Hall i Hi)) as (_ & Hhigh & _).
      case_bool_decide as Ht; [|done]. simpl. by rewrite bool_decide_true by auto.
    + intros i Hi.
      destruct (analyzer_issue_severity i (Hall i Hi)) as (_ & Hhigh & _).
      case_bool_decide as Ht; [|done]. simpl. rewrite (Hhigh Ht). done.
    + intros i Hi.
      destruct (analyzer_issue_severity i (Hall i Hi)) as (Hno & _).
      rewrite (bool_decide_false _ Hno). apply andb_false_r.
Qed.

Lemma analysis_severities_witness :
  exists analysis,
    analyze_configuration (L := ipv4_lib) (Some Scenario.duplicate_policy)
      = Ok analysis /\
    get_issues_by_severity analysis SEV_CRITICAL = [].
Proof.
  destruct (analyze_configuration (L := ipv4_lib)
              (Some Scenario.duplicate_policy)) as [analysis|e] eqn:Hrun;
    [|vm_compute in Hrun; discriminate].
  exists analysis. split; [reflexivity|].
  by apply (analysis_severities (L := ipv4_lib) Scenario.duplicate_policy).
Defined.

Lemma rules_reduced_fold (recs : list Recommendation) (n : Z) :
  fold_left (fun n rec =>
    if bool_decide (rec_type rec = DELETE_RULE)
    then n + Z.of_nat (length (rec_affected_rules rec)) else n) recs n
  = n + rules_reduced recs.
Proof.
  unfold rules_reduced. revert n.
  induction recs as [|rec recs IH]; intros n; [simpl; lia|].
  simpl. rewrite IH, (IH (if bool_decide _ then _ else _)).
  case_bool_decide; lia.
Qed.

Lemma rules_reduced_cons (rec : Recommendation) (recs : list Recommendation) :
  rules_reduced (rec :: recs) =
  (if bool_decide (rec_type rec = DELETE_RULE)
   then Z.of_nat (length (rec_affected_rules rec)) else 0)
  + rules_reduced recs.
Proof.
  unfold rules_reduced at 1. simpl. rewrite rules_reduced_fold.
  case_bool_decide; lia.
Qed.

Lemma rules_reduced_app (recs1 recs2 : list Recommendation) :
  rules_reduced (recs1 ++ recs2) = rules_reduced recs1 + rules_reduced recs2.
Proof.
  induction recs1 as [|rec recs1 IH]; [done|].
  rewrite <- app_comm_cons, !rules_reduced_cons, IH. lia.
Qed.

Lemma rules_reduced_none (recs : list Recommendation) :
  (forall rec, rec ∈ recs -> rec_type rec <> DELETE_RULE) ->
  rules_reduced recs = 0.
Proof.
  induction recs as [|rec recs IH]; intros H; [done|].
  rewrite rules_reduced_cons, bool_decide_false by (apply H; left).
  rewrite IH; [done|]. intros r Hr. apply H. by right.
Qed.

Lemma rules_reduced_insert (rec : Recommendation) (sorted : list Recommendation) :
  rules_reduced (insert_by_priority rec sorted) = rules_reduced (rec :: sorted).
Proof.
  induction sorted as [|r sorted IH]; [done|]. cbn [insert_by_priority].
  destruct (_ <? _); [|done].
  rewrite (rules_reduced_cons r), IH, !rules_reduced_cons. lia.
Qed.

Lemma rules_reduced_sorted (recs : list Recommendation) :
  rules_reduced (sorted_by_priority recs) = rules_reduced recs.
Proof.
  unfold sorted_by_priority. induction recs as [|rec recs IH]; [done|].
  simpl. by rewrite rules_reduced_insert, !rules_reduced_cons, IH.
Qed.

Lemma rules_reduced_issues (l : list RuleIssue) :
  (forall issue, issue ∈ l -> analyzer_issue issue) ->
  rules_reduced (mjoin (issue_recommendations <$> l))
  = count_issues (fun i => bool_decide (issue_type i = REDUNDANT)) l
    + count_issues (fun i => bool_decide (issue_type i = UNREACHABLE)) l.
Proof.
  induction l as [|issue l IH]; intros Hall; [done|].
  rewrite fmap_cons, join_cons, rules_reduced_app, !count_issues_cons.
  rewrite IH by (intros i Hi; apply Hall; by right).
  destruct (Hall issue ltac:(left))
    as [(E & R & ->)|[(r1 & r2 & ->)|[(E & R & ->)|[(E & R & ->)|
        [(r & ->)|[(r & ->)|(r & ->)]]]]]]; simpl;
    unfold rules_reduced; simpl; lia.
Qed.

Lemma count_issues_app (P : RuleIssue -> bool) (l1 l2 : list RuleIssue) :
  count_issues P (l1 ++ l2) = count_issues P l1 + count_issues P l2.
Proof. unfold count_issues. rewrite filter_app, length_app. lia. Qed.

Lemma count_issues_by_handler (analysis : AnalysisResult) (t : IssueType) :
  count_issues (fun i => bool_decide (issue_type i = t))
    (issues_by_handler analysis)
  = count_issues (fun i => bool_decide (issue_type i = t)) (issues analysis).
Proof.
  unfold issues_by_handler, handler_order, get_issues_by_type.
  rewrite !fmap_cons, !join_cons, !count_issues_app. simpl.
  induction (issues analysis) as [|issue l IH]; [done|].
  rewrite !filter_cons.
  destruct (issue_type issue) eqn:Hty;
    repeat first [ rewrite decide_True by done
                 | rewrite decide_False by done ];
    rewrite !count_issues_cons, Hty; destruct t; simpl;
    rewrite ?bool_decide_true by done; rewrite ?bool_decide_false by done;
    lia.
Qed.

(** X22.  For the plan generated from an analysis, the estimated number of
    rules removed is the number of redundant issues plus the number of
    unreachable issues of the analysis: a rule reported both ways counts
    twice.  Sorting the plan does not change the number. *)
Theorem rules_reduced_counts_issues {L : IpLib} (cfg : FirewallConfig)
    (analysis : AnalysisResult) (plan : OptimizationPlan) :
  analyze_configuration (Some cfg) = Ok analysis ->
  generate_recommendations cfg analysis = Ok plan ->
  rules_reduced (unsorted_recommendations cfg analysis)
  = count_issues (fun i => bool_decide (issue_type i = REDUNDANT))
      (issues analysis)
    + count_issues (fun i => bool_decide (issue_type i = UNREACHABLE))
        (issues analysis) /\
  rules_reduced (recommendations plan)
  = rules_reduced (unsorted_recommendations cfg analysis).
Proof.
  intros Hrun Hplan.
  assert (Hall : forall issue, issue ∈ issues analysis -> analyzer_issue issue).
  { intros issue Hin. simpl in Hrun.
    rewrite (analyze_tables_findings _ _ Hrun) in Hin.
    by eapply policy_findings_analyzer. }
  split.
  - unfold unsorted_recommendations.
    rewrite rules_reduced_app, rules_reduced_issues
      by (intros i Hi; by apply Hall, issues_by_handler_elem).
    rewrite !count_issues_by_handler, rules_reduced_none; [lia|].
    intros rec Hin. unfold general_recommendations in Hin.
    apply elem_of_app in Hin as [Hin|Hin].
    + apply list_elem_of_fmap in Hin as (g & -> & _). done.
    + apply list_elem_of_join in Hin as (l & Hin & Hl).
      apply list_elem_of_fmap in Hl as ([tn chs] & -> & _).
      unfold table_default_proposals in Hin. cbn [fst snd] in Hin.
      case_bool_decide; [|by apply elem_of_nil in Hin].
      apply list_elem_of_join in Hin as (l & Hin & Hl).
      apply list_elem_of_fmap in Hl as (cn & -> & _).
      by apply chain_default_proposals_elem in Hin as ->.
  - apply generate_recommendations_Ok in Hplan as ->. simpl.
    apply rules_reduced_sorted.
Qed.

Lemma rules_reduced_counts_issues_witness :
  exists analysis plan,
    analyze_configuration (L := ipv4_lib) (Some Scenario.duplicate_policy)
      = Ok analysis /\
    generate_recommendations Scenario.duplicate_policy analysis = Ok plan /\
    rules_reduced (recommendations plan) = 2.
Proof.
  destruct (analyze_configuration (L := ipv4_lib)
              (Some Scenario.duplicate_policy)) as [analysis|e] eqn:Hrun;
    [|vm_compute in Hrun; discriminate].
  destruct (generate_recommendations Scenario.duplicate_policy analysis)
    as [plan|e] eqn:Hplan.
  - exists analysis, plan. split; [reflexivity|]. split; [exact Hplan|].
    destruct (rules_reduced_counts_issues _ _ _ Hrun Hplan) as [Hcount ->].
    rewrite Hcount. vm_compute in Hrun. injection Hrun as <-.
    vm_compute. reflexivity.
  - exfalso. vm_compute in Hrun. injection Hrun as <-.
    vm_compute in Hplan. discriminate.
Defined.
